(** * LSB steganography core: codec, risk assessor and benchmark sweep

    A shallow embedding of [core/stego.py], [core/risk.py] and the sweep of
    [core/analysis.py], followed by the properties of the embedding.

    Conventions of the embedding.
    - Python [int]s are [Z]; loop counters that only count up from zero are
      [nat].  [bytes] values are lists of [Z] in [0, 256).
    - A Python [str] is the list of its code points; a method name, which the
      code only compares with ASCII literals, is a [string].
    - A raised exception is the [Raise] branch of [result]; the exception
      carries its class and, for [ValueError], the message text.
    - PIL images are objects: they live in a [heap] and are passed by
      reference.  Only RGB images are modelled, so [image.convert("RGB")]
      inside the codec is never taken ([image.mode] is ["RGB"]).
    - Python [float]s are IEEE binary64 values, here Rocq's primitive
      floats, which round the same way. *)

From Stdlib Require Import ZArith Lia Floats DecimalString.
From stdpp Require Import base tactics option list list_numbers strings gmap.

Local Open Scope Z_scope.

(* A decimal literal denotes the nearest double, as it does in Python. *)
Set Warnings "-inexact-float".

(** ** Exceptions and the two monads *)

Inductive exn : Type :=
| ValueError (msg : string)
| OverflowError
| UnicodeEncodeError.

Inductive result (A : Type) : Type :=
| Ok (a : A)
| Raise (e : exn).
Arguments Ok {A} a.
Arguments Raise {A} e.

Definition rbind {A B} (m : result A) (k : A -> result B) : result B :=
  match m with
  | Ok a => k a
  | Raise e => Raise e
  end.

Notation "x <- e ;; k" := (rbind e (fun x => k))
  (at level 100, e at next level, right associativity).

(** An RGB pixel as PIL hands it out, and an image: its [size] and the
    pixel access object of [image.load()], indexed by [(x, y)]. *)
Definition pixel : Type := Z * Z * Z.

Record Image : Type := mkImage {
  size : Z * Z;
  pixels : Z -> Z -> pixel
}.

Definition width (im : Image) : Z := fst (size im).
Definition height (im : Image) : Z := snd (size im).

(** The object store.  References below [next_ref] are live. *)
Definition ref : Type := nat.

Record heap : Type := mkHeap {
  next_ref : ref;
  cell : ref -> Image
}.

(** Computations that read or allocate images, and may raise. *)
Definition M (A : Type) : Type := heap -> result A * heap.

Definition retM {A} (a : A) : M A := fun h => (Ok a, h).
Definition raiseM {A} (e : exn) : M A := fun h => (Raise e, h).
Definition bindM {A B} (m : M A) (k : A -> M B) : M B :=
  fun h => match m h with
           | (Ok a, h') => k a h'
           | (Raise e, h') => (Raise e, h')
           end.
Definition lift {A} (r : result A) : M A := fun h => (r, h).

Notation "x <~ e ;; k" := (bindM e (fun x => k))
  (at level 100, e at next level, right associativity).

(** [try: body except Exception as exc: handler(exc)] *)
Definition try_except {A} (body : M A) (handler : exn -> M A) : M A :=
  fun h => match body h with
           | (Ok a, h') => (Ok a, h')
           | (Raise e, h') => handler e h'
           end.

(** Reading the image behind a reference ([image.size], [image.load()]). *)
Definition deref (r : ref) : M Image := fun h => (Ok (cell h r), h).

(** Allocating a new image object ([image.copy()], and the buffer a
    finished embedding leaves behind it). *)
Definition alloc (im : Image) : M ref :=
  fun h => (Ok (next_ref h),
            mkHeap (S (next_ref h))
                   (fun r => if Nat.eqb r (next_ref h) then im else cell h r)).

(** Committing the writes made through [out.load()] to the object [r]. *)
Definition store (r : ref) (im : Image) : M unit :=
  fun h => (Ok tt, mkHeap (next_ref h)
                          (fun r' => if Nat.eqb r' r then im else cell h r')).

(** ** Python built-ins used by the codec *)

(** [range(n)] *)
Definition range (n : Z) : list Z := seqZ 0 n.

(** [str(n)] for an [int] *)
Definition str_of_int (n : Z) : string := NilZero.string_of_int (Z.to_int n).

(** [n.to_bytes(4, "big")] for [n >= 0] *)
Definition to_bytes4_big (n : Z) : result (list Z) :=
  if (n <? 0) || (2 ^ 32 <=? n) then Raise OverflowError
  else Ok [Z.land (Z.shiftr n 24) 255; Z.land (Z.shiftr n 16) 255;
           Z.land (Z.shiftr n 8) 255; Z.land n 255].

(** [int.from_bytes(data, "big")] *)
Definition from_bytes_big (data : list Z) : Z :=
  fold_left (fun acc b => Z.lor (Z.shiftl acc 8) b) data 0.

(** *** UTF-8 *)

Definition REPLACEMENT : Z := 0xFFFD.

(** [str.encode("utf-8")], one code point.  A surrogate cannot be
    encoded; a number that is not a code point is not part of a [str] and is
    refused the same way. *)
Definition utf8_encode_char (c : Z) : result (list Z) :=
  if c <? 0 then Raise UnicodeEncodeError
  else if c <? 0x80 then Ok [c]
  else if c <? 0x800 then
    Ok [Z.lor 0xC0 (Z.shiftr c 6); Z.lor 0x80 (Z.land c 0x3F)]
  else if c <? 0x10000 then
    if (0xD800 <=? c) && (c <=? 0xDFFF) then Raise UnicodeEncodeError
    else Ok [Z.lor 0xE0 (Z.shiftr c 12);
             Z.lor 0x80 (Z.land (Z.shiftr c 6) 0x3F);
             Z.lor 0x80 (Z.land c 0x3F)]
  else if c <? 0x110000 then
    Ok [Z.lor 0xF0 (Z.shiftr c 18);
        Z.lor 0x80 (Z.land (Z.shiftr c 12) 0x3F);
        Z.lor 0x80 (Z.land (Z.shiftr c 6) 0x3F);
        Z.lor 0x80 (Z.land c 0x3F)]
  else Raise UnicodeEncodeError.

Fixpoint str_encode_utf8 (s : list Z) : result (list Z) :=
  match s with
  | [] => Ok []
  | c :: s' =>
      bs <- utf8_encode_char c ;;
      rest <- str_encode_utf8 s' ;;
      Ok (bs ++ rest)
  end.

Definition is_continuation (b : Z) : bool := (0x80 <=? b) && (b <? 0xC0).

(** Second byte of a three-byte form: [E0] needs [A0..BF], [ED] needs
    [80..9F] (no surrogates), the others any continuation byte. *)
Definition second_of_3 (b0 b1 : Z) : bool :=
  is_continuation b1 &&
  negb (if b1 <? 0xA0 then b0 =? 0xE0 else b0 =? 0xED).

(** Second byte of a four-byte form: [F0] needs [90..BF], [F4] needs
    [80..8F]. *)
Definition second_of_4 (b0 b1 : Z) : bool :=
  is_continuation b1 &&
  negb (if b1 <? 0x90 then b0 =? 0xF0 else b0 =? 0xF4).

(** [bytes.decode("utf-8", errors="replace")]: every maximal ill-formed
    run of bytes becomes one U+FFFD and decoding resumes behind it. *)
Fixpoint bytes_decode_utf8_replace (bs : list Z) : list Z :=
  match bs with
  | [] => []
  | b0 :: r0 =>
    if b0 <? 0x80 then b0 :: bytes_decode_utf8_replace r0
    else if b0 <? 0xC2 then REPLACEMENT :: bytes_decode_utf8_replace r0
    else if b0 <? 0xE0 then
      match r0 with
      | [] => [REPLACEMENT]
      | b1 :: r1 =>
        if is_continuation b1
        then (Z.shiftl b0 6 + b1 - (Z.shiftl 0xC0 6 + 0x80))
               :: bytes_decode_utf8_replace r1
        else REPLACEMENT :: bytes_decode_utf8_replace r0
      end
    else if b0 <? 0xF0 then
      match r0 with
      | [] => [REPLACEMENT]
      | b1 :: r1 =>
        if second_of_3 b0 b1 then
          match r1 with
          | [] => [REPLACEMENT]
          | b2 :: r2 =>
            if is_continuation b2
            then (Z.shiftl b0 12 + Z.shiftl b1 6 + b2
                  - (Z.shiftl 0xE0 12 + Z.shiftl 0x80 6 + 0x80))
                   :: bytes_decode_utf8_replace r2
            else REPLACEMENT :: bytes_decode_utf8_replace r1
          end
        else REPLACEMENT :: bytes_decode_utf8_replace r0
      end
    else if b0 <? 0xF5 then
      match r0 with
      | [] => [REPLACEMENT]
      | b1 :: r1 =>
        if second_of_4 b0 b1 then
          match r1 with
          | [] => [REPLACEMENT]
          | b2 :: r2 =>
            if is_continuation b2 then
              match r2 with
              | [] => [REPLACEMENT]
              | b3 :: r3 =>
                if is_continuation b3
                then (Z.shiftl b0 18 + Z.shiftl b1 12 + Z.shiftl b2 6 + b3
                      - (Z.shiftl 0xF0 18 + Z.shiftl 0x80 12
                         + Z.shiftl 0x80 6 + 0x80))
                       :: bytes_decode_utf8_replace r3
                else REPLACEMENT :: bytes_decode_utf8_replace r2
              end
            else REPLACEMENT :: bytes_decode_utf8_replace r1
          end
        else REPLACEMENT :: bytes_decode_utf8_replace r0
      end
    else REPLACEMENT :: bytes_decode_utf8_replace r0
  end.

(** *** Floats *)

(** [float(n)] for an [int]: the nearest double, ties to even;
    [OverflowError] when there is none. *)
Definition float_of_int (n : Z) : result float :=
  let f := binary_normalize prec emax n 0 false in
  match f with
  | S754_infinity _ => Raise OverflowError
  | _ => Ok (SF2Prim f)
  end.

(** [max(a, b)] and [min(a, b)] on floats: the first argument stays unless
    the second is strictly greater (smaller). *)
Definition py_max (a b : float) : float := if (a <? b)%float then b else a.
Definition py_min (a b : float) : float := if (b <? a)%float then b else a.

(** [a >= b] and [a > b] on floats *)
Definition py_ge (a b : float) : bool := (b <=? a)%float.
Definition py_gt (a b : float) : bool := (b <? a)%float.

(** [bool(x)] for a float *)
Definition py_truth (x : float) : bool := negb (x =? 0)%float.

(** ** core/stego.py *)

Module Stego.

Definition SUPPORTED_METHODS : list string := ["sequential"; "interleaved"]%string.

Definition bad_bits_message : string :=
  "Поддерживаются только 1, 2 или 3 бита на канал".
Definition bad_method_message (method : string) : string :=
  "Неизвестный метод встраивания: " +:+ method.
Definition too_large_message (payload_bits total_bits_capacity : Z) : string :=
  "Сообщение слишком большое (" +:+ str_of_int payload_bits +:+ " бит > "
    +:+ str_of_int total_bits_capacity +:+ ")".
Definition short_data_message : string := "Мало данных".
Definition incomplete_message : string := "Неполное сообщение".
Definition no_header_message : string := "Нет заголовка".
Definition bad_length_message : string := "Некорректная длина сообщения".

Definition xor_with_password (data : list Z) (password : list Z)
  : result (list Z) :=
  match password with
  | [] => Ok data
  | _ =>
      pw <- str_encode_utf8 password ;;
      Ok (imap (fun i b => Z.lxor b (pw !!! (i mod length pw)%nat)) data)
  end.

Definition validate_bits_and_method (bits_per_channel : Z) (method : string)
  : result unit :=
  if negb (bool_decide (bits_per_channel ∈ [1; 2; 3]))
  then Raise (ValueError bad_bits_message)
  else if negb (bool_decide (method ∈ SUPPORTED_METHODS))
  then Raise (ValueError (bad_method_message method))
  else Ok tt.

Definition get_carrier_order (bits_per_channel : Z) (method : string)
  : result (list (Z * Z)) :=
  _ <- validate_bits_and_method bits_per_channel method ;;
  if bool_decide (method = "interleaved"%string)
  then Ok (bit_idx ← range bits_per_channel;
           channel ← range 3; [(channel, bit_idx)])
  else Ok (channel ← range 3;
           bit_idx ← range bits_per_channel; [(channel, bit_idx)]).

Definition max_message_bytes (image_size : Z * Z) (bits_per_channel : Z)
  : result Z :=
  _ <- validate_bits_and_method bits_per_channel "sequential" ;;
  let '(width, height) := image_size in
  let total_bytes := (width * height * 3 * bits_per_channel) `div` 8 in
  Ok (Z.max 0 (total_bytes - 4)).

Definition prepare_payload (message password : list Z) : result (list Z) :=
  plain <- str_encode_utf8 message ;;
  protected <- xor_with_password plain password ;;
  header <- to_bytes4_big (Z.of_nat (length protected)) ;;
  Ok (header ++ protected).

Definition decode_payload (payload : list Z) (password : list Z)
  : result (list Z) :=
  if (length payload <? 4)%nat then Raise (ValueError short_data_message)
  else
    let msg_len := from_bytes_big (take 4 payload) in
    let msg_bytes := take (Z.to_nat msg_len) (drop 4 payload) in
    if negb (Z.of_nat (length msg_bytes) =? msg_len)
    then Raise (ValueError incomplete_message)
    else
      decrypted <- xor_with_password msg_bytes password ;;
      Ok (bytes_decode_utf8_replace decrypted).

Definition _bytes_to_bits (data : list Z) : list Z :=
  byte ← data;
  shift ← [7; 6; 5; 4; 3; 2; 1; 0];
  [Z.land (Z.shiftr byte shift) 1].

Definition _bits_to_int (bits : list Z) : Z :=
  fold_left (fun value bit => Z.lor (Z.shiftl value 1) bit) bits 0.

(** Each turn of the loop takes the next eight bits; a shorter last chunk
    ends it.  The bits are 0 or 1, so every chunk spells a byte. *)
Fixpoint _bits_to_bytes (bits : list Z) : list Z :=
  match bits with
  | b0 :: b1 :: b2 :: b3 :: b4 :: b5 :: b6 :: b7 :: rest =>
      _bits_to_int [b0; b1; b2; b3; b4; b5; b6; b7] :: _bits_to_bytes rest
  | _ => []
  end.

(** [channels[i]] on the tuple [pixels[x, y]], for [i] one of 0, 1, 2 *)
Definition channel_of (p : pixel) (channel_idx : Z) : Z :=
  let '(r, g, b) := p in
  if channel_idx =? 0 then r else if channel_idx =? 1 then g else b.

(** [list(pixels_in[x, y])] and [tuple(channels)], [channels] having kept
    its three entries *)
Definition list_of_pixel (p : pixel) : list Z :=
  let '(r, g, b) := p in [r; g; b].
Definition pixel_of_list (channels : list Z) : pixel :=
  (channels !!! 0%nat, channels !!! 1%nat, channels !!! 2%nat).

(** The generator, as the list of the bits it yields in order. *)
Definition _iter_bits_from_image (image : Image) (bits_per_channel : Z)
    (method : string) : result (list Z) :=
  let '(w, h) := size image in
  carrier_order <- get_carrier_order bits_per_channel method ;;
  Ok (y ← range h;
      x ← range w;
      let channels := pixels image x y in
      '(channel_idx, bit_idx) ← carrier_order;
      [Z.land (Z.shiftr (channel_of channels channel_idx) bit_idx) 1]).

(** [next(bits_iter, None)], the iterator being what is left to yield *)
Definition next_or_none (bits_iter : list Z) : option Z * list Z :=
  match bits_iter with
  | [] => (None, [])
  | b :: rest => (Some b, rest)
  end.

(** [[next(bits_iter, None) for _ in range(n)]] *)
Fixpoint next_n (n : nat) (bits_iter : list Z) : list (option Z) * list Z :=
  match n with
  | O => ([], bits_iter)
  | S n' =>
      let '(b, it1) := next_or_none bits_iter in
      let '(bs, it2) := next_n n' it1 in
      (b :: bs, it2)
  end.

(** [any(bit is None for bit in bits)] *)
Definition any_none (bits : list (option Z)) : bool :=
  existsb (fun b => match b with None => true | Some _ => false end) bits.

(** The bits once none of them is [None]. *)
Definition the_bits (bits : list (option Z)) : list Z :=
  omap id bits.

(** The body of [for channel_idx, bit_idx in carrier_order], with its
    [break]; the state is [channels] and [idx]. *)
Fixpoint embed_in_channels (bit_stream : list Z) (carrier_order : list (Z * Z))
    (channels : list Z) (idx : nat) : list Z * nat :=
  match carrier_order with
  | [] => (channels, idx)
  | (channel_idx, bit_idx) :: rest =>
      if (length bit_stream <=? idx)%nat then (channels, idx)
      else
        let bit := bit_stream !!! idx in
        let c := Z.to_nat channel_idx in
        let channels' :=
          if negb (bit =? 0)
          then <[c := Z.lor (channels !!! c) (Z.shiftl 1 bit_idx)]> channels
          else <[c := Z.land (channels !!! c) (Z.lnot (Z.shiftl 1 bit_idx))]>
                 channels in
        embed_in_channels bit_stream rest channels' (S idx)
  end.

(** How a loop over pixels leaves: it runs on, or the function returns. *)
Inductive flow : Type :=
| Continue (pixels_out : Z -> Z -> pixel) (idx : nat)
| Return (pixels_out : Z -> Z -> pixel).

(** [pixels_out[x, y] = value] *)
Definition set_pixel (pixels_out : Z -> Z -> pixel) (x y : Z) (value : pixel)
  : Z -> Z -> pixel :=
  fun x' y' => if (x' =? x) && (y' =? y) then value else pixels_out x' y'.

(** [for x in range(w)], for one [y] *)
Fixpoint embed_row (bit_stream : list Z) (carrier_order : list (Z * Z))
    (pixels_in : Z -> Z -> pixel) (y : Z) (xs : list Z)
    (pixels_out : Z -> Z -> pixel) (idx : nat) : flow :=
  match xs with
  | [] => Continue pixels_out idx
  | x :: xs' =>
      let channels := list_of_pixel (pixels_in x y) in
      let '(channels', idx') :=
        embed_in_channels bit_stream carrier_order channels idx in
      let pixels_out' := set_pixel pixels_out x y (pixel_of_list channels') in
      if (length bit_stream <=? idx')%nat then Return pixels_out'
      else embed_row bit_stream carrier_order pixels_in y xs' pixels_out' idx'
  end.

(** [for y in range(h)], and the [return out] behind it *)
Fixpoint embed_rows (bit_stream : list Z) (carrier_order : list (Z * Z))
    (pixels_in : Z -> Z -> pixel) (w : Z) (ys : list Z)
    (pixels_out : Z -> Z -> pixel) (idx : nat) : Z -> Z -> pixel :=
  match ys with
  | [] => pixels_out
  | y :: ys' =>
      match embed_row bit_stream carrier_order pixels_in y (range w)
                      pixels_out idx with
      | Return out => out
      | Continue pixels_out' idx' =>
          embed_rows bit_stream carrier_order pixels_in w ys' pixels_out' idx'
      end
  end.

Definition encode_payload_into_image (image : ref) (payload : list Z)
    (bits_per_channel : Z) (method : string) : M ref :=
  _ <~ lift (validate_bits_and_method bits_per_channel method) ;;
  im <~ deref image ;;
  let total_bits_capacity :=
    fst (size im) * snd (size im) * 3 * bits_per_channel in
  let payload_bits := Z.of_nat (length payload) * 8 in
  if total_bits_capacity <? payload_bits
  then raiseM (ValueError (too_large_message payload_bits total_bits_capacity))
  else
    let bit_stream := _bytes_to_bits payload in
    out <~ alloc im ;;
    let pixels_in := pixels im in
    let '(w, h) := size im in
    carrier_order <~ lift (get_carrier_order bits_per_channel method) ;;
    let pixels_out :=
      embed_rows bit_stream carrier_order pixels_in w (range h) pixels_in 0 in
    _ <~ store out (mkImage (size im) pixels_out) ;;
    retM out.

Definition decode_payload_from_image (image : ref) (bits_per_channel : Z)
    (method : string) : M (list Z) :=
  _ <~ lift (validate_bits_and_method bits_per_channel method) ;;
  im <~ deref image ;;
  bits_iter <~ lift (_iter_bits_from_image im bits_per_channel method) ;;
  let '(header_bits, bits_iter) := next_n 32 bits_iter in
  if any_none header_bits then raiseM (ValueError no_header_message)
  else
    let msg_len := _bits_to_int (the_bits header_bits) in
    max_bytes <~ lift (max_message_bytes (size im) bits_per_channel) ;;
    if max_bytes <? msg_len then raiseM (ValueError bad_length_message)
    else
      let payload_bits_count := msg_len * 8 in
      let '(msg_bits, bits_iter) :=
        next_n (Z.to_nat payload_bits_count) bits_iter in
      if any_none msg_bits then raiseM (ValueError incomplete_message)
      else
        let msg_bytes := _bits_to_bytes (the_bits msg_bits) in
        header <~ lift (to_bytes4_big msg_len) ;;
        retM (header ++ msg_bytes).

Definition encode_text_into_image (image : ref) (message password : list Z)
    (bits_per_channel : Z) (method : string) : M ref :=
  payload <~ lift (prepare_payload message password) ;;
  encode_payload_into_image image payload bits_per_channel method.

Definition decode_text_from_image (image : ref) (password : list Z)
    (bits_per_channel : Z) (method : string) : M (list Z) :=
  payload <~ decode_payload_from_image image bits_per_channel method ;;
  lift (decode_payload payload password).

End Stego.

(** ** core/risk.py *)

Module Risk.

(** The dictionary [chi_square_lsb_test] returns, key by key. *)
Record RiskStats : Type := mkRiskStats {
  chi2 : float;
  zero_bits : Z;
  one_bits : Z;
  suspicious : bool
}.

(** [int(np.sum(lsb == v))] for [lsb = pixels[:, :, channel] & 1], the
    array having one row per [y] and one column per [x]. *)
Definition count_lsb (im : Image) (channel : Z) (v : Z) : Z :=
  Z.of_nat (length (filter (fun b => b = v)
    (y ← range (height im);
     x ← range (width im);
     [Z.land (Stego.channel_of (pixels im x y) channel) 1]))).

(** [for channel in range(3)], the state being [counts["0"]] and
    [counts["1"]]. *)
Definition count_channels (im : Image) (channels : list Z) (counts : Z * Z)
  : Z * Z :=
  fold_left (fun '(zeros, ones) channel =>
               (zeros + count_lsb im channel 0, ones + count_lsb im channel 1))
            channels counts.

(** [x ** 2] on a float is taken as [x * x]. *)
Definition chi_square_lsb_test (img : option ref) : M RiskStats :=
  match img with
  | None => retM (mkRiskStats 0 0 0 false)
  | Some img =>
      im <~ deref img ;;
      _ <~ alloc im ;;   (* img.convert("RGB") *)
      let '(count0, count1) := count_channels im (range 3) (0, 0) in
      let total := count0 + count1 in
      ftotal <~ lift (float_of_int total) ;;
      let expected := py_max 1 (ftotal / 2)%float in
      f0 <~ lift (float_of_int count0) ;;
      f1 <~ lift (float_of_int count1) ;;
      let chi2 := (((f0 - expected) * (f0 - expected)) / expected
                   + ((f1 - expected) * (f1 - expected)) / expected)%float in
      retM (mkRiskStats chi2 count0 count1 (py_gt chi2 10))
  end.

Inductive reason_text : Type :=
| HighLoad       (* "высокая загрузка контейнера (..%) и заметный сдвиг LSB-статистики" *)
| MediumLoad     (* "средняя загрузка (..%) или умеренное отклонение LSB-распределения" *)
| LowLoad.       (* "низкая загрузка (..%) и минимальные изменения LSB-статистики" *)

(** The reason is one of three sentences around [usage_ratio * 100]
    printed with one decimal. *)
Record reason : Type := mkReason {
  sentence : reason_text;
  percent : float
}.

(** [stats.get(key, default)] on a [Mapping[str, float]] *)
Definition get (stats : gmap string float) (key : string) (default : float)
  : float :=
  match stats !! key with
  | Some v => v
  | None => default
  end.

Definition evaluate_risk (usage_ratio : float)
    (stats_orig stats_enc : gmap string float) : string * reason :=
  let usage_ratio := py_max 0 (py_min 1 usage_ratio) in
  let z0 := get stats_orig "zero_bits" 0 in
  let o0 := get stats_orig "one_bits" 0 in
  let z1 := get stats_enc "zero_bits" 0 in
  let o1 := get stats_enc "one_bits" 0 in
  let t0 := py_max 1 (z0 + o0)%float in
  let t1 := py_max 1 (z1 + o1)%float in
  let imbalance_orig := (abs (z0 - o0) / t0)%float in
  let imbalance_stego := (abs (z1 - o1) / t1)%float in
  let delta_imbalance := py_max 0 (imbalance_stego - imbalance_orig)%float in
  let chi0 := get stats_orig "chi2" 0 in
  let chi1 := get stats_enc "chi2" 0 in
  let chi_shift := (abs (chi1 - chi0) / py_max (abs chi0) 1e-9)%float in
  let suspicious := py_truth (get stats_enc "suspicious" 0) in
  if py_ge usage_ratio 0.40
     && (py_ge delta_imbalance 0.02 || py_ge chi_shift 0.20)
  then ("HIGH"%string, mkReason HighLoad (usage_ratio * 100)%float)
  else if py_ge usage_ratio 0.18
          || (py_ge usage_ratio 0.08
              && (py_ge delta_imbalance 0.01 || py_ge chi_shift 0.08))
          || (py_ge usage_ratio 0.12 && suspicious)
  then ("MEDIUM"%string, mkReason MediumLoad (usage_ratio * 100)%float)
  else ("LOW"%string, mkReason LowLoad (usage_ratio * 100)%float).

End Risk.

(** ** core/analysis.py: the mode sweep *)

Module Analysis.

(** What a row records as its [error]: a literal text, or [str(exc)] of the
    exception caught. *)
Inductive error_text : Type :=
| Text (s : string)
| StrOf (e : exn).

Record BenchmarkRow : Type := mkRow {
  method : string;
  bits : Z;
  fit : bool;
  decode_ok : bool;
  psnr_db : option float;
  mse : option float;
  ssim : option float;
  capacity : Z;
  usage_ratio : option float;
  error : option error_text
}.

Definition does_not_fit_message : string :=
  "сообщение не помещается в контейнер".

(** [float(payload_bytes) / float(capacity) if capacity else None] *)
Definition usage_of (payload_bytes capacity : Z) : result (option float) :=
  if capacity =? 0 then Ok None
  else
    p <- float_of_int payload_bytes ;;
    c <- float_of_int capacity ;;
    Ok (Some (p / c)%float).

Section Sweep.

(** The three scikit-image metrics, applied to [np.array(image)] and
    [np.array(encoded)] with [data_range=255]; each may raise. *)
Variable metric_psnr metric_mse metric_ssim : Image -> Image -> result float.

(** One turn of [for bits in bits_options], appending to [results]. *)
Definition benchmark_cell (image : ref) (message_text password : list Z)
    (payload_bytes : Z) (method : string) (bits : Z)
    (results : list BenchmarkRow) : M (list BenchmarkRow) :=
  im <~ deref image ;;
  capacity <~ lift (Stego.max_message_bytes (size im) bits) ;;
  if capacity <? payload_bytes then
    retM (results ++ [mkRow method bits false false None None None capacity
                            None (Some (Text does_not_fit_message))])
  else
    try_except
      (encoded <~ Stego.encode_text_into_image image message_text password
                                                bits method ;;
       decoded <~ Stego.decode_text_from_image encoded password bits method ;;
       arr_o <~ deref image ;;
       arr_e <~ deref encoded ;;
       p <~ lift (metric_psnr arr_o arr_e) ;;
       m <~ lift (metric_mse arr_o arr_e) ;;
       s <~ lift (metric_ssim arr_o arr_e) ;;
       u <~ lift (usage_of payload_bytes capacity) ;;
       retM (results ++ [mkRow method bits true
                               (bool_decide (decoded = message_text))
                               (Some p) (Some m) (Some s) capacity u None]))
      (fun exc =>
         u <~ lift (usage_of payload_bytes capacity) ;;
         retM (results ++ [mkRow method bits true false None None None
                                 capacity u (Some (StrOf exc))])).

(** [for bits in bits_options] *)
Fixpoint benchmark_bits (image : ref) (message_text password : list Z)
    (payload_bytes : Z) (method : string) (bits_options : list Z)
    (results : list BenchmarkRow) : M (list BenchmarkRow) :=
  match bits_options with
  | [] => retM results
  | bits :: rest =>
      results' <~ benchmark_cell image message_text password payload_bytes
                                 method bits results ;;
      benchmark_bits image message_text password payload_bytes method rest
                     results'
  end.

(** [for method in methods] *)
Fixpoint benchmark_methods (image : ref) (message_text password : list Z)
    (payload_bytes : Z) (methods : list string) (bits_options : list Z)
    (results : list BenchmarkRow) : M (list BenchmarkRow) :=
  match methods with
  | [] => retM results
  | method :: rest =>
      results' <~ benchmark_bits image message_text password payload_bytes
                                 method bits_options results ;;
      benchmark_methods image message_text password payload_bytes rest
                        bits_options results'
  end.

Definition run_mode_benchmark (original_image : ref)
    (message_text password : list Z) (bits_options : list Z)
    (methods : list string) : M (list BenchmarkRow) :=
  im <~ deref original_image ;;
  image <~ alloc im ;;   (* original_image.convert("RGB") *)
  encoded_text <~ lift (str_encode_utf8 message_text) ;;
  let payload_bytes := Z.of_nat (length encoded_text) in
  benchmark_methods image message_text password payload_bytes methods
                    bits_options [].

End Sweep.

(** *** The attack suite *)

Record AttackRow : Type := mkAttackRow {
  row_id : string;
  row_name : string;
  success : bool;
  row_error : option error_text;
  preview_text : list Z
}.

(** ["нечитаемый текст"], as code points *)
Definition UNREADABLE : list Z :=
  [0x43D; 0x435; 0x447; 0x438; 0x442; 0x430; 0x435; 0x43C; 0x44B; 0x439;
   0x20; 0x442; 0x435; 0x43A; 0x441; 0x442].

(** [s[:limit]], a negative limit counting from the end *)
Definition slice_to (s : list Z) (limit : Z) : list Z :=
  if limit <? 0 then take (Z.to_nat (Z.of_nat (length s) + limit)) s
  else take (Z.to_nat limit) s.

Section Attacks.

(** [str.isprintable] and [str.isalnum] of one character, which the Unicode
    database decides. *)
Variable isprintable isalnum : Z -> bool.

(** The degrading transforms, which Pillow and NumPy compute: each takes
    the image it is given and returns a new one, or raises. *)
Variable _jpeg_roundtrip : Image -> Z -> result Image.
Variable _resize_restore : Image -> float -> result Image.
Variable _add_noise : Image -> float -> Z -> Z -> result Image.
Variable gaussian_blur : Image -> float -> result Image.

(** [letters / max(1, len(cleaned))] divides two lengths: below [2^53]
    both are exact as floats and the quotient is their float division. *)
Definition _safe_preview_text (text : list Z) (limit : Z)
  : result (list Z) :=
  match text with
  | [] => Ok []
  | _ =>
      let cleaned :=
        filter (fun ch => isprintable ch = true /\ ch ∉ [0x0D; 0x0A; 0x09])
               text in
      let cleaned := filter (fun ch => ch <> 0xFFFD) cleaned in
      match cleaned with
      | [] => Ok UNREADABLE
      | _ =>
          let letters :=
            Z.of_nat (length (filter (fun ch => isalnum ch = true) cleaned)) in
          l <- float_of_int letters ;;
          n <- float_of_int (Z.max 1 (Z.of_nat (length cleaned))) ;;
          let ratio := (l / n)%float in
          if (ratio <? 0.35)%float then Ok UNREADABLE
          else Ok (slice_to cleaned limit)
      end
  end.

(** [lambda img: img.copy()] *)
Definition baseline (img : ref) : M ref :=
  im <~ deref img ;;
  alloc im.

(** A transform of the library applied to the object [img]. *)
Definition external (f : Image -> result Image) (img : ref) : M ref :=
  im <~ deref img ;;
  transformed <~ lift (f im) ;;
  alloc transformed.

Definition suite : list (string * string * (ref -> M ref)) :=
  [("baseline"%string, "Без атаки"%string, baseline);
   ("jpeg_q35"%string, "JPEG q=35 (с потерями)"%string,
    external (fun im => _jpeg_roundtrip im 35));
   ("resize_70"%string, "Изменение размера 70% + восстановление"%string,
    external (fun im => _resize_restore im 0.7));
   ("noise_12"%string, "Шум 12%"%string,
    external (fun im => _add_noise im 0.12 24 123));
   ("blur_1"%string, "Гауссово размытие r=1"%string,
    external (fun im => gaussian_blur im 1.0))].

(** One turn of [for attack_id, attack_name, transform in suite]. *)
Definition attack_row (encoded_image : ref) (expected_text password : list Z)
    (bits_per_channel : Z) (method : string)
    (attack : string * string * (ref -> M ref)) (results : list AttackRow)
  : M (list AttackRow) :=
  let '(attack_id, attack_name, transform) := attack in
  im <~ deref encoded_image ;;
  rgb <~ alloc im ;;   (* encoded_image.convert("RGB") *)
  transformed <~ transform rgb ;;
  outcome <~ try_except
    (extracted <~ Stego.decode_text_from_image transformed password
                                                bits_per_channel method ;;
     retM (bool_decide (extracted = expected_text), None, extracted))
    (fun exc => retM (false, Some (StrOf exc), [])) ;;
  let '(ok, error, extracted) := outcome in
  preview <~ lift (_safe_preview_text extracted 90) ;;
  retM (results ++ [mkAttackRow attack_id attack_name ok error preview]).

Fixpoint attack_rows (encoded_image : ref) (expected_text password : list Z)
    (bits_per_channel : Z) (method : string)
    (attacks : list (string * string * (ref -> M ref)))
    (results : list AttackRow) : M (list AttackRow) :=
  match attacks with
  | [] => retM results
  | attack :: rest =>
      results' <~ attack_row encoded_image expected_text password
                             bits_per_channel method attack results ;;
      attack_rows encoded_image expected_text password bits_per_channel method
                  rest results'
  end.

Definition run_attack_suite (encoded_image : ref)
    (expected_text password : list Z) (bits_per_channel : Z) (method : string)
  : M (list AttackRow) :=
  attack_rows encoded_image expected_text password bits_per_channel method
              suite [].

End Attacks.

End Analysis.

(** ** core/visual_analysis.py: the delta map *)

Module VisualAnalysis.

(** A two-dimensional array: its shape (rows, columns) and its items,
    indexed [[y, x]]. *)
Record Array2 : Type := mkArray2 {
  shape : Z * Z;
  item : Z -> Z -> Z
}.

(** [.astype(np.uint8)] and [.astype(np.int16)] of an integer *)
Definition uint8 (v : Z) : Z := v `mod` 256.
Definition int16 (v : Z) : Z := (v + 32768) `mod` 65536 - 32768.

(** NumPy's rule for one axis of two operands. *)
Definition broadcast_axis (a b : Z) : option Z :=
  if a =? b then Some a
  else if a =? 1 then Some b
  else if b =? 1 then Some a
  else None.

(** The message of NumPy's [ValueError] for two operands of shapes
    [(h1, w1, 3)] and [(h2, w2, 3)], the first operand first. *)
Definition broadcast_message (h1 w1 h2 w2 : Z) : string :=
  "operands could not be broadcast together with shapes ("
    +:+ str_of_int h1 +:+ "," +:+ str_of_int w1 +:+ ",3) ("
    +:+ str_of_int h2 +:+ "," +:+ str_of_int w2 +:+ ",3) ".

(** The index an operand is read at along an axis of length [n]. *)
Definition along (n i : Z) : Z := if n =? 1 then 0 else i.

(** [_rgb_array(image)[y, x, c]]: the copy [convert] makes is a new
    object, the array holds its channels as [uint8]. *)
Definition _rgb_array (image : ref) : M Image :=
  im <~ deref image ;;
  _ <~ alloc im ;;
  retM (mkImage (size im)
          (fun x y => let '(r, g, b) := pixels im x y in
                      (uint8 r, uint8 g, uint8 b))).

(** [np.abs(mod - orig).max(axis=2)] at one position, on [int16]. *)
Definition max_abs_delta (o m : pixel) : Z :=
  let '(r0, g0, b0) := o in
  let '(r1, g1, b1) := m in
  let d c0 c1 := int16 (Z.abs (int16 (int16 c1 - int16 c0))) in
  Z.max (Z.max (d r0 r1) (d g0 g1)) (d b0 b1).

Definition compute_delta_map (original modified : ref) (threshold : Z)
  : M Array2 :=
  orig <~ _rgb_array original ;;
  mod_ <~ _rgb_array modified ;;
  let '(w1, h1) := size orig in
  let '(w2, h2) := size mod_ in
  match broadcast_axis h1 h2, broadcast_axis w1 w2 with
  | Some h, Some w =>
      let delta y x :=
        uint8 (max_abs_delta (pixels orig (along w1 x) (along h1 y))
                             (pixels mod_ (along w2 x) (along h2 y))) in
      let thr := Z.max 0 (Z.min threshold 255) in
      if 0 <? thr
      then retM (mkArray2 (h, w)
                   (fun y x => uint8 (if thr <=? delta y x then delta y x
                                      else 0)))
      else retM (mkArray2 (h, w) delta)
  | _, _ =>
      (* [mod - orig]: the modified image is the first operand *)
      raiseM (ValueError (broadcast_message h2 w2 h1 w1))
  end.

End VisualAnalysis.

(** ** core/proof_pack.py: CSV fields *)

Module ProofPack.

(** [value.replace('"', 2 * '"')] *)
Definition double_quotes (value : list Z) : list Z :=
  ch ← value; if ch =? 0x22 then [0x22; 0x22] else [ch].

Definition _csv_escape (value : list Z) : list Z :=
  if existsb (fun ch => bool_decide (ch ∈ value)) [0x2C; 0x22; 0x0A; 0x0D]
  then [0x22] ++ double_quotes value ++ [0x22]
  else value.

End ProofPack.

(** ** Definitions that follow the specification's words *)

(** [capacityBytes(w,h,bits) = max(0, floor(w*h*3*bits/8) - 4)] *)
Definition capacityBytes (w h bits : Z) : Z :=
  Z.max 0 ((w * h * 3 * bits) `div` 8 - 4).

(** The number of carrier bits of a [w]x[h] image. *)
Definition carrier_bits (w h bits : Z) : Z := w * h * 3 * bits.

(** The carrier address number [s] of a pixel, as a pair of channel and
    bit: sequential has the bit innermost and the channel outer,
    interleaved the channel innermost and the bit outer. *)
Definition carrier_slot (bits : Z) (method : string) (s : Z) : Z * Z :=
  if bool_decide (method = "interleaved"%string)
  then (s `mod` 3, s `div` 3)
  else (s `div` bits, s `mod` bits).

(** The carrier bit at position [k] of an image: the pixels are taken
    row by row, each with its [3 * bits] carrier addresses in order. *)
Definition carrier_bit (im : Image) (bits : Z) (method : string) (k : Z) : Z :=
  let p := k `div` (3 * bits) in
  let '(c, b) := carrier_slot bits method (k `mod` (3 * bits)) in
  Z.b2z (Z.testbit
           (Stego.channel_of (pixels im (p `mod` width im) (p `div` width im)) c)
           b).

(** The number a list of bits spells, most significant bit first. *)
Fixpoint big_endian (bits : list Z) : Z :=
  match bits with
  | [] => 0
  | b :: rest => b * 2 ^ Z.of_nat (length rest) + big_endian rest
  end.

(** The quantities of the risk rule: the usage ratio clamped to [0, 1],
    the growth of the LSB imbalance and the relative shift of chi-square. *)
Definition clamp01 (usage_ratio : float) : float :=
  py_max 0 (py_min 1 usage_ratio).

Definition imbalance (zero one : float) : float :=
  (abs (zero - one) / py_max 1 (zero + one))%float.

Definition delta_imbalance (z0 o0 z1 o1 : float) : float :=
  py_max 0 (imbalance z1 o1 - imbalance z0 o0)%float.

Definition chi_shift (chi2_original chi2_embedded : float) : float :=
  (abs (chi2_embedded - chi2_original) / py_max (abs chi2_original) 1e-9)%float.

(** Rule 1 and rule 2 of the decision, on the clamped ratio. *)
Definition rule_high (u d s : float) : bool :=
  py_ge u 0.40 && (py_ge d 0.02 || py_ge s 0.20).

Definition rule_medium (u d s : float) (suspicious : bool) : bool :=
  py_ge u 0.18
  || (py_ge u 0.08 && (py_ge d 0.01 || py_ge s 0.08))
  || (py_ge u 0.12 && suspicious).

(** ** Definitions used to state and prove the properties *)

Definition is_bit (b : Z) : Prop := b = 0 \/ b = 1.

(** A byte string proper: every element in [0, 256). *)
Definition is_bytes (data : list Z) : Prop := Forall (fun b => 0 <= b < 256) data.

(** What one carrier slot is set to for a payload bit. *)
Definition write_bit (v bit_idx bit : Z) : Z :=
  if negb (bit =? 0) then Z.lor v (Z.shiftl 1 bit_idx)
  else Z.land v (Z.lnot (Z.shiftl 1 bit_idx)).

(** The carrier bits of one pixel, read off a list of channels and off a
    pixel. *)
Definition read_channels (order : list (Z * Z)) (channels : list Z) : list Z :=
  '(channel_idx, bit_idx) ← order;
  [Z.land (Z.shiftr (channels !!! Z.to_nat channel_idx) bit_idx) 1].

Definition read_pixel (order : list (Z * Z)) (p : pixel) : list Z :=
  '(channel_idx, bit_idx) ← order;
  [Z.land (Z.shiftr (Stego.channel_of p channel_idx) bit_idx) 1].

(** The pixel coordinates in the order the loops visit them. *)
Definition coords (w : Z) (ys : list Z) : list (Z * Z) :=
  y ← ys; x ← range w; [(x, y)].

(** The two nested loops of the embedding as one loop over the coordinates,
    with the same early return. *)
Fixpoint embed_flat (bit_stream : list Z) (carrier_order : list (Z * Z))
    (pixels_in : Z -> Z -> pixel) (cs : list (Z * Z))
    (pixels_out : Z -> Z -> pixel) (idx : nat) : Z -> Z -> pixel :=
  match cs with
  | [] => pixels_out
  | (x, y) :: cs' =>
      let channels := Stego.list_of_pixel (pixels_in x y) in
      let '(channels', idx') :=
        Stego.embed_in_channels bit_stream carrier_order channels idx in
      let pixels_out' :=
        Stego.set_pixel pixels_out x y (Stego.pixel_of_list channels') in
      if (length bit_stream <=? idx')%nat then pixels_out'
      else embed_flat bit_stream carrier_order pixels_in cs' pixels_out' idx'
  end.

(** The pixel an embedding leaves where [p] was, when the pixel's first
    carrier slot takes bit number [idx] of the stream. *)
Definition embedded_pixel (bit_stream : list Z) (carrier_order : list (Z * Z))
    (p : pixel) (idx : nat) : pixel :=
  Stego.pixel_of_list
    (fst (Stego.embed_in_channels bit_stream carrier_order
            (Stego.list_of_pixel p) idx)).

(** A heap that has only grown: every image object that existed is as it
    was. *)
Definition extends (h h' : heap) : Prop :=
  (next_ref h <= next_ref h')%nat
  /\ forall r, (r < next_ref h)%nat -> cell h' r = cell h r.


(** What extraction returns for an image, whichever object holds it. *)
Definition decode_text_of_image (im : Image) (password : list Z) (bits : Z)
    (method : string) : result (list Z) :=
  fst (Stego.decode_text_from_image 0%nat password bits method
         (mkHeap 1%nat (fun _ => im))).

(** What the row of an attack says, for the image its transform returned;
    [preview_of] is the preview function. *)
Definition attack_outcome (preview_of : list Z -> result (list Z))
    (expected_text password : list Z) (bits : Z) (method : string)
    (attack : string * string * Image) (row : Analysis.AttackRow) : Prop :=
  let '(attack_id, attack_name, transformed) := attack in
  Analysis.row_id row = attack_id
  /\ Analysis.row_name row = attack_name
  /\ match decode_text_of_image transformed password bits method with
     | Ok extracted =>
         Analysis.success row = bool_decide (extracted = expected_text)
         /\ Analysis.row_error row = None
         /\ preview_of extracted = Ok (Analysis.preview_text row)
     | Raise exc =>
         Analysis.success row = false
         /\ Analysis.row_error row = Some (Analysis.StrOf exc)
         /\ Analysis.preview_text row = []
     end.

(** * Properties *)

Import Stego.

(** Membership in a list written out. *)
Ltac in_list :=
  repeat first [apply list_elem_of_here | apply list_elem_of_further].

(** ** Lists and ranges *)

Lemma bind_nil_r {A B} (l : list A) : (l ≫= fun _ => @nil B) = [].
Proof. induction l as [| a l IH]; [done |]. cbn. by rewrite IH. Qed.

Lemma range_nonpos n : n <= 0 -> range n = [].
Proof.
  intros Hn. unfold range, seqZ.
  replace (Z.to_nat n) with O by lia. reflexivity.
Qed.

Lemma length_bind_const {A B} (f : A -> list B) (l : list A) n :
  (forall a, a ∈ l -> length (f a) = n) ->
  length (l ≫= f) = (length l * n)%nat.
Proof.
  induction l as [| a l IH]; intros Hf; [done |].
  cbn. rewrite length_app, IH, Hf.
  - lia.
  - in_list.
  - intros a' Ha'. apply Hf, elem_of_cons; by right.
Qed.

Lemma Forall_bind_elem {A B} (P : B -> Prop) (f : A -> list B) (l : list A) :
  (forall a, a ∈ l -> Forall P (f a)) -> Forall P (l ≫= f).
Proof.
  induction l as [| a l IH]; intros Hf; [constructor |].
  cbn. apply Forall_app. split.
  - apply Hf, elem_of_cons; by left.
  - apply IH. intros a' Ha'. apply Hf, elem_of_cons; by right.
Qed.

Lemma length_range n : length (range n) = Z.to_nat n.
Proof. unfold range. apply length_seqZ. Qed.

(** ** Carrier addressing and capacity *)

Lemma valid_bits_cases bits :
  bits ∈ [1; 2; 3] -> bits = 1 \/ bits = 2 \/ bits = 3.
Proof.
  intros H. repeat (apply elem_of_cons in H as [H | H]; [auto |]).
  by apply elem_of_nil in H.
Qed.

Lemma validate_ok bits method :
  bits ∈ [1; 2; 3] -> method ∈ SUPPORTED_METHODS ->
  validate_bits_and_method bits method = Ok tt.
Proof.
  intros Hb Hm. unfold validate_bits_and_method.
  rewrite !bool_decide_eq_true_2 by assumption. reflexivity.
Qed.

Lemma validate_bad_bits bits method :
  bits ∉ [1; 2; 3] ->
  validate_bits_and_method bits method = Raise (ValueError bad_bits_message).
Proof.
  intros Hb. unfold validate_bits_and_method.
  by rewrite bool_decide_eq_false_2.
Qed.

Lemma sequential_supported : "sequential"%string ∈ SUPPORTED_METHODS.
Proof. in_list. Qed.

Lemma supported_cases method :
  method ∈ SUPPORTED_METHODS ->
  method = "sequential"%string \/ method = "interleaved"%string.
Proof.
  intros H. repeat (apply elem_of_cons in H as [H | H]; [auto |]).
  by apply elem_of_nil in H.
Qed.

Lemma max_message_bytes_ok w h bits :
  bits ∈ [1; 2; 3] ->
  max_message_bytes (w, h) bits = Ok (capacityBytes w h bits).
Proof.
  intros Hb. unfold max_message_bytes.
  rewrite validate_ok by auto using sequential_supported. reflexivity.
Qed.

Lemma capacityBytes_mono w h bits w' h' bits' :
  0 <= w <= w' -> 0 <= h <= h' -> 0 <= bits <= bits' ->
  capacityBytes w h bits <= capacityBytes w' h' bits'.
Proof.
  intros Hw Hh Hb. unfold capacityBytes.
  assert (w * h <= w' * h') as Hwh by (apply Z.mul_le_mono_nonneg; lia).
  assert (w * h * 3 * bits <= w' * h' * 3 * bits') as Hle
    by (apply Z.mul_le_mono_nonneg; lia).
  pose proof (Z.div_le_mono _ _ 8 ltac:(lia) Hle). lia.
Qed.

(** C2.  For non-negative sizes and a bit depth of 1, 2 or 3,
    [max_message_bytes] returns [max(0, floor(w*h*3*bits/8) - 4)]; the value
    is never negative, and it does not decrease when the width, the height
    or the bit depth grows. *)
Theorem max_message_bytes_spec (w h bits : Z) :
  0 <= w -> 0 <= h -> bits ∈ [1; 2; 3] ->
  max_message_bytes (w, h) bits = Ok (Z.max 0 ((w * h * 3 * bits) `div` 8 - 4))
  /\ 0 <= capacityBytes w h bits
  /\ (forall w', w <= w' -> forall c c',
        max_message_bytes (w, h) bits = Ok c ->
        max_message_bytes (w', h) bits = Ok c' -> c <= c')
  /\ (forall h', h <= h' -> forall c c',
        max_message_bytes (w, h) bits = Ok c ->
        max_message_bytes (w, h') bits = Ok c' -> c <= c')
  /\ (forall bits', bits' ∈ [1; 2; 3] -> bits <= bits' -> forall c c',
        max_message_bytes (w, h) bits = Ok c ->
        max_message_bytes (w, h) bits' = Ok c' -> c <= c').
Proof.
  intros Hw Hh Hb.
  assert (0 <= bits) as Hb0 by (destruct (valid_bits_cases _ Hb) as [|[|]]; lia).
  split; [exact (max_message_bytes_ok w h bits Hb) |].
  split; [unfold capacityBytes; lia |].
  split; [| split].
  - intros w' Hw' c c'. rewrite !max_message_bytes_ok by done.
    intros [= <-] [= <-]. apply capacityBytes_mono; lia.
  - intros h' Hh' c c'. rewrite !max_message_bytes_ok by done.
    intros [= <-] [= <-]. apply capacityBytes_mono; lia.
  - intros bits' Hb' Hle c c'. rewrite !max_message_bytes_ok by done.
    intros [= <-] [= <-]. apply capacityBytes_mono; lia.
Qed.

Lemma max_message_bytes_spec_witness :
  max_message_bytes (128, 128) 1 = Ok 6140
  /\ max_message_bytes (128, 128) 1
     = Ok (Z.max 0 ((128 * 128 * 3 * 1) `div` 8 - 4)).
Proof.
  split; [reflexivity |].
  apply (max_message_bytes_spec 128 128 1); [lia | lia |].
  in_list.
Defined.

(** C4.  For a bit depth of 1, 2 or 3 both carrier orders have [3 * bits]
    entries, list every pair of a channel in [0, 3) and a bit index in
    [0, bits) exactly once, so that one is a permutation of the other, and
    enumerate the pairs in the documented nesting: in the sequential order
    the pair [(c, b)] stands at position [c * bits + b] (bit index
    innermost), in the interleaved order at position [b * 3 + c] (channel
    innermost). *)
Theorem carrier_order_spec (bits : Z) :
  bits ∈ [1; 2; 3] ->
  exists sequential interleaved : list (Z * Z),
    get_carrier_order bits "sequential" = Ok sequential
    /\ get_carrier_order bits "interleaved" = Ok interleaved
    /\ Z.of_nat (length sequential) = 3 * bits
    /\ Z.of_nat (length interleaved) = 3 * bits
    /\ NoDup sequential /\ NoDup interleaved
    /\ sequential ≡ₚ interleaved
    /\ (forall c b, (c, b) ∈ sequential <-> 0 <= c < 3 /\ 0 <= b < bits)
    /\ (forall c b, (c, b) ∈ interleaved <-> 0 <= c < 3 /\ 0 <= b < bits)
    /\ (forall c b, 0 <= c < 3 -> 0 <= b < bits ->
          sequential !! Z.to_nat (c * bits + b) = Some (c, b))
    /\ (forall c b, 0 <= c < 3 -> 0 <= b < bits ->
          interleaved !! Z.to_nat (b * 3 + c) = Some (c, b)).
Proof.
  intros Hb.
  enough (exists sequential interleaved : list (Z * Z),
    get_carrier_order bits "sequential" = Ok sequential
    /\ get_carrier_order bits "interleaved" = Ok interleaved
    /\ Z.of_nat (length sequential) = 3 * bits
    /\ Z.of_nat (length interleaved) = 3 * bits
    /\ NoDup sequential /\ NoDup interleaved
    /\ (forall c b, (c, b) ∈ sequential <-> 0 <= c < 3 /\ 0 <= b < bits)
    /\ (forall c b, (c, b) ∈ interleaved <-> 0 <= c < 3 /\ 0 <= b < bits)
    /\ (forall c b, 0 <= c < 3 -> 0 <= b < bits ->
          sequential !! Z.to_nat (c * bits + b) = Some (c, b))
    /\ (forall c b, 0 <= c < 3 -> 0 <= b < bits ->
          interleaved !! Z.to_nat (b * 3 + c) = Some (c, b)))
    as (s & i & Hs & Hi & Hls & Hli & Hns & Hni & Hes & Hei & Hps & Hpi).
  { exists s, i. repeat (split; [assumption |]).
    split; [| auto].
    apply NoDup_Permutation; [assumption | assumption |].
    intros [c b]. rewrite Hes, Hei. tauto. }
  destruct (valid_bits_cases _ Hb) as [-> | [-> | ->]];
    (match goal with
     | |- exists s i, ?f ?n ?ms = _ /\ ?f ?n ?mi = _ /\ _ =>
         let s := eval vm_compute in (f n ms) in
         let i := eval vm_compute in (f n mi) in
         match s with Ok ?ls =>
           match i with Ok ?li => exists ls, li end end
     end;
     split; [reflexivity |]; split; [reflexivity |];
     split; [reflexivity |]; split; [reflexivity |];
     split; [by apply (bool_decide_unpack _) |];
     split; [by apply (bool_decide_unpack _) |];
     split; [| split; [| split]]).
  all: intros c b.
  all: try (split;
    [ rewrite !elem_of_cons, elem_of_nil; intros H;
      repeat (destruct H as [H | H]; [injection H as -> ->; lia |]); done
    | intros [Hc Hbb];
      assert (c = 0 \/ c = 1 \/ c = 2) as [-> | [-> | ->]] by lia;
      (assert (b = 0 \/ b = 1 \/ b = 2) as [-> | [-> | ->]] by lia);
      try lia; rewrite !elem_of_cons; tauto ]).
  all: intros Hc Hbb;
    assert (c = 0 \/ c = 1 \/ c = 2) as [-> | [-> | ->]] by lia;
    (assert (b = 0 \/ b = 1 \/ b = 2) as [-> | [-> | ->]] by lia);
    try lia; reflexivity.
Qed.

Lemma carrier_order_spec_witness :
  exists sequential interleaved : list (Z * Z),
    get_carrier_order 2 "sequential" = Ok sequential
    /\ get_carrier_order 2 "interleaved" = Ok interleaved
    /\ sequential = [(0, 0); (0, 1); (1, 0); (1, 1); (2, 0); (2, 1)]
    /\ interleaved = [(0, 0); (1, 0); (2, 0); (0, 1); (1, 1); (2, 1)]
    /\ sequential ≡ₚ interleaved.
Proof.
  destruct (carrier_order_spec 2) as (s & i & Hs & Hi & _ & _ & _ & _ & Hp & _).
  { in_list. }
  exists s, i. repeat split; try assumption.
  - vm_compute in Hs. congruence.
  - vm_compute in Hi. congruence.
Defined.

(** ** Risk classification *)

Lemma float_ltb_leb (a b : float) :
  (a <? b)%float = true -> (a <=? b)%float = true.
Proof.
  rewrite ltb_spec, leb_spec. unfold SFltb, SFleb.
  destruct (SFcompare (Prim2SF a) (Prim2SF b)) as [[]|]; congruence.
Qed.

Lemma clamp01_range (u : float) :
  (0 <=? clamp01 u)%float = true /\ (clamp01 u <=? 1)%float = true.
Proof.
  unfold clamp01, py_max, py_min.
  destruct (u <? 1)%float eqn:H1.
  - destruct (0 <? u)%float eqn:H0.
    + split; by apply float_ltb_leb.
    + split; reflexivity.
  - change (0 <? 1)%float with true. cbv iota. split; reflexivity.
Qed.

(** C5.  [evaluate_risk] clamps the usage ratio to [0, 1] and then takes
    the first rule that matches: HIGH exactly when the clamped ratio is at
    least 0.40 and the imbalance growth is at least 0.02 or the chi-square
    shift at least 0.20; otherwise MEDIUM exactly when the ratio is at least
    0.18, or at least 0.08 with an imbalance growth of at least 0.01 or a
    shift of at least 0.08, or at least 0.12 with suspicious embedded
    stats; otherwise LOW.  A ratio of 0.40 with an imbalance growth of 0.02
    is HIGH, a ratio of 0.39999 with the same stats is not. *)
Theorem evaluate_risk_spec (usage_ratio : float)
    (stats_orig stats_enc : gmap string float) :
  let u := clamp01 usage_ratio in
  let d := delta_imbalance (Risk.get stats_orig "zero_bits" 0)
                           (Risk.get stats_orig "one_bits" 0)
                           (Risk.get stats_enc "zero_bits" 0)
                           (Risk.get stats_enc "one_bits" 0) in
  let s := chi_shift (Risk.get stats_orig "chi2" 0)
                     (Risk.get stats_enc "chi2" 0) in
  let suspicious := py_truth (Risk.get stats_enc "suspicious" 0) in
  let level := fst (Risk.evaluate_risk usage_ratio stats_orig stats_enc) in
  ((0 <=? u)%float = true /\ (u <=? 1)%float = true)
  /\ (level = "HIGH"%string <-> rule_high u d s = true)
  /\ (level = "MEDIUM"%string <->
        rule_high u d s = false /\ rule_medium u d s suspicious = true)
  /\ (level = "LOW"%string <->
        rule_high u d s = false /\ rule_medium u d s suspicious = false)
  /\ (d = 0.02%float ->
        fst (Risk.evaluate_risk 0.40 stats_orig stats_enc) = "HIGH"%string
        /\ fst (Risk.evaluate_risk 0.39999 stats_orig stats_enc)
           <> "HIGH"%string).
Proof.
  intros u d s suspicious level.
  split; [apply clamp01_range |].
  assert (level = if rule_high u d s then "HIGH"%string
                  else if rule_medium u d s suspicious then "MEDIUM"%string
                  else "LOW"%string) as Hlevel.
  { subst level. unfold Risk.evaluate_risk.
    fold (clamp01 usage_ratio). fold u.
    change (py_max 0 (_ - _)%float) with d.
    change (abs _ / py_max (abs _) _)%float with s.
    fold suspicious. fold (rule_high u d s).
    fold (rule_medium u d s suspicious).
    destruct (rule_high u d s); [reflexivity |].
    destruct (rule_medium u d s suspicious); reflexivity. }
  split; [| split; [| split]].
  - rewrite Hlevel.
    destruct (rule_high u d s); [done |].
    destruct (rule_medium u d s suspicious); done.
  - rewrite Hlevel.
    destruct (rule_high u d s); [split; [done | intros []; done] |].
    destruct (rule_medium u d s suspicious); [done |].
    split; [done | intros []; done].
  - rewrite Hlevel.
    destruct (rule_high u d s); [split; [done | intros []; done] |].
    destruct (rule_medium u d s suspicious); [| done].
    split; [done | intros []; done].
  - intros Hd. unfold Risk.evaluate_risk.
    change (py_max 0 (_ - _)%float) with d.
    rewrite Hd. split.
    + reflexivity.
    + change (py_ge (py_max 0 (py_min 1 0.39999)) 0.40) with false.
      cbv beta iota zeta. rewrite andb_false_l.
      change (py_ge (py_max 0 (py_min 1 0.39999)) 0.18) with true.
      cbv beta iota zeta. rewrite orb_true_l. done.
Qed.

Lemma evaluate_risk_spec_witness :
  let stats_orig : gmap string float :=
    {[ "zero_bits"%string := 50%float; "one_bits"%string := 50%float ]} in
  let stats_enc : gmap string float :=
    {[ "zero_bits"%string := 51%float; "one_bits"%string := 49%float ]} in
  fst (Risk.evaluate_risk 0.40 stats_orig stats_enc) = "HIGH"%string
  /\ fst (Risk.evaluate_risk 0.39999 stats_orig stats_enc) <> "HIGH"%string.
Proof.
  intros stats_orig stats_enc.
  apply (evaluate_risk_spec 0.40 stats_orig stats_enc).
  vm_compute. reflexivity.
Defined.

(** ** Chi-square statistic *)

Lemma count_lsb_degenerate (im : Image) channel v :
  width im <= 0 \/ height im <= 0 -> Risk.count_lsb im channel v = 0.
Proof.
  intros [Hw | Hh]; unfold Risk.count_lsb.
  - rewrite (range_nonpos (width im)) by done. cbn. by rewrite bind_nil_r.
  - rewrite (range_nonpos (height im)) by done. reflexivity.
Qed.

Lemma count_channels_degenerate (im : Image) channels counts :
  width im <= 0 \/ height im <= 0 ->
  Risk.count_channels im channels counts = counts.
Proof.
  intros Hz. revert counts. unfold Risk.count_channels.
  induction channels as [| c channels IH]; intros [zeros ones]; [done |].
  cbn [fold_left]. rewrite IH, !count_lsb_degenerate by done.
  f_equal; lia.
Qed.

(** C9, on the code.  Without an image the statistic is neutral.  For an
    image without pixels it does not raise either, but the floor of 1.0
    under [expected] makes both terms of the sum 1: chi-square is 2, not
    0. *)
Theorem chi_square_lsb_test_degenerate (h : heap) (img : ref) :
  fst (Risk.chi_square_lsb_test None h) = Ok (Risk.mkRiskStats 0 0 0 false)
  /\ (width (cell h img) = 0 \/ height (cell h img) = 0 ->
      fst (Risk.chi_square_lsb_test (Some img) h)
      = Ok (Risk.mkRiskStats 2 0 0 false)).
Proof.
  split; [reflexivity |].
  intros Hz. unfold Risk.chi_square_lsb_test, bindM, deref, alloc.
  rewrite count_channels_degenerate by lia. reflexivity.
Qed.

Lemma chi_square_lsb_test_degenerate_witness :
  let empty := mkImage (0, 0) (fun _ _ => (0, 0, 0)) in
  let h := mkHeap 1%nat (fun _ => empty) in
  fst (Risk.chi_square_lsb_test (Some 0%nat) h)
  = Ok (Risk.mkRiskStats 2 0 0 false).
Proof.
  intros empty h.
  apply (chi_square_lsb_test_degenerate h 0%nat). left. reflexivity.
Defined.

(** ** Mode sweep *)

Section SweepFacts.

Variable metric_psnr metric_mse metric_ssim : Image -> Image -> result float.

Abbreviation run_mode_benchmark :=
  (Analysis.run_mode_benchmark metric_psnr metric_mse metric_ssim).
Abbreviation benchmark_cell :=
  (Analysis.benchmark_cell metric_psnr metric_mse metric_ssim).

Lemma benchmark_cell_bad_bits image message password payload_bytes method bits
    results h :
  bits ∉ [1; 2; 3] ->
  fst (benchmark_cell image message password payload_bytes method bits
                      results h)
  = Raise (ValueError bad_bits_message).
Proof.
  intros Hb. unfold Analysis.benchmark_cell, bindM, deref, lift.
  unfold max_message_bytes. rewrite validate_bad_bits by done. reflexivity.
Qed.

Lemma bindM_Ok {A B} (m : M A) (k : A -> M B) h b h' :
  bindM m k h = (Ok b, h') ->
  exists a h1, m h = (Ok a, h1) /\ k a h1 = (Ok b, h').
Proof.
  unfold bindM. destruct (m h) as [[a | e] h1]; [eauto | done].
Qed.

Ltac bindM_inv H :=
  repeat (let a := fresh "a" in
          let h1 := fresh "h" in
          let Hm := fresh "Hm" in
          apply bindM_Ok in H as (a & h1 & Hm & H)).

(** A cell that returns has appended exactly one row, tagged with the
    cell's method and bit depth; the row says "does not fit" exactly when
    the message is longer than the capacity. *)
Lemma benchmark_cell_appends image message password payload_bytes method bits
    results h rows h' :
  benchmark_cell image message password payload_bytes method bits results h
  = (Ok rows, h') ->
  exists row,
    rows = results ++ [row]
    /\ Analysis.method row = method /\ Analysis.bits row = bits
    /\ Stego.max_message_bytes (size (cell h image)) bits
       = Ok (Analysis.capacity row)
    /\ Analysis.fit row = negb (Analysis.capacity row <? payload_bytes).
Proof.
  unfold Analysis.benchmark_cell. intros Hcell.
  apply bindM_Ok in Hcell as (im & h1 & Him & Hcell).
  injection Him as <- <-.
  apply bindM_Ok in Hcell as (capacity & h1 & Hcap & Hcell).
  unfold lift in Hcap. injection Hcap as Hcap <-.
  destruct (capacity <? payload_bytes) eqn:Hfit.
  - injection Hcell as <- <-. eexists. split; [reflexivity |].
    cbn. by rewrite Hfit.
  - unfold try_except in Hcell.
    match type of Hcell with
    | context [match ?body with _ => _ end] =>
        destruct body as [[rows' | exc] h2] eqn:Hbody
    end.
    + injection Hcell as <- <-. bindM_inv Hbody.
      injection Hbody as <- <-. eexists. split; [reflexivity |].
      cbn. by rewrite Hfit.
    + bindM_inv Hcell. injection Hcell as <- <-.
      eexists. split; [reflexivity |]. cbn. by rewrite Hfit.
Qed.

Lemma benchmark_bits_appends image message password payload_bytes method
    bits_options results h rows h' :
  Analysis.benchmark_bits metric_psnr metric_mse metric_ssim image message
    password payload_bytes method bits_options results h = (Ok rows, h') ->
  exists new,
    rows = results ++ new
    /\ (fun row => (Analysis.method row, Analysis.bits row)) <$> new
       = (fun bits => (method, bits)) <$> bits_options.
Proof.
  revert results h. induction bits_options as [| bits rest IH];
    intros results h Hrun.
  - injection Hrun as <- <-. exists []. by rewrite app_nil_r.
  - cbn [Analysis.benchmark_bits] in Hrun.
    apply bindM_Ok in Hrun as (rows1 & h1 & Hcell & Hrun).
    apply benchmark_cell_appends in Hcell as (row & -> & Hm & Hb & _).
    apply IH in Hrun as (new & -> & Htags).
    exists (row :: new). split; [by rewrite <- app_assoc |].
    rewrite !fmap_cons, Htags, Hm, Hb. reflexivity.
Qed.

Lemma benchmark_methods_appends image message password payload_bytes methods
    bits_options results h rows h' :
  Analysis.benchmark_methods metric_psnr metric_mse metric_ssim image message
    password payload_bytes methods bits_options results h = (Ok rows, h') ->
  exists new,
    rows = results ++ new
    /\ (fun row => (Analysis.method row, Analysis.bits row)) <$> new
       = (method ← methods; bits ← bits_options; [(method, bits)]).
Proof.
  revert results h. induction methods as [| method rest IH];
    intros results h Hrun.
  - injection Hrun as <- <-. exists []. by rewrite app_nil_r.
  - cbn [Analysis.benchmark_methods] in Hrun.
    apply bindM_Ok in Hrun as (rows1 & h1 & Hbits & Hrun).
    apply benchmark_bits_appends in Hbits as (new1 & -> & Htags1).
    apply IH in Hrun as (new2 & -> & Htags2).
    exists (new1 ++ new2). split; [by rewrite <- app_assoc |].
    rewrite fmap_app, Htags1, Htags2, bind_cons. reflexivity.
Qed.

(** When the sweep returns, it returns one row per pair of the cross
    product, methods outermost, each tagged with its pair. *)
Lemma run_mode_benchmark_rows original_image message password bits_options
    methods h rows h' :
  run_mode_benchmark original_image message password bits_options methods h
  = (Ok rows, h') ->
  (fun row => (Analysis.method row, Analysis.bits row)) <$> rows
  = (method ← methods; bits ← bits_options; [(method, bits)])
  /\ length rows = (length methods * length bits_options)%nat.
Proof.
  unfold Analysis.run_mode_benchmark. intros Hrun. bindM_inv Hrun.
  apply benchmark_methods_appends in Hrun as (new & -> & Htags).
  rewrite app_nil_l. split; [exact Htags |].
  rewrite <- (length_fmap (fun row => (Analysis.method row, Analysis.bits row))),
    Htags.
  apply length_bind_const. intros method _.
  rewrite (length_bind_const _ _ 1%nat); [lia | done].
Qed.

(** C7, on the code.  The capacity of a cell is computed before the [try]
    block, so a bit depth outside 1, 2, 3 at the head of the options is not
    turned into a row: the [ValueError] of the validation leaves
    [run_mode_benchmark], and no row is returned at all. *)
Theorem run_mode_benchmark_raises_on_bad_bits (h : heap) (original_image : ref)
    (message_text password : list Z) (bits : Z) (bits_options : list Z)
    (method : string) (methods : list string) :
  bits ∉ [1; 2; 3] ->
  (exists bs, str_encode_utf8 message_text = Ok bs) ->
  fst (run_mode_benchmark original_image message_text password
                          (bits :: bits_options) (method :: methods) h)
  = Raise (ValueError bad_bits_message).
Proof.
  intros Hb [bs Hbs].
  unfold Analysis.run_mode_benchmark, bindM, deref, alloc, lift.
  rewrite Hbs. cbn [Analysis.benchmark_methods Analysis.benchmark_bits].
  unfold bindM at 1. unfold bindM at 1.
  match goal with
  | |- context [benchmark_cell ?i ?m ?p ?n ?me ?b ?r ?hh] =>
      pose proof (benchmark_cell_bad_bits i m p n me b r hh Hb) as Hc;
      destruct (benchmark_cell i m p n me b r hh) as [[rows | e] h']
  end; cbn in Hc; [discriminate |].
  cbn. congruence.
Qed.

End SweepFacts.

Lemma run_mode_benchmark_raises_on_bad_bits_witness :
  let metric : Image -> Image -> result float := fun _ _ => Ok 1%float in
  let im := mkImage (8, 8) (fun _ _ => (93, 127, 149)) in
  let h := mkHeap 1%nat (fun _ => im) in
  fst (Analysis.run_mode_benchmark metric metric metric 0%nat
         [0x74; 0x65; 0x73; 0x74] [] [4] ["sequential"%string] h)
  = Raise (ValueError bad_bits_message).
Proof.
  intros metric im h.
  apply (run_mode_benchmark_raises_on_bad_bits metric metric metric h 0%nat
           [0x74; 0x65; 0x73; 0x74] [] 4 [] "sequential" []).
  - rewrite !elem_of_cons, elem_of_nil. lia.
  - eexists. reflexivity.
Defined.

(** ** Codec: lists of bits *)

Lemma land_1_is_bit v : is_bit (Z.land v 1).
Proof.
  change 1 with (Z.ones 1). rewrite Z.land_ones by lia.
  change (2 ^ 1) with 2. unfold is_bit.
  pose proof (Z.mod_pos_bound v 2). lia.
Qed.

Lemma lor_shiftl_add a b k :
  0 <= k -> 0 <= b < 2 ^ k -> Z.lor (Z.shiftl a k) b = a * 2 ^ k + b.
Proof.
  intros Hk Hb.
  rewrite <- Z.lxor_lor, <- Z.add_nocarry_lxor, Z.shiftl_mul_pow2; try done.
  all: apply Z.bits_inj'; intros i Hi; rewrite Z.land_spec, Z.bits_0.
  all: destruct (decide (i < k)) as [Hlt | Hge].
  all: try (rewrite Z.shiftl_spec_low by lia; reflexivity).
  all: rewrite <- (Z.mod_small b (2 ^ k)) by lia.
  all: rewrite Z.mod_pow2_bits_high by lia; apply andb_false_r.
Qed.

Lemma bits_to_int_step value bit :
  is_bit bit -> Z.lor (Z.shiftl value 1) bit = 2 * value + bit.
Proof.
  intros Hb. rewrite lor_shiftl_add; unfold is_bit in Hb; lia.
Qed.

Lemma bits_to_int_acc_bound bits acc :
  Forall is_bit bits -> 0 <= acc ->
  acc * 2 ^ Z.of_nat (length bits)
  <= fold_left (fun value bit => Z.lor (Z.shiftl value 1) bit) bits acc
  < (acc + 1) * 2 ^ Z.of_nat (length bits).
Proof.
  intros Hbits. revert acc.
  induction Hbits as [| b bits Hb Hbits IH]; intros acc Hacc.
  - cbn. lia.
  - cbn [fold_left length]. rewrite bits_to_int_step by done.
    rewrite Nat2Z.inj_succ, Z.pow_succ_r by lia.
    specialize (IH (2 * acc + b)). unfold is_bit in Hb.
    pose proof (Z.pow_pos_nonneg 2 (Z.of_nat (length bits))). nia.
Qed.

Lemma bits_to_int_bound bits :
  Forall is_bit bits -> 0 <= _bits_to_int bits < 2 ^ Z.of_nat (length bits).
Proof.
  intros Hbits. unfold _bits_to_int.
  pose proof (bits_to_int_acc_bound bits 0 Hbits). lia.
Qed.

Lemma next_n_enough n (l : list Z) :
  (n <= length l)%nat -> next_n n l = (Some <$> take n l, drop n l).
Proof.
  revert l. induction n as [| n IH]; intros l Hn; [done |].
  destruct l as [| b l]; cbn in Hn; [lia |].
  cbn. rewrite IH by lia. reflexivity.
Qed.

Lemma next_n_short n (l : list Z) :
  (length l < n)%nat -> any_none (fst (next_n n l)) = true.
Proof.
  revert l. induction n as [| n IH]; intros l Hn; [lia |].
  destruct l as [| b l]; cbn.
  - by destruct (next_n n []).
  - cbn in Hn. specialize (IH l ltac:(lia)).
    destruct (next_n n l). exact IH.
Qed.

Lemma any_none_Some (l : list Z) : any_none (Some <$> l) = false.
Proof. induction l; [done |]. cbn. assumption. Qed.

Lemma the_bits_Some (l : list Z) : the_bits (Some <$> l) = l.
Proof. unfold the_bits. induction l; [done |]. cbn. by f_equal. Qed.

Lemma bits_to_bytes_length bits n :
  length bits = (8 * n)%nat -> length (_bits_to_bytes bits) = n.
Proof.
  revert bits. induction n as [| n IH]; intros bits Hlen.
  - destruct bits; [done | cbn in Hlen; lia].
  - do 8 (destruct bits as [| ? bits]; [cbn in Hlen; lia |]).
    cbn [_bits_to_bytes length]. rewrite IH; [done |].
    cbn in Hlen. lia.
Qed.

(** ** Codec: carrier order and carrier bits of an image *)

Lemma carrier_order_facts bits method :
  bits ∈ [1; 2; 3] -> method ∈ SUPPORTED_METHODS ->
  exists order,
    get_carrier_order bits method = Ok order
    /\ length order = Z.to_nat (3 * bits)
    /\ NoDup order
    /\ Forall (fun cb => 0 <= fst cb < 3 /\ 0 <= snd cb < bits) order.
Proof.
  intros Hb Hm.
  destruct (valid_bits_cases _ Hb) as [-> | [-> | ->]];
    destruct (supported_cases _ Hm) as [-> | ->];
    (eexists; split; [reflexivity |]; split; [reflexivity |]; split;
     [by apply (bool_decide_unpack _) |]);
    repeat (constructor; [cbn; lia |]); constructor.
Qed.

Lemma iter_bits_length (im : Image) bits method :
  bits ∈ [1; 2; 3] -> method ∈ SUPPORTED_METHODS ->
  0 <= width im -> 0 <= height im ->
  exists stream,
    _iter_bits_from_image im bits method = Ok stream
    /\ Z.of_nat (length stream) = carrier_bits (width im) (height im) bits
    /\ Forall is_bit stream.
Proof.
  intros Hb Hm Hw Hh.
  destruct (carrier_order_facts bits method Hb Hm) as (order & Ho & Hlen & _).
  unfold _iter_bits_from_image, width, height in *.
  destruct (size im) as [w h]. cbn [fst snd] in *.
  rewrite Ho. cbn [rbind]. eexists. split; [reflexivity |]. split.
  - rewrite (length_bind_const _ _ (Z.to_nat w * Z.to_nat (3 * bits))).
    + rewrite length_range. unfold carrier_bits.
      assert (0 <= bits) by (destruct (valid_bits_cases _ Hb) as [|[|]]; lia).
      nia.
    + intros y _. rewrite (length_bind_const _ _ (Z.to_nat (3 * bits))).
      * by rewrite length_range.
      * intros x _. rewrite (length_bind_const _ _ 1%nat).
        -- lia.
        -- by intros [c b] _.
  - apply Forall_bind_elem. intros y _. apply Forall_bind_elem. intros x _.
    apply Forall_bind_elem. intros [c b] _.
    constructor; [apply land_1_is_bit | constructor].
Qed.

(** ** Extraction *)

Lemma to_bytes4_big_ok n :
  0 <= n < 2 ^ 32 ->
  to_bytes4_big n
  = Ok [Z.land (Z.shiftr n 24) 255; Z.land (Z.shiftr n 16) 255;
        Z.land (Z.shiftr n 8) 255; Z.land n 255].
Proof.
  intros Hn. unfold to_bytes4_big.
  destruct (Z.ltb_spec n 0); [lia |].
  destruct (Z.leb_spec (2 ^ 32) n); [lia |]. reflexivity.
Qed.

(** What extraction returns, by the three cases of its checks. *)
Lemma decode_payload_from_image_cases (h : heap) (image : ref) bits method
    stream :
  bits ∈ [1; 2; 3] -> method ∈ SUPPORTED_METHODS ->
  _iter_bits_from_image (cell h image) bits method = Ok stream ->
  Forall is_bit stream ->
  let im := cell h image in
  let total := Z.of_nat (length stream) in
  let cap := capacityBytes (width im) (height im) bits in
  let declared := _bits_to_int (take 32 stream) in
  let run := decode_payload_from_image image bits method h in
  total = carrier_bits (width im) (height im) bits ->
  (total < 32 -> run = (Raise (ValueError no_header_message), h))
  /\ (32 <= total -> cap < declared ->
        run = (Raise (ValueError bad_length_message), h))
  /\ (32 <= total -> declared <= cap ->
        0 <= declared < 2 ^ 32
        /\ 8 * declared <= total - 32
        /\ exists header,
             to_bytes4_big declared = Ok header
             /\ run = (Ok (header ++ _bits_to_bytes
                             (take (Z.to_nat (declared * 8)) (drop 32 stream))),
                       h)).
Proof.
  intros Hb Hm Hstream Hbits im total cap declared run Htotal.
  assert (run =
    let '(header_bits, bits_iter) := next_n 32 stream in
    if any_none header_bits then (Raise (ValueError no_header_message), h)
    else
      let msg_len := _bits_to_int (the_bits header_bits) in
      if cap <? msg_len then (Raise (ValueError bad_length_message), h)
      else
        let '(msg_bits, bits_iter) :=
          next_n (Z.to_nat (msg_len * 8)) bits_iter in
        if any_none msg_bits then (Raise (ValueError incomplete_message), h)
        else
          match to_bytes4_big msg_len with
          | Ok header => (Ok (header ++ _bits_to_bytes (the_bits msg_bits)), h)
          | Raise e => (Raise e, h)
          end) as Hrun.
  { subst run cap im. unfold decode_payload_from_image, bindM, lift, deref.
    rewrite validate_ok by done. rewrite Hstream.
    destruct (next_n 32 stream) as [header_bits bits_iter].
    destruct (any_none header_bits); [reflexivity |].
    unfold width, height. destruct (size (cell h image)) as [w hh].
    rewrite max_message_bytes_ok by done. cbn [fst snd].
    destruct (_ <? _); [reflexivity |].
    destruct (next_n _ bits_iter) as [msg_bits bits_iter'].
    destruct (any_none msg_bits); [reflexivity |].
    destruct (to_bytes4_big _); reflexivity. }
  rewrite Hrun. clear Hrun.
  split; [| split].
  - intros Hshort.
    pose proof (next_n_short 32 stream ltac:(lia)) as Hnone.
    destruct (next_n 32 stream) as [header_bits bits_iter].
    cbn [fst] in Hnone. by rewrite Hnone.
  - intros Hlong Hbad.
    rewrite next_n_enough by lia.
    rewrite any_none_Some, the_bits_Some. fold declared. cbv zeta.
    destruct (Z.ltb_spec cap declared); [reflexivity | lia].
  - intros Hlong Hgood.
    assert (0 <= declared < 2 ^ 32) as Hrange.
    { pose proof (bits_to_int_bound (take 32 stream)
                    ltac:(by apply Forall_take)) as Hbound.
      rewrite length_take in Hbound.
      replace (32 `min` length stream)%nat with 32%nat in Hbound by lia.
      exact Hbound. }
    assert (8 * declared <= total - 32) as Hroom.
    { subst cap. unfold capacityBytes in Hgood. unfold carrier_bits in Htotal.
      rewrite <- Htotal in Hgood.
      pose proof (Z.mul_div_le total 8 ltac:(lia)). lia. }
    split; [exact Hrange |]. split; [exact Hroom |].
    rewrite next_n_enough by lia.
    rewrite any_none_Some, the_bits_Some. fold declared. cbv zeta.
    destruct (Z.ltb_spec cap declared); [lia |].
    rewrite next_n_enough by (rewrite length_drop; lia).
    rewrite any_none_Some, the_bits_Some.
    rewrite to_bytes4_big_ok by exact Hrange.
    eexists. split; reflexivity.
Qed.

(** ** Embedding: the capacity check *)

Lemma encode_payload_into_image_check (h : heap) (image : ref)
    (payload : list Z) bits method :
  bits ∈ [1; 2; 3] -> method ∈ SUPPORTED_METHODS ->
  let im := cell h image in
  let total := carrier_bits (width im) (height im) bits in
  let payload_bits := Z.of_nat (length payload) * 8 in
  (total < payload_bits ->
   encode_payload_into_image image payload bits method h
   = (Raise (ValueError (too_large_message payload_bits total)), h))
  /\ (payload_bits <= total ->
      exists order,
        get_carrier_order bits method = Ok order
        /\ encode_payload_into_image image payload bits method h
           = (Ok (next_ref h),
              mkHeap (S (next_ref h))
                (fun r =>
                   if Nat.eqb r (next_ref h)
                   then mkImage (size im)
                          (embed_rows (_bytes_to_bits payload) order
                             (pixels im) (width im) (range (height im))
                             (pixels im) 0)
                   else if Nat.eqb r (next_ref h) then im else cell h r))).
Proof.
  intros Hb Hm im total payload_bits.
  destruct (carrier_order_facts bits method Hb Hm) as (order & Ho & _).
  unfold encode_payload_into_image, bindM, lift, deref.
  rewrite validate_ok by done. fold im.
  unfold carrier_bits, width, height in total. subst total payload_bits.
  split.
  - intros Hlarge. destruct (_ <? _) eqn:Hcmp; [reflexivity |].
    apply Z.ltb_ge in Hcmp. lia.
  - intros Hfits. exists order. split; [exact Ho |].
    destruct (_ <? _) eqn:Hcmp; [apply Z.ltb_lt in Hcmp; lia |].
    unfold width, height. destruct (size im) as [w hh] eqn:Hsize.
    unfold alloc, store, retM. cbn [fst snd]. rewrite Ho. cbn. reflexivity.
Qed.

(** C3, with room for the header.  When the image has at least 32 carrier
    bits, a framed payload of [capacityBytes + 4] bytes (a message of
    exactly the capacity behind its 4-byte header) is embedded; and for
    every image a framed payload of [capacityBytes + 5] bytes is refused
    with the "too large" error, which names the requested
    [(capacityBytes + 5) * 8] bits and the [3 * w * h * bits] bits
    available. *)
Theorem encode_payload_capacity_boundary (h : heap) (image : ref)
    (payload : list Z) (bits : Z) (method : string) :
  bits ∈ [1; 2; 3] -> method ∈ SUPPORTED_METHODS ->
  let im := cell h image in
  let cap := capacityBytes (width im) (height im) bits in
  let total := carrier_bits (width im) (height im) bits in
  (32 <= total -> Z.of_nat (length payload) = cap + 4 ->
   exists out h',
     encode_payload_into_image image payload bits method h = (Ok out, h'))
  /\ (Z.of_nat (length payload) = cap + 5 ->
      fst (encode_payload_into_image image payload bits method h)
      = Raise (ValueError (too_large_message ((cap + 5) * 8) total))).
Proof.
  intros Hb Hm im cap total.
  destruct (encode_payload_into_image_check h image payload bits method Hb Hm)
    as (Hlarge & Hfits).
  fold im in Hlarge, Hfits. fold total in Hlarge, Hfits.
  assert (cap = Z.max 0 (total `div` 8 - 4)) as Hcap by reflexivity.
  pose proof (Z.mul_div_le total 8 ltac:(lia)).
  pose proof (Z.mod_pos_bound total 8 ltac:(lia)).
  pose proof (Z.div_mod total 8 ltac:(lia)).
  split.
  - intros H32 Hlen. destruct Hfits as (order & _ & Hrun); [lia |].
    rewrite Hrun. eauto.
  - intros Hlen. rewrite Hlarge by lia. cbn [fst]. by rewrite Hlen.
Qed.

Lemma encode_payload_capacity_boundary_witness :
  let im := mkImage (8, 8) (fun _ _ => (40, 80, 120)) in
  let h := mkHeap 1%nat (fun _ => im) in
  (exists out h',
     encode_payload_into_image 0%nat (repeat 0 24) 1 "sequential" h
     = (Ok out, h'))
  /\ fst (encode_payload_into_image 0%nat (repeat 0 25) 1 "sequential" h)
     = Raise (ValueError (too_large_message 200 192)).
Proof.
  intros im h.
  assert (1 ∈ [1; 2; 3]) as Hb by (apply elem_of_cons; by left).
  split.
  - apply (encode_payload_capacity_boundary h 0%nat (repeat 0 24) 1
             "sequential" Hb sequential_supported).
    + vm_compute. discriminate.
    + reflexivity.
  - apply (encode_payload_capacity_boundary h 0%nat (repeat 0 25) 1
             "sequential" Hb sequential_supported).
    reflexivity.
Defined.

(** The boundary of C3 on an image too small for the header: a 1x1 image
    has capacity 0, and the empty message, framed as four zero bytes, asks
    for 32 bits where 3 are available. *)
Lemma encode_at_capacity_fails_on_tiny_image :
  let im := mkImage (1, 1) (fun _ _ => (40, 80, 120)) in
  let h := mkHeap 1%nat (fun _ => im) in
  max_message_bytes (size im) 1 = Ok 0
  /\ prepare_payload [] [] = Ok [0; 0; 0; 0]
  /\ encode_payload_into_image 0%nat [0; 0; 0; 0] 1 "sequential" h
     = (Raise (ValueError (too_large_message 32 3)), h)
  /\ encode_text_into_image 0%nat [] [] 1 "sequential" h
     = (Raise (ValueError (too_large_message 32 3)), h).
Proof. repeat split. Qed.

(** ** Embedding: one carrier slot *)

Lemma read_bit_testbit v b :
  0 <= b -> Z.land (Z.shiftr v b) 1 = Z.b2z (Z.testbit v b).
Proof.
  intros Hb. change 1 with (Z.ones 1). rewrite Z.land_ones by lia.
  change (2 ^ 1) with 2. rewrite <- Z.bit0_mod, Z.shiftr_spec by lia.
  reflexivity.
Qed.

Lemma write_bit_testbit v b bit i :
  0 <= b -> 0 <= i ->
  Z.testbit (write_bit v b bit) i
  = if decide (i = b) then negb (bit =? 0) else Z.testbit v i.
Proof.
  intros Hb Hi. unfold write_bit. rewrite Z.shiftl_1_l.
  destruct (bit =? 0); cbn [negb].
  - rewrite Z.land_spec, Z.lnot_spec, Z.pow2_bits_eqb by lia.
    case_decide as Hd.
    + subst i. rewrite Z.eqb_refl. apply andb_false_r.
    + destruct (Z.eqb_spec b i); [lia |]. apply andb_true_r.
  - rewrite Z.lor_spec, Z.pow2_bits_eqb by lia.
    case_decide as Hd.
    + subst i. rewrite Z.eqb_refl. apply orb_true_r.
    + destruct (Z.eqb_spec b i); [lia |]. apply orb_false_r.
Qed.

Lemma write_bit_read v b bit :
  0 <= b -> is_bit bit -> Z.land (Z.shiftr (write_bit v b bit) b) 1 = bit.
Proof.
  intros Hb Hbit. rewrite read_bit_testbit, write_bit_testbit by lia.
  rewrite decide_True by done. by destruct Hbit as [-> | ->].
Qed.

Lemma write_bit_high v b bit k :
  0 <= b < k -> Z.shiftr (write_bit v b bit) k = Z.shiftr v k.
Proof.
  intros Hb. apply Z.bits_inj'. intros i Hi.
  rewrite !Z.shiftr_spec, write_bit_testbit by lia.
  rewrite decide_False by lia. reflexivity.
Qed.

(** ** Embedding: one pixel *)

Lemma embed_in_channels_step bit_stream channel_idx bit_idx rest channels idx :
  embed_in_channels bit_stream ((channel_idx, bit_idx) :: rest) channels idx
  = if (length bit_stream <=? idx)%nat then (channels, idx)
    else embed_in_channels bit_stream rest
           (<[Z.to_nat channel_idx :=
                write_bit (channels !!! Z.to_nat channel_idx) bit_idx
                          (bit_stream !!! idx)]> channels)
           (S idx).
Proof.
  cbn [embed_in_channels]. unfold write_bit.
  destruct (length bit_stream <=? idx)%nat; [reflexivity |].
  destruct (negb (bit_stream !!! idx =? 0)); reflexivity.
Qed.

Lemma embed_in_channels_done bit_stream order channels idx :
  (length bit_stream <= idx)%nat ->
  embed_in_channels bit_stream order channels idx = (channels, idx).
Proof.
  intros Hdone. destruct order as [| [c b] rest]; [done |].
  rewrite embed_in_channels_step.
  destruct (Nat.leb_spec (length bit_stream) idx); [done | lia].
Qed.

Lemma embed_in_channels_idx bit_stream order channels idx :
  snd (embed_in_channels bit_stream order channels idx)
  = ((idx + length order) `min` (idx `max` length bit_stream))%nat.
Proof.
  revert channels idx.
  induction order as [| [c b] rest IH]; intros channels idx.
  - cbn. lia.
  - rewrite embed_in_channels_step.
    destruct (Nat.leb_spec (length bit_stream) idx) as [Hle | Hgt].
    + cbn. lia.
    + rewrite IH. cbn [length]. lia.
Qed.

(** A carrier slot that the rest of the order does not name keeps its
    bit. *)
Lemma embed_in_channels_other bit_stream order channels idx c' b' :
  Forall (fun cb => 0 <= fst cb /\ 0 <= snd cb) order ->
  (Z.of_nat c', b') ∉ order -> 0 <= b' ->
  Z.testbit (fst (embed_in_channels bit_stream order channels idx) !!! c') b'
  = Z.testbit (channels !!! c') b'.
Proof.
  intros Horder. revert channels idx.
  induction Horder as [| [c b] rest [Hc Hb0] Hrest IH];
    intros channels idx Hnotin Hb'; [done |].
  cbn [fst snd] in Hc, Hb0.
  rewrite embed_in_channels_step.
  destruct (length bit_stream <=? idx)%nat; [done |].
  apply not_elem_of_cons in Hnotin as [Hne Hnotin].
  rewrite IH by done.
  rewrite list_lookup_total_insert. case_decide as Hd; [| done].
  destruct Hd as [<- _]. rewrite write_bit_testbit by done.
  rewrite decide_False; [done |]. intros ->. apply Hne. f_equal. lia.
Qed.

Lemma read_channels_ext order channels1 channels2 :
  Forall (fun cb => 0 <= snd cb
            /\ Z.testbit (channels1 !!! Z.to_nat (fst cb)) (snd cb)
               = Z.testbit (channels2 !!! Z.to_nat (fst cb)) (snd cb)) order ->
  read_channels order channels1 = read_channels order channels2.
Proof.
  unfold read_channels.
  induction 1 as [| [c b] rest [Hb Heq] _ IH]; [done |].
  cbn [fst snd] in Hb, Heq.
  rewrite !bind_cons, IH, !read_bit_testbit, Heq by done. reflexivity.
Qed.

(** Reading a pixel back: the bits written come first, the old bits of the
    slots not reached follow. *)
Lemma read_embed_in_channels bit_stream order channels idx :
  NoDup order ->
  Forall (fun cb => 0 <= fst cb < 3 /\ 0 <= snd cb) order ->
  Forall is_bit bit_stream ->
  length channels = 3%nat ->
  let written := take (length order) (drop idx bit_stream) in
  read_channels order (fst (embed_in_channels bit_stream order channels idx))
  = written ++ drop (length written) (read_channels order channels).
Proof.
  intros Hnodup Horder Hbits. revert channels idx.
  induction Horder as [| [c b] rest [Hc Hb0] Hrest IH];
    intros channels idx Hlen; [done |].
  cbn [fst snd] in Hc, Hb0. cbv zeta.
  apply NoDup_cons in Hnodup as [Hnotin Hnodup].
  assert (Forall (fun cb : Z * Z => 0 <= fst cb /\ 0 <= snd cb) rest) as Hrest'.
  { eapply Forall_impl; [exact Hrest |]. cbn. lia. }
  rewrite embed_in_channels_step.
  destruct (Nat.leb_spec (length bit_stream) idx) as [Hle | Hgt].
  - rewrite drop_ge by lia. by rewrite take_nil.
  - destruct (lookup_lt_is_Some_2 bit_stream idx Hgt) as [bit Hbit].
    rewrite (list_lookup_total_correct _ _ _ Hbit).
    rewrite (drop_S _ _ _ Hbit). cbn [length take app drop].
    set (channels' := <[Z.to_nat c := _]> channels).
    unfold read_channels at 1. rewrite bind_cons. cbn [app].
    fold (read_channels rest
            (fst (embed_in_channels bit_stream rest channels' (S idx)))).
    unfold read_channels at 2. rewrite bind_cons. cbn [app drop].
    fold (read_channels rest channels).
    f_equal.
    + rewrite read_bit_testbit by done.
      replace c with (Z.of_nat (Z.to_nat c)) in Hnotin by lia.
      rewrite embed_in_channels_other by done.
      subst channels'. rewrite list_lookup_total_insert_eq by lia.
      rewrite <- read_bit_testbit by done. apply write_bit_read; [done |].
      eapply Forall_lookup_1 in Hbits; [exact Hbits | exact Hbit].
    + rewrite IH by (done || by subst channels'; rewrite length_insert).
      cbv zeta. f_equal. f_equal.
      apply read_channels_ext.
      apply Forall_forall. intros [c2 b2] Hin.
      rewrite Forall_forall in Hrest. specialize (Hrest _ Hin).
      cbn [fst snd] in *. split; [lia |].
      subst channels'. rewrite list_lookup_total_insert.
      case_decide as Hd; [| done]. destruct Hd as [Hcc _].
      rewrite write_bit_testbit by lia.
      rewrite decide_False; [by rewrite Hcc |]. intros ->.
      apply Hnotin. replace c with c2 by lia. exact Hin.
Qed.

(** Only the low bits of a channel are written. *)
Lemma embed_in_channels_high bit_stream order channels idx k c' :
  Forall (fun cb => 0 <= fst cb /\ 0 <= snd cb < k) order ->
  Z.shiftr (fst (embed_in_channels bit_stream order channels idx) !!! c') k
  = Z.shiftr (channels !!! c') k.
Proof.
  intros Horder. revert channels idx.
  induction Horder as [| [c b] rest [Hc Hb] _ IH]; intros channels idx; [done |].
  cbn [fst snd] in Hc, Hb. rewrite embed_in_channels_step.
  destruct (length bit_stream <=? idx)%nat; [done |].
  rewrite IH, list_lookup_total_insert. case_decide as Hd; [| done].
  destruct Hd as [<- _]. by apply write_bit_high.
Qed.

Lemma channel_of_pixel_of_list channels c :
  0 <= c < 3 -> channel_of (pixel_of_list channels) c = channels !!! Z.to_nat c.
Proof.
  intros Hc. unfold channel_of, pixel_of_list.
  assert (c = 0 \/ c = 1 \/ c = 2) as [-> | [-> | ->]] by lia; reflexivity.
Qed.

Lemma channel_of_list_of_pixel p c :
  0 <= c < 3 -> list_of_pixel p !!! Z.to_nat c = channel_of p c.
Proof.
  intros Hc. destruct p as [[r g] b].
  assert (c = 0 \/ c = 1 \/ c = 2) as [-> | [-> | ->]] by lia; reflexivity.
Qed.

Lemma pixel_of_list_of_pixel p : pixel_of_list (list_of_pixel p) = p.
Proof. by destruct p as [[r g] b]. Qed.

Lemma length_list_of_pixel p : length (list_of_pixel p) = 3%nat.
Proof. by destruct p as [[r g] b]. Qed.

Lemma read_pixel_of_list order channels :
  Forall (fun cb => 0 <= fst cb < 3 /\ 0 <= snd cb) order ->
  read_pixel order (pixel_of_list channels) = read_channels order channels.
Proof.
  unfold read_pixel, read_channels.
  induction 1 as [| [c b] rest [Hc Hb] _ IH]; [done |].
  cbn [fst snd] in Hc. by rewrite !bind_cons, IH, channel_of_pixel_of_list.
Qed.

Lemma read_pixel_channels order p :
  Forall (fun cb => 0 <= fst cb < 3 /\ 0 <= snd cb) order ->
  read_pixel order p = read_channels order (list_of_pixel p).
Proof.
  intros Horder.
  rewrite <- (pixel_of_list_of_pixel p) at 1. by apply read_pixel_of_list.
Qed.

Lemma length_read_pixel order p : length (read_pixel order p) = length order.
Proof.
  unfold read_pixel. rewrite (length_bind_const _ _ 1%nat); [lia |].
  by intros [c b] _.
Qed.

Lemma embedded_pixel_done bit_stream order p idx :
  (length bit_stream <= idx)%nat -> embedded_pixel bit_stream order p idx = p.
Proof.
  intros Hdone. unfold embedded_pixel.
  rewrite embed_in_channels_done by done. apply pixel_of_list_of_pixel.
Qed.

Lemma read_embedded_pixel bit_stream order p idx :
  NoDup order ->
  Forall (fun cb => 0 <= fst cb < 3 /\ 0 <= snd cb) order ->
  Forall is_bit bit_stream ->
  let written := take (length order) (drop idx bit_stream) in
  read_pixel order (embedded_pixel bit_stream order p idx)
  = written ++ drop (length written) (read_pixel order p).
Proof.
  intros Hnodup Horder Hbits. cbv zeta. unfold embedded_pixel.
  rewrite read_pixel_of_list, read_embed_in_channels,
    <- read_pixel_channels by (done || apply length_list_of_pixel).
  reflexivity.
Qed.

Lemma embedded_pixel_high bit_stream order p idx k c :
  Forall (fun cb => 0 <= fst cb /\ 0 <= snd cb < k) order -> 0 <= c < 3 ->
  Z.shiftr (channel_of (embedded_pixel bit_stream order p idx) c) k
  = Z.shiftr (channel_of p c) k.
Proof.
  intros Horder Hc. unfold embedded_pixel.
  rewrite channel_of_pixel_of_list, embed_in_channels_high by done.
  by rewrite channel_of_list_of_pixel.
Qed.

Lemma shiftr8_range v v' :
  Z.shiftr v' 8 = Z.shiftr v 8 -> 0 <= v <= 255 -> 0 <= v' <= 255.
Proof.
  rewrite !Z.shiftr_div_pow2 by lia. change (2 ^ 8) with 256. intros Heq Hv.
  rewrite (Z.div_small v) in Heq by lia.
  pose proof (Z.div_mod v' 256 ltac:(lia)).
  pose proof (Z.mod_pos_bound v' 256 ltac:(lia)). lia.
Qed.

(** ** Embedding: the walk over the image *)

Lemma embed_row_flat bit_stream order pixels_in y xs rest pixels_out idx :
  embed_flat bit_stream order pixels_in
    (((fun x => (x, y)) <$> xs) ++ rest) pixels_out idx
  = match embed_row bit_stream order pixels_in y xs pixels_out idx with
    | Return out => out
    | Continue pixels_out' idx' =>
        embed_flat bit_stream order pixels_in rest pixels_out' idx'
    end.
Proof.
  revert pixels_out idx.
  induction xs as [| x xs IH]; intros pixels_out idx; [done |].
  cbn [fmap list_fmap app embed_flat embed_row].
  destruct (embed_in_channels _ _ _ _) as [channels' idx'].
  destruct (length bit_stream <=? idx')%nat; [done |]. apply IH.
Qed.

Lemma coords_cons w y ys :
  coords w (y :: ys) = ((fun x => (x, y)) <$> range w) ++ coords w ys.
Proof.
  unfold coords. rewrite bind_cons. f_equal.
Qed.

Lemma embed_rows_flat bit_stream order pixels_in w ys pixels_out idx :
  embed_rows bit_stream order pixels_in w ys pixels_out idx
  = embed_flat bit_stream order pixels_in (coords w ys) pixels_out idx.
Proof.
  revert pixels_out idx.
  induction ys as [| y ys IH]; intros pixels_out idx; [done |].
  rewrite coords_cons, embed_row_flat. cbn [embed_rows].
  destruct (embed_row _ _ _ _ _ _ _); [apply IH | done].
Qed.

Lemma set_pixel_eq pixels_out x y v : set_pixel pixels_out x y v x y = v.
Proof. unfold set_pixel. by rewrite !Z.eqb_refl. Qed.

Lemma set_pixel_ne pixels_out x y v x' y' :
  (x', y') <> (x, y) -> set_pixel pixels_out x y v x' y' = pixels_out x' y'.
Proof.
  intros Hne. unfold set_pixel.
  destruct (Z.eqb_spec x' x) as [-> |]; [| done].
  destruct (Z.eqb_spec y' y) as [-> |]; done.
Qed.

(** The image an embedding leaves: the pixel visited as number [j] holds
    the bits from [idx + j * n] on, [n] being the slots of a pixel; every
    other pixel is as it was. *)
Lemma embed_flat_spec bit_stream order pixels_in cs pixels_out idx :
  NoDup cs ->
  (forall x y, (x, y) ∈ cs -> pixels_out x y = pixels_in x y) ->
  let out := embed_flat bit_stream order pixels_in cs pixels_out idx in
  (forall x y, (x, y) ∉ cs -> out x y = pixels_out x y)
  /\ (forall j x y, cs !! j = Some (x, y) ->
        out x y = embedded_pixel bit_stream order (pixels_in x y)
                    (idx + j * length order)).
Proof.
  revert pixels_out idx.
  induction cs as [| [x0 y0] cs IH]; intros pixels_out idx Hnodup Hagree;
    cbv zeta; [done |].
  apply NoDup_cons in Hnodup as [Hnotin Hnodup].
  cbn [embed_flat].
  pose proof (embed_in_channels_idx bit_stream order
                (list_of_pixel (pixels_in x0 y0)) idx) as Hidx.
  assert (pixel_of_list
            (fst (embed_in_channels bit_stream order
                    (list_of_pixel (pixels_in x0 y0)) idx))
          = embedded_pixel bit_stream order (pixels_in x0 y0) idx) as Hpix
    by reflexivity.
  destruct (embed_in_channels _ _ _ _) as [channels' idx'].
  cbn [fst snd] in Hidx, Hpix. rewrite Hpix.
  set (pixels_out' := set_pixel pixels_out x0 y0 _).
  assert (forall x y, (x, y) ∈ cs -> pixels_out' x y = pixels_in x y)
    as Hagree'.
  { intros x y Hin. unfold pixels_out'. rewrite set_pixel_ne.
    - apply Hagree, elem_of_cons. by right.
    - intros [= -> ->]. done. }
  destruct (Nat.leb_spec (length bit_stream) idx') as [Hdone | Hmore].
  - split.
    + intros x y Hout. apply not_elem_of_cons in Hout as [Hne _].
      unfold pixels_out'. by rewrite set_pixel_ne.
    + intros [| j] x y Hj.
      * injection Hj as -> ->. unfold pixels_out'.
        rewrite set_pixel_eq. f_equal. lia.
      * cbn in Hj. apply list_elem_of_lookup_2 in Hj.
        rewrite Hagree' by done.
        symmetry. apply embedded_pixel_done. lia.
  - destruct (IH pixels_out' idx' Hnodup Hagree') as [Hother Hvisited].
    split.
    + intros x y Hout. apply not_elem_of_cons in Hout as [Hne Hout].
      rewrite Hother by done. unfold pixels_out'. by rewrite set_pixel_ne.
    + intros [| j] x y Hj.
      * injection Hj as -> ->. rewrite Hother by done.
        unfold pixels_out'. rewrite set_pixel_eq. f_equal. lia.
      * cbn in Hj. rewrite (Hvisited j x y Hj). f_equal. lia.
Qed.

Lemma elem_of_coords w ys x y :
  (x, y) ∈ coords w ys <-> 0 <= x < w /\ y ∈ ys.
Proof.
  unfold coords. rewrite list_elem_of_bind. split.
  - intros (y' & Hin & Hy). apply list_elem_of_bind in Hin as (x' & Hin & Hx).
    apply list_elem_of_singleton in Hin as [= -> ->].
    apply elem_of_seqZ in Hx. split; [lia | done].
  - intros [Hx Hy]. exists y. split; [| done].
    apply list_elem_of_bind. exists x. split; [by apply list_elem_of_singleton |].
    apply elem_of_seqZ. lia.
Qed.

Lemma NoDup_coords w ys : NoDup ys -> NoDup (coords w ys).
Proof.
  intros Hys. unfold coords. apply NoDup_bind; [| | done].
  - intros y1 y2 [x y] _ _ H1 H2.
    apply list_elem_of_bind in H1 as (x1 & H1 & _).
    apply list_elem_of_bind in H2 as (x2 & H2 & _).
    apply list_elem_of_singleton in H1, H2. congruence.
  - intros y _. apply NoDup_bind; [| | apply NoDup_seqZ].
    + intros x1 x2 [x y'] _ _ H1 H2.
      apply list_elem_of_singleton in H1, H2. congruence.
    + intros x _. apply NoDup_singleton.
Qed.

Lemma length_coords w ys :
  length (coords w ys) = (length ys * Z.to_nat w)%nat.
Proof.
  unfold coords. apply length_bind_const. intros y _.
  rewrite (length_bind_const _ _ 1%nat); [rewrite length_range; lia |].
  by intros x _.
Qed.

(** Row-major order: the pixel [(x, y)] is visited as number
    [y * w + x]. *)
Lemma lookup_coords_from w (n : nat) y0 x y :
  0 <= x < w -> y0 <= y < y0 + Z.of_nat n ->
  coords w (seqZ y0 (Z.of_nat n)) !! Z.to_nat ((y - y0) * w + x) = Some (x, y).
Proof.
  intros Hx. revert y0.
  induction n as [| n IH]; intros y0 Hy; [lia |].
  rewrite seqZ_cons by lia. rewrite coords_cons.
  replace (Z.pred (Z.of_nat (S n))) with (Z.of_nat n) by lia.
  destruct (decide (y = y0)) as [-> | Hne].
  - rewrite lookup_app_l by (rewrite length_fmap, length_range; lia).
    rewrite list_lookup_fmap. unfold range.
    rewrite lookup_seqZ_lt by lia. cbn. do 2 f_equal. lia.
  - rewrite lookup_app_r by (rewrite length_fmap, length_range; nia).
    rewrite length_fmap, length_range.
    replace (Z.to_nat ((y - y0) * w + x) - Z.to_nat w)%nat
      with (Z.to_nat ((y - Z.succ y0) * w + x)) by nia.
    apply IH. lia.
Qed.

Lemma lookup_coords w h x y :
  0 <= x < w -> 0 <= y < h ->
  coords w (range h) !! Z.to_nat (y * w + x) = Some (x, y).
Proof.
  intros Hx Hy. unfold range.
  rewrite <- (Z2Nat.id h) by lia.
  replace (y * w + x) with ((y - 0) * w + x) by lia.
  apply lookup_coords_from; lia.
Qed.

(** ** Embedding: the image returned *)

Lemma encode_payload_into_image_result (h : heap) (image : ref)
    (payload : list Z) bits method :
  bits ∈ [1; 2; 3] -> method ∈ SUPPORTED_METHODS ->
  let im := cell h image in
  Z.of_nat (length payload) * 8 <= carrier_bits (width im) (height im) bits ->
  exists order h',
    get_carrier_order bits method = Ok order
    /\ encode_payload_into_image image payload bits method h
       = (Ok (next_ref h), h')
    /\ next_ref h' = S (next_ref h)
    /\ (forall r, r <> next_ref h -> cell h' r = cell h r)
    /\ size (cell h' (next_ref h)) = size im
    /\ (forall x y, (x, y) ∉ coords (width im) (range (height im)) ->
          pixels (cell h' (next_ref h)) x y = pixels im x y)
    /\ (forall j x y,
          coords (width im) (range (height im)) !! j = Some (x, y) ->
          pixels (cell h' (next_ref h)) x y
          = embedded_pixel (_bytes_to_bits payload) order (pixels im x y)
              (j * length order)).
Proof.
  intros Hb Hm im Hfits.
  destruct (encode_payload_into_image_check h image payload bits method Hb Hm)
    as (_ & Hrun).
  destruct (Hrun Hfits) as (order & Ho & Henc). fold im in Henc.
  eexists order, _. split; [exact Ho |]. split; [exact Henc |].
  cbn [next_ref cell]. rewrite Nat.eqb_refl. cbn [size pixels].
  split; [done |]. split.
  { intros r Hr. destruct (Nat.eqb_spec r (next_ref h)); done. }
  split; [done |].
  rewrite embed_rows_flat.
  apply (embed_flat_spec (_bytes_to_bits payload) order (pixels im)
           (coords (width im) (range (height im))) (pixels im) 0).
  - apply NoDup_coords, NoDup_seqZ.
  - done.
Qed.

Lemma carrier_order_slots bits method order :
  bits ∈ [1; 2; 3] -> get_carrier_order bits method = Ok order ->
  length order = Z.to_nat (3 * bits)
  /\ NoDup order
  /\ Forall (fun cb => 0 <= fst cb < 3 /\ 0 <= snd cb < bits) order.
Proof.
  intros Hb Ho.
  destruct (decide (method ∈ SUPPORTED_METHODS)) as [Hm | Hm].
  - destruct (carrier_order_facts bits method Hb Hm) as (order' & Ho' & Hfacts).
    rewrite Ho in Ho'. by injection Ho' as <-.
  - unfold get_carrier_order, validate_bits_and_method in Ho.
    rewrite bool_decide_eq_true_2 in Ho by done.
    rewrite bool_decide_eq_false_2 in Ho by done. discriminate.
Qed.

(** C10.  For a payload that fits, the image returned differs from the
    input only in the low [bits] bits of a channel: shifted right by
    [bits], every channel of every pixel is what it was, and a channel that
    was a byte still is one. *)
Theorem embedding_changes_low_bits_only (h : heap) (image : ref)
    (payload : list Z) (bits : Z) (method : string) :
  bits ∈ [1; 2; 3] -> method ∈ SUPPORTED_METHODS ->
  let im := cell h image in
  Z.of_nat (length payload) * 8 <= carrier_bits (width im) (height im) bits ->
  exists out h',
    encode_payload_into_image image payload bits method h = (Ok out, h')
    /\ forall x y c, 0 <= c < 3 ->
         let before := channel_of (pixels im x y) c in
         let after := channel_of (pixels (cell h' out) x y) c in
         Z.shiftr after bits = Z.shiftr before bits
         /\ (0 <= before <= 255 -> 0 <= after <= 255).
Proof.
  intros Hb Hm im Hfits.
  destruct (encode_payload_into_image_result h image payload bits method
              Hb Hm Hfits)
    as (order & h' & Ho & Henc & _ & _ & _ & Hother & Hvisited).
  destruct (carrier_order_slots bits method order Hb Ho) as (_ & _ & Hslots).
  fold im in Hother, Hvisited.
  exists (next_ref h), h'. split; [exact Henc |].
  intros x y c Hc before after.
  assert (forall k, bits <= k -> Z.shiftr after k = Z.shiftr before k) as Hhigh.
  { intros k Hk. subst before after.
    destruct (decide ((x, y) ∈ coords (width im) (range (height im))))
      as [Hin | Hout].
    - apply list_elem_of_lookup_1 in Hin as [j Hj].
      rewrite (Hvisited j x y Hj). apply embedded_pixel_high; [| done].
      eapply Forall_impl; [exact Hslots |]. cbn. lia.
    - by rewrite Hother. }
  split.
  - apply Hhigh. lia.
  - apply shiftr8_range, Hhigh.
    destruct (valid_bits_cases _ Hb) as [-> | [-> | ->]]; lia.
Qed.

Lemma embedding_changes_low_bits_only_witness :
  let im := mkImage (8, 8) (fun x y => (93 + x, 127, 149 + y)) in
  let h := mkHeap 1%nat (fun _ => im) in
  exists out h',
    encode_payload_into_image 0%nat [0; 0; 0; 2; 255; 0] 2 "interleaved" h
    = (Ok out, h')
    /\ Z.shiftr (channel_of (pixels (cell h' out) 0 0) 0) 2 = Z.shiftr 93 2.
Proof.
  intros im h.
  destruct (embedding_changes_low_bits_only h 0%nat [0; 0; 0; 2; 255; 0] 2
              "interleaved") as (out & h' & Henc & Hlow).
  - in_list.
  - in_list.
  - vm_compute. discriminate.
  - exists out, h'. split; [exact Henc |].
    apply (Hlow 0 0 0). lia.
Defined.

(** C8.  For a payload that fits, the embedding allocates a new image and
    writes nothing else: every image that was on the heap, the input among
    them, is unchanged; the new image has the size of the input; and every
    pixel behind the one that takes the last payload bit (in row-major
    order, each pixel taking [3 * bits] bits) equals the input pixel. *)
Theorem embedding_is_a_fresh_copy (h : heap) (image : ref)
    (payload : list Z) (bits : Z) (method : string) :
  bits ∈ [1; 2; 3] -> method ∈ SUPPORTED_METHODS ->
  (image < next_ref h)%nat ->
  let im := cell h image in
  let w := width im in
  Z.of_nat (length payload) * 8 <= carrier_bits w (height im) bits ->
  exists out h',
    encode_payload_into_image image payload bits method h = (Ok out, h')
    /\ out = next_ref h /\ out <> image
    /\ (forall r, (r < next_ref h)%nat -> cell h' r = cell h r)
    /\ cell h' image = im
    /\ size (cell h' out) = size im
    /\ forall x y, 0 <= x < w -> 0 <= y < height im ->
         Z.of_nat (length payload) * 8 <= (y * w + x) * (3 * bits) ->
         pixels (cell h' out) x y = pixels im x y.
Proof.
  intros Hb Hm Hlive im w Hfits.
  destruct (encode_payload_into_image_result h image payload bits method
              Hb Hm Hfits)
    as (order & h' & Ho & Henc & _ & Hframe & Hsize & _ & Hvisited).
  destruct (carrier_order_slots bits method order Hb Ho) as (Hlen & _ & _).
  fold im in Hsize, Hvisited. fold w in Hvisited.
  exists (next_ref h), h'. split; [exact Henc |].
  split; [done |]. split; [lia |].
  split; [intros r Hr; apply Hframe; lia |].
  split; [apply Hframe; lia |]. split; [exact Hsize |].
  intros x y Hx Hy Hdone.
  rewrite (Hvisited _ x y (lookup_coords w (height im) x y Hx Hy)).
  apply embedded_pixel_done.
  unfold _bytes_to_bits.
  rewrite (length_bind_const _ _ 8%nat); [| by intros b _].
  rewrite Hlen.
  assert (0 <= bits) by (destruct (valid_bits_cases _ Hb) as [|[|]]; lia).
  nia.
Qed.

Lemma embedding_is_a_fresh_copy_witness :
  let im := mkImage (8, 8) (fun x y => (93 + x, 127, 149 + y)) in
  let h := mkHeap 1%nat (fun _ => im) in
  exists out h',
    encode_payload_into_image 0%nat [0; 0; 0; 2; 255; 0] 1 "sequential" h
    = (Ok out, h')
    /\ cell h' 0%nat = im
    /\ pixels (cell h' out) 0 2 = pixels im 0 2.
Proof.
  intros im h.
  destruct (embedding_is_a_fresh_copy h 0%nat [0; 0; 0; 2; 255; 0] 1
              "sequential")
    as (out & h' & Henc & _ & _ & _ & Hsame & _ & Hrest).
  - in_list.
  - in_list.
  - cbn. lia.
  - vm_compute. discriminate.
  - exists out, h'. split; [exact Henc |]. split; [exact Hsame |].
    apply Hrest; [cbn; lia | cbn; lia |]. cbn. lia.
Defined.

(** ** Reading the carrier bits back *)

Lemma bind_coords {B} w ys (g : Z * Z -> list B) :
  coords w ys ≫= g = ys ≫= fun y => range w ≫= fun x => g (x, y).
Proof.
  induction ys as [| y ys IH]; [done |].
  rewrite coords_cons, bind_app, IH, bind_cons, list_fmap_bind. reflexivity.
Qed.

Lemma iter_bits_coords (im : Image) bits method order :
  get_carrier_order bits method = Ok order ->
  _iter_bits_from_image im bits method
  = Ok (coords (width im) (range (height im))
          ≫= fun c => read_pixel order (pixels im (fst c) (snd c))).
Proof.
  intros Ho. unfold _iter_bits_from_image, width, height.
  destruct (size im) as [w hh]. rewrite Ho. cbn [rbind fst snd].
  rewrite bind_coords. reflexivity.
Qed.

(** Chunks of [n] bits written over the heads of blocks of [n] bits, then
    read block by block, are the stream followed by what it left. *)
Lemma written_chunks {A} (n : nat) (cs : list A) (f g : A -> list Z)
    (s : list Z) :
  (forall j c, cs !! j = Some c ->
     f c = take n (drop (j * n) s)
           ++ drop (length (take n (drop (j * n) s))) (g c)) ->
  (forall c, c ∈ cs -> length (g c) = n) ->
  (length s <= length cs * n)%nat ->
  cs ≫= f = s ++ drop (length s) (cs ≫= g).
Proof.
  revert s. induction cs as [| c cs IH]; intros s Hf Hg Hlen.
  - destruct s; [done | cbn in Hlen; lia].
  - rewrite !bind_cons.
    rewrite (Hf 0%nat c eq_refl). cbn [Nat.mul]. rewrite drop_0.
    rewrite (IH (drop n s)); cycle 1.
    + intros j c' Hj. rewrite (Hf (S j) c' Hj), !drop_drop.
      by replace (S j * n)%nat with (n + j * n)%nat by lia.
    + intros c' Hc'. apply Hg, elem_of_cons. by right.
    + rewrite length_drop. cbn in Hlen. lia.
    + assert (length (g c) = n) as Hgc by (apply Hg, elem_of_cons; by left).
      rewrite drop_app, Hgc, length_take, length_drop.
      destruct (decide (length s <= n)%nat) as [Hshort | Hlong].
      * rewrite take_ge, (drop_ge s n) by lia.
        replace (n `min` length s)%nat with (length s) by lia.
        replace (length s - n)%nat with 0%nat by lia.
        rewrite !drop_0. by rewrite <- app_assoc.
      * replace (n `min` length s)%nat with n by lia.
        rewrite (drop_ge (g c)) by lia. rewrite (drop_ge (g c)) by lia.
        rewrite app_nil_r, app_nil_l, app_assoc, take_drop. reflexivity.
Qed.

Lemma length_bytes_to_bits data :
  length (_bytes_to_bits data) = (8 * length data)%nat.
Proof.
  unfold _bytes_to_bits.
  rewrite (length_bind_const _ _ 8%nat); [lia | by intros b _].
Qed.

Lemma bytes_to_bits_are_bits data : Forall is_bit (_bytes_to_bits data).
Proof.
  unfold _bytes_to_bits. apply Forall_bind_elem. intros b _.
  repeat (constructor; [apply land_1_is_bit |]). constructor.
Qed.

(** The carrier bits of the image returned: the payload bits, then the
    input's own bits from there on. *)
Lemma iter_bits_encoded (h h' : heap) (image out : ref) (payload : list Z)
    bits method original :
  bits ∈ [1; 2; 3] -> method ∈ SUPPORTED_METHODS ->
  let im := cell h image in
  0 <= width im -> 0 <= height im ->
  Z.of_nat (length payload) * 8 <= carrier_bits (width im) (height im) bits ->
  encode_payload_into_image image payload bits method h = (Ok out, h') ->
  _iter_bits_from_image im bits method = Ok original ->
  _iter_bits_from_image (cell h' out) bits method
  = Ok (_bytes_to_bits payload
          ++ drop (length (_bytes_to_bits payload)) original).
Proof.
  intros Hb Hm im Hw Hh Hfits Henc Horig.
  destruct (encode_payload_into_image_result h image payload bits method
              Hb Hm Hfits)
    as (order & h1 & Ho & Henc' & _ & _ & Hsize & _ & Hvisited).
  rewrite Henc in Henc'. injection Henc' as -> <-.
  destruct (carrier_order_slots bits method order Hb Ho)
    as (Hlen & Hnodup & Hslots).
  assert (Forall (fun cb : Z * Z => 0 <= fst cb < 3 /\ 0 <= snd cb) order)
    as Hslots'.
  { eapply Forall_impl; [exact Hslots |]. cbn. lia. }
  fold im in Hsize, Hvisited.
  rewrite (iter_bits_coords im bits method order Ho) in Horig.
  injection Horig as <-.
  rewrite (iter_bits_coords _ bits method order Ho).
  unfold width, height. rewrite Hsize. fold (width im) (height im).
  f_equal. apply (written_chunks (length order)).
  - intros j [x y] Hj. cbn [fst snd]. rewrite (Hvisited j x y Hj).
    by apply read_embedded_pixel; [| | apply bytes_to_bits_are_bits].
  - intros c _. apply length_read_pixel.
  - rewrite length_bytes_to_bits, length_coords, length_range, Hlen.
    unfold carrier_bits in Hfits.
    assert (0 <= bits) by (destruct (valid_bits_cases _ Hb) as [|[|]]; lia).
    nia.
Qed.

(** ** Bits and bytes *)

Lemma byte_bits_sum b :
  0 <= b < 256 ->
  128 * Z.land (Z.shiftr b 7) 1 + 64 * Z.land (Z.shiftr b 6) 1
  + 32 * Z.land (Z.shiftr b 5) 1 + 16 * Z.land (Z.shiftr b 4) 1
  + 8 * Z.land (Z.shiftr b 3) 1 + 4 * Z.land (Z.shiftr b 2) 1
  + 2 * Z.land (Z.shiftr b 1) 1 + Z.land (Z.shiftr b 0) 1 = b.
Proof.
  intros Hb.
  assert (Forall (fun b =>
    128 * Z.land (Z.shiftr b 7) 1 + 64 * Z.land (Z.shiftr b 6) 1
    + 32 * Z.land (Z.shiftr b 5) 1 + 16 * Z.land (Z.shiftr b 4) 1
    + 8 * Z.land (Z.shiftr b 3) 1 + 4 * Z.land (Z.shiftr b 2) 1
    + 2 * Z.land (Z.shiftr b 1) 1 + Z.land (Z.shiftr b 0) 1 = b)
    (seqZ 0 256)) as Hall.
  { apply (bool_decide_unpack _). vm_compute. exact I. }
  rewrite Forall_forall in Hall. apply Hall, elem_of_seqZ. lia.
Qed.

Lemma byte_bits_fold b acc :
  0 <= b < 256 ->
  fold_left (fun value bit => Z.lor (Z.shiftl value 1) bit)
    [Z.land (Z.shiftr b 7) 1; Z.land (Z.shiftr b 6) 1; Z.land (Z.shiftr b 5) 1;
     Z.land (Z.shiftr b 4) 1; Z.land (Z.shiftr b 3) 1; Z.land (Z.shiftr b 2) 1;
     Z.land (Z.shiftr b 1) 1; Z.land (Z.shiftr b 0) 1] acc
  = acc * 256 + b.
Proof.
  intros Hb. cbn [fold_left].
  rewrite !bits_to_int_step by apply land_1_is_bit.
  pose proof (byte_bits_sum b Hb). lia.
Qed.

Lemma bytes_to_bits_cons b data :
  _bytes_to_bits (b :: data)
  = [Z.land (Z.shiftr b 7) 1; Z.land (Z.shiftr b 6) 1; Z.land (Z.shiftr b 5) 1;
     Z.land (Z.shiftr b 4) 1; Z.land (Z.shiftr b 3) 1; Z.land (Z.shiftr b 2) 1;
     Z.land (Z.shiftr b 1) 1; Z.land (Z.shiftr b 0) 1]
    ++ _bytes_to_bits data.
Proof. reflexivity. Qed.

Lemma bits_to_bytes_to_bits data :
  is_bytes data -> _bits_to_bytes (_bytes_to_bits data) = data.
Proof.
  induction 1 as [| b data Hb _ IH]; [done |].
  rewrite bytes_to_bits_cons. cbn [app _bits_to_bytes]. rewrite IH. f_equal.
  unfold _bits_to_int. rewrite byte_bits_fold by done. lia.
Qed.

Lemma bytes_to_bits_app data1 data2 :
  _bytes_to_bits (data1 ++ data2) = _bytes_to_bits data1 ++ _bytes_to_bits data2.
Proof. unfold _bytes_to_bits. apply bind_app. Qed.

Lemma bits_to_int_bytes data acc :
  is_bytes data ->
  fold_left (fun value bit => Z.lor (Z.shiftl value 1) bit)
            (_bytes_to_bits data) acc
  = fold_left (fun value b => value * 256 + b) data acc.
Proof.
  intros Hdata. revert acc.
  induction Hdata as [| b data Hb _ IH]; intros acc; [done |].
  rewrite bytes_to_bits_cons, fold_left_app, byte_bits_fold by done.
  apply IH.
Qed.

Lemma from_bytes_big_sum data acc :
  is_bytes data ->
  fold_left (fun acc b => Z.lor (Z.shiftl acc 8) b) data acc
  = fold_left (fun value b => value * 256 + b) data acc.
Proof.
  intros Hdata. revert acc.
  induction Hdata as [| b data Hb _ IH]; intros acc; [done |].
  cbn [fold_left]. rewrite lor_shiftl_add by lia. apply IH.
Qed.

Lemma land_255 n : Z.land n 255 = n `mod` 256.
Proof. change 255 with (Z.ones 8). by rewrite Z.land_ones by lia. Qed.

(** The four header bytes spell the length, read as bits or as bytes. *)
Lemma to_bytes4_big_spec n header :
  to_bytes4_big n = Ok header ->
  0 <= n < 2 ^ 32
  /\ length header = 4%nat
  /\ is_bytes header
  /\ _bits_to_int (_bytes_to_bits header) = n
  /\ from_bytes_big header = n.
Proof.
  unfold to_bytes4_big. intros Hh.
  destruct (Z.ltb_spec n 0); [done |].
  destruct (Z.leb_spec (2 ^ 32) n); [done |].
  injection Hh as <-.
  rewrite !land_255, !Z.shiftr_div_pow2 by lia.
  change (2 ^ 24) with 16777216. change (2 ^ 16) with 65536.
  change (2 ^ 8) with 256. change (2 ^ 32) with 4294967296 in *.
  assert (is_bytes [(n `div` 16777216) `mod` 256; (n `div` 65536) `mod` 256;
                    (n `div` 256) `mod` 256; n `mod` 256]) as Hbytes.
  { repeat (constructor; [apply Z.mod_pos_bound; lia |]). constructor. }
  split; [lia |]. split; [done |]. split; [exact Hbytes |].
  unfold _bits_to_int, from_bytes_big.
  rewrite bits_to_int_bytes, from_bytes_big_sum by done.
  cbn [fold_left].
  change 16777216 with (256 * (256 * 256)). change 65536 with (256 * 256).
  rewrite <- !Z.div_div by lia.
  pose proof (Z.div_mod n 256 ltac:(lia)).
  pose proof (Z.mod_pos_bound n 256 ltac:(lia)).
  pose proof (Z.div_mod (n `div` 256) 256 ltac:(lia)).
  pose proof (Z.mod_pos_bound (n `div` 256) 256 ltac:(lia)).
  pose proof (Z.div_mod ((n `div` 256) `div` 256) 256 ltac:(lia)).
  pose proof (Z.mod_pos_bound ((n `div` 256) `div` 256) 256 ltac:(lia)).
  assert (((n `div` 256) `div` 256) `div` 256 < 256) as Htop.
  { rewrite !Z.div_div by lia. apply Z.div_lt_upper_bound; lia. }
  assert (0 <= ((n `div` 256) `div` 256) `div` 256) as Htop0
    by (repeat apply Z.div_pos; lia).
  rewrite (Z.mod_small (((n `div` 256) `div` 256) `div` 256)) by lia.
  split; lia.
Qed.

(** ** The password mask *)

Lemma lxor_byte a b : 0 <= a < 256 -> 0 <= b < 256 -> 0 <= Z.lxor a b < 256.
Proof.
  intros Ha Hb.
  assert (0 <= Z.lxor a b) as Hnn by (apply Z.lxor_nonneg; lia).
  split; [done |].
  destruct (decide (Z.lxor a b = 0)) as [-> | Hnz]; [lia |].
  apply (Z.log2_lt_pow2 _ 8); [lia |].
  pose proof (Z.log2_lxor a b ltac:(lia) ltac:(lia)).
  assert (forall v, 0 <= v < 256 -> Z.log2 v < 8) as Hlog.
  { intros v Hv. destruct (decide (v = 0)) as [-> | Hv0]; [done |].
    apply Z.log2_lt_pow2; lia. }
  pose proof (Hlog a Ha). pose proof (Hlog b Hb). lia.
Qed.

Lemma xor_with_password_spec data password :
  (exists pw, str_encode_utf8 password = Ok pw /\ is_bytes pw) ->
  exists masked,
    xor_with_password data password = Ok masked
    /\ length masked = length data
    /\ xor_with_password masked password = Ok data
    /\ (is_bytes data -> is_bytes masked).
Proof.
  intros (pw & Hpw & Hpwb).
  destruct password as [| c password].
  { exists data. done. }
  unfold xor_with_password. rewrite Hpw. cbn [rbind].
  eexists. split; [reflexivity |].
  split; [apply length_imap |]. split.
  - f_equal. apply list_eq. intros i.
    rewrite !list_lookup_imap. destruct (data !! i) as [b |]; [| done].
    cbn. by rewrite Z.lxor_assoc, Z.lxor_nilpotent, Z.lxor_0_r.
  - intros Hdata. unfold is_bytes. apply Forall_lookup. intros i v Hv.
    rewrite list_lookup_imap in Hv.
    destruct (data !! i) as [b |] eqn:Hb; [| done]. injection Hv as <-.
    apply lxor_byte.
    + unfold is_bytes in Hdata. by eapply Forall_lookup_1 in Hdata.
    + destruct pw as [| p pw].
      { cbn in Hpw. destruct (utf8_encode_char c) as [[| ? ?] |];
          destruct (str_encode_utf8 password); cbn in Hpw;
          try discriminate.
        (* a character never encodes to no byte *)
        unfold utf8_encode_char in *. repeat case_match; done. }
      set (k := (i `mod` length (p :: pw))%nat).
      assert (k < length (p :: pw))%nat as Hk
        by (apply Nat.mod_upper_bound; done).
      destruct (lookup_lt_is_Some_2 _ _ Hk) as [v Hv].
      rewrite (list_lookup_total_correct _ _ _ Hv).
      unfold is_bytes in Hpwb. by eapply Forall_lookup_1 in Hpwb.
Qed.

(** ** UTF-8 *)

Lemma lor_C0 x : 0 <= x < 32 -> Z.lor 0xC0 x = 192 + x.
Proof.
  intros Hx. change (Z.lor 0xC0 x) with (Z.lor (Z.shiftl 6 5) x).
  rewrite lor_shiftl_add; change (2 ^ 5) with 32; lia.
Qed.

Lemma lor_E0 x : 0 <= x < 16 -> Z.lor 0xE0 x = 224 + x.
Proof.
  intros Hx. change (Z.lor 0xE0 x) with (Z.lor (Z.shiftl 14 4) x).
  rewrite lor_shiftl_add; change (2 ^ 4) with 16; lia.
Qed.

Lemma lor_F0 x : 0 <= x < 8 -> Z.lor 0xF0 x = 240 + x.
Proof.
  intros Hx. change (Z.lor 0xF0 x) with (Z.lor (Z.shiftl 30 3) x).
  rewrite lor_shiftl_add; change (2 ^ 3) with 8; lia.
Qed.

Lemma lor_80_low6 x : Z.lor 0x80 (Z.land x 0x3F) = 128 + x `mod` 64.
Proof.
  change 0x3F with (Z.ones 6). rewrite Z.land_ones by lia.
  change (2 ^ 6) with 64.
  change (Z.lor 0x80 (x `mod` 64)) with (Z.lor (Z.shiftl 2 6) (x `mod` 64)).
  pose proof (Z.mod_pos_bound x 64 ltac:(lia)).
  rewrite lor_shiftl_add; change (2 ^ 6) with 64; lia.
Qed.

Lemma decode_1 b0 rest :
  0 <= b0 < 0x80 ->
  bytes_decode_utf8_replace (b0 :: rest) = b0 :: bytes_decode_utf8_replace rest.
Proof.
  intros H0. cbn [bytes_decode_utf8_replace].
  destruct (Z.ltb_spec b0 0x80); [done | lia].
Qed.

Lemma decode_2 b0 b1 rest :
  0xC2 <= b0 < 0xE0 -> 0x80 <= b1 < 0xC0 ->
  bytes_decode_utf8_replace (b0 :: b1 :: rest)
  = (b0 * 64 + b1 - 12416) :: bytes_decode_utf8_replace rest.
Proof.
  intros H0 H1. cbn [bytes_decode_utf8_replace]. unfold is_continuation.
  destruct (Z.ltb_spec b0 0x80); [lia |].
  destruct (Z.ltb_spec b0 0xC2); [lia |].
  destruct (Z.ltb_spec b0 0xE0); [| lia].
  destruct (Z.leb_spec 0x80 b1); [| lia].
  destruct (Z.ltb_spec b1 0xC0); [| lia].
  cbn [andb]. rewrite Z.shiftl_mul_pow2 by lia. f_equal.
Qed.

Lemma decode_3 b0 b1 b2 rest :
  0xE0 <= b0 < 0xF0 -> 0x80 <= b1 < 0xC0 -> 0x80 <= b2 < 0xC0 ->
  (b0 = 0xE0 -> 0xA0 <= b1) -> (b0 = 0xED -> b1 < 0xA0) ->
  bytes_decode_utf8_replace (b0 :: b1 :: b2 :: rest)
  = (b0 * 4096 + b1 * 64 + b2 - 925824) :: bytes_decode_utf8_replace rest.
Proof.
  intros H0 H1 H2 HE0 HED. cbn [bytes_decode_utf8_replace].
  unfold second_of_3, is_continuation.
  destruct (Z.ltb_spec b0 0x80); [lia |].
  destruct (Z.ltb_spec b0 0xC2); [lia |].
  destruct (Z.ltb_spec b0 0xE0); [lia |].
  destruct (Z.ltb_spec b0 0xF0); [| lia].
  destruct (Z.leb_spec 0x80 b1); [| lia].
  destruct (Z.ltb_spec b1 0xC0); [| lia].
  destruct (Z.leb_spec 0x80 b2); [| lia].
  destruct (Z.ltb_spec b2 0xC0); [| lia].
  assert ((if b1 <? 0xA0 then b0 =? 0xE0 else b0 =? 0xED) = false) as ->.
  { destruct (Z.ltb_spec b1 0xA0);
      [destruct (Z.eqb_spec b0 0xE0) | destruct (Z.eqb_spec b0 0xED)];
      try done; lia. }
  cbn [andb negb]. rewrite !Z.shiftl_mul_pow2 by lia. f_equal.
Qed.

Lemma decode_4 b0 b1 b2 b3 rest :
  0xF0 <= b0 < 0xF5 -> 0x80 <= b1 < 0xC0 -> 0x80 <= b2 < 0xC0 ->
  0x80 <= b3 < 0xC0 ->
  (b0 = 0xF0 -> 0x90 <= b1) -> (b0 = 0xF4 -> b1 < 0x90) ->
  bytes_decode_utf8_replace (b0 :: b1 :: b2 :: b3 :: rest)
  = (b0 * 262144 + b1 * 4096 + b2 * 64 + b3 - 63447168)
      :: bytes_decode_utf8_replace rest.
Proof.
  intros H0 H1 H2 H3 HF0 HF4. cbn [bytes_decode_utf8_replace].
  unfold second_of_4, is_continuation.
  destruct (Z.ltb_spec b0 0x80); [lia |].
  destruct (Z.ltb_spec b0 0xC2); [lia |].
  destruct (Z.ltb_spec b0 0xE0); [lia |].
  destruct (Z.ltb_spec b0 0xF0); [lia |].
  destruct (Z.ltb_spec b0 0xF5); [| lia].
  destruct (Z.leb_spec 0x80 b1); [| lia].
  destruct (Z.ltb_spec b1 0xC0); [| lia].
  destruct (Z.leb_spec 0x80 b2); [| lia].
  destruct (Z.ltb_spec b2 0xC0); [| lia].
  destruct (Z.leb_spec 0x80 b3); [| lia].
  destruct (Z.ltb_spec b3 0xC0); [| lia].
  assert ((if b1 <? 0x90 then b0 =? 0xF0 else b0 =? 0xF4) = false) as ->.
  { destruct (Z.ltb_spec b1 0x90);
      [destruct (Z.eqb_spec b0 0xF0) | destruct (Z.eqb_spec b0 0xF4)];
      try done; lia. }
  cbn [andb negb]. rewrite !Z.shiftl_mul_pow2 by lia. f_equal.
Qed.

(** One character: its bytes are bytes, and the decoder reads it back in
    front of whatever follows. *)
Lemma utf8_char_roundtrip c bs :
  utf8_encode_char c = Ok bs ->
  is_bytes bs
  /\ forall rest,
       bytes_decode_utf8_replace (bs ++ rest)
       = c :: bytes_decode_utf8_replace rest.
Proof.
  unfold utf8_encode_char. intros Henc.
  destruct (Z.ltb_spec c 0); [done |].
  destruct (Z.ltb_spec c 0x80).
  { injection Henc as <-. split.
    - repeat constructor; lia.
    - intros rest. apply decode_1. lia. }
  destruct (Z.ltb_spec c 0x800).
  { injection Henc as <-.
    rewrite lor_80_low6, Z.shiftr_div_pow2 by lia. change (2 ^ 6) with 64.
    pose proof (Z.div_mod c 64 ltac:(lia)).
    pose proof (Z.mod_pos_bound c 64 ltac:(lia)).
    rewrite lor_C0 by lia. split.
    - repeat (constructor; [lia |]). constructor.
    - intros rest. cbn [app]. rewrite decode_2 by lia. f_equal. lia. }
  destruct (Z.ltb_spec c 0x10000).
  { destruct (Z.leb_spec 0xD800 c), (Z.leb_spec c 0xDFFF);
      cbn [andb] in Henc; try done; injection Henc as <-.
    all: rewrite !lor_80_low6, !Z.shiftr_div_pow2 by lia.
    all: change (2 ^ 6) with 64; change (2 ^ 12) with (64 * 64).
    all: rewrite <- Z.div_div by lia.
    all: pose proof (Z.div_mod c 64 ltac:(lia)).
    all: pose proof (Z.mod_pos_bound c 64 ltac:(lia)).
    all: pose proof (Z.div_mod (c `div` 64) 64 ltac:(lia)).
    all: pose proof (Z.mod_pos_bound (c `div` 64) 64 ltac:(lia)).
    all: rewrite lor_E0 by lia.
    all: split; [repeat (constructor; [lia |]); constructor |].
    all: intros rest; cbn [app]; rewrite decode_3 by lia; f_equal; lia. }
  destruct (Z.ltb_spec c 0x110000); [| done].
  injection Henc as <-.
  rewrite !lor_80_low6, !Z.shiftr_div_pow2 by lia.
  change (2 ^ 6) with 64. change (2 ^ 12) with (64 * 64).
  change (2 ^ 18) with (64 * 64 * 64).
  rewrite <- !Z.div_div by lia.
  pose proof (Z.div_mod c 64 ltac:(lia)).
  pose proof (Z.mod_pos_bound c 64 ltac:(lia)).
  pose proof (Z.div_mod (c `div` 64) 64 ltac:(lia)).
  pose proof (Z.mod_pos_bound (c `div` 64) 64 ltac:(lia)).
  pose proof (Z.div_mod ((c `div` 64) `div` 64) 64 ltac:(lia)).
  pose proof (Z.mod_pos_bound ((c `div` 64) `div` 64) 64 ltac:(lia)).
  rewrite lor_F0 by lia.
  split; [repeat (constructor; [lia |]); constructor |].
  intros rest. cbn [app]. rewrite decode_4 by lia. f_equal. lia.
Qed.

Lemma utf8_roundtrip s bs :
  str_encode_utf8 s = Ok bs ->
  is_bytes bs /\ bytes_decode_utf8_replace bs = s.
Proof.
  revert bs. induction s as [| c s IH]; intros bs Henc.
  - injection Henc as <-. split; [constructor | done].
  - cbn [str_encode_utf8] in Henc.
    destruct (utf8_encode_char c) as [cb |] eqn:Hc; [| done].
    destruct (str_encode_utf8 s) as [rest |]; [| done].
    cbn [rbind] in Henc. injection Henc as <-.
    destruct (utf8_char_roundtrip c cb Hc) as [Hcb Hdec].
    destruct (IH rest eq_refl) as [Hrest Hs].
    split; [by apply Forall_app |]. by rewrite Hdec, Hs.
Qed.

(** ** Round trip *)

Lemma prepare_payload_spec message password mb :
  str_encode_utf8 message = Ok mb ->
  (exists pw, str_encode_utf8 password = Ok pw) ->
  Z.of_nat (length mb) < 2 ^ 32 ->
  exists header masked,
    prepare_payload message password = Ok (header ++ masked)
    /\ to_bytes4_big (Z.of_nat (length masked)) = Ok header
    /\ length masked = length mb
    /\ is_bytes masked
    /\ xor_with_password masked password = Ok mb.
Proof.
  intros Hmb [pw Hpw] Hlen.
  destruct (utf8_roundtrip _ _ Hmb) as [Hmbb _].
  destruct (utf8_roundtrip _ _ Hpw) as [Hpwb _].
  destruct (xor_with_password_spec mb password) as
    (masked & Hxor & Hlenm & Hback & Hbytes); [by exists pw |].
  unfold prepare_payload. rewrite Hmb. cbn [rbind]. rewrite Hxor. cbn [rbind].
  rewrite Hlenm. rewrite to_bytes4_big_ok by lia. cbn [rbind].
  eexists _, masked. split; [reflexivity |].
  rewrite Hlenm. split; [apply to_bytes4_big_ok; lia |]. auto.
Qed.

Lemma decode_payload_framed header masked password mb :
  to_bytes4_big (Z.of_nat (length masked)) = Ok header ->
  xor_with_password masked password = Ok mb ->
  decode_payload (header ++ masked) password
  = Ok (bytes_decode_utf8_replace mb).
Proof.
  intros Hheader Hxor.
  destruct (to_bytes4_big_spec _ _ Hheader) as (_ & Hlen4 & _ & _ & Hvalue).
  unfold decode_payload.
  rewrite length_app, Hlen4.
  destruct (Nat.ltb_spec (4 + length masked) 4); [lia |].
  rewrite take_app_length', drop_app_length' by done.
  rewrite Hvalue, Nat2Z.id, take_ge by lia.
  rewrite Z.eqb_refl. cbn [negb]. rewrite Hxor. reflexivity.
Qed.

(** Extraction returns the framed payload that was embedded. *)
Lemma decode_from_encoded (h h' : heap) (image out : ref) header masked
    bits method :
  bits ∈ [1; 2; 3] -> method ∈ SUPPORTED_METHODS ->
  let im := cell h image in
  0 <= width im -> 0 <= height im ->
  to_bytes4_big (Z.of_nat (length masked)) = Ok header ->
  is_bytes masked ->
  Z.of_nat (length masked) <= capacityBytes (width im) (height im) bits ->
  32 <= carrier_bits (width im) (height im) bits ->
  encode_payload_into_image image (header ++ masked) bits method h
  = (Ok out, h') ->
  decode_payload_from_image out bits method h' = (Ok (header ++ masked), h').
Proof.
  intros Hb Hm im Hw Hh Hheader Hmasked Hcap H32 Henc.
  destruct (to_bytes4_big_spec _ _ Hheader)
    as (Hrange & Hlen4 & Hhb & Hbits & _).
  set (total := carrier_bits (width im) (height im) bits) in *.
  assert (Z.of_nat (length (header ++ masked)) * 8 <= total) as Hfits.
  { rewrite length_app, Hlen4. unfold capacityBytes in Hcap.
    fold (carrier_bits (width im) (height im) bits) in Hcap. fold total in Hcap.
    pose proof (Z.mul_div_le total 8 ltac:(lia)). lia. }
  destruct (iter_bits_length im bits method Hb Hm Hw Hh)
    as (original & Horig & Horiglen & Horigbits).
  fold total in Horiglen.
  pose proof (iter_bits_encoded h h' image out (header ++ masked) bits method
                original Hb Hm Hw Hh Hfits Henc Horig) as Hstream.
  destruct (encode_payload_into_image_result h image (header ++ masked) bits
              method Hb Hm Hfits)
    as (order & h1 & _ & Henc' & _ & _ & Hsize & _).
  rewrite Henc in Henc'. injection Henc' as Hout <-.
  rewrite <- Hout in Hsize. fold im in Hsize.
  set (stream := _bytes_to_bits (header ++ masked)
                 ++ drop (length (_bytes_to_bits (header ++ masked))) original)
    in *.
  assert (length (_bytes_to_bits (header ++ masked))
          = (32 + 8 * length masked)%nat) as Hpblen.
  { rewrite length_bytes_to_bits, length_app, Hlen4. lia. }
  assert (Z.of_nat (length stream) = total) as Hstreamlen.
  { unfold stream. rewrite length_app, length_drop, Hpblen.
    rewrite length_app, Hlen4 in Hfits. lia. }
  assert (Forall is_bit stream) as Hstreambits.
  { unfold stream. apply Forall_app. split.
    - apply bytes_to_bits_are_bits.
    - by apply Forall_drop. }
  assert (width (cell h' out) = width im /\ height (cell h' out) = height im)
    as [Hw' Hh'] by (unfold width, height; by rewrite Hsize).
  assert (take 32 stream = _bytes_to_bits header) as Htake.
  { unfold stream. rewrite bytes_to_bits_app, <- app_assoc.
    apply take_app_length'. rewrite length_bytes_to_bits, Hlen4. done. }
  destruct (decode_payload_from_image_cases h' out bits method stream
              Hb Hm Hstream Hstreambits) as (_ & _ & Hgood).
  { rewrite Hw', Hh'. exact Hstreamlen. }
  rewrite Hw', Hh', Htake, Hbits, Hstreamlen in Hgood.
  destruct (Hgood H32 Hcap) as (_ & _ & header' & Hheader' & Hrun).
  rewrite Hheader in Hheader'. injection Hheader' as <-.
  rewrite Hrun. f_equal. f_equal. f_equal.
  unfold stream. rewrite bytes_to_bits_app, <- app_assoc.
  rewrite drop_app_length' by (rewrite length_bytes_to_bits, Hlen4; done).
  rewrite take_app_length' by (rewrite length_bytes_to_bits; lia).
  by apply bits_to_bytes_to_bits.
Qed.

(** C1, within the range of the header.  On an image at least 8 pixels
    wide and high, for a bit depth of 1, 2 or 3 and either method, for a
    password that can be encoded as UTF-8, and for a message whose UTF-8
    form has at most [capacityBytes] bytes and fewer than [2^32] bytes (so
    that its length fits the 4-byte header): embedding succeeds, and
    extracting from the image returned with the same password, bit depth
    and method gives back the message. *)
Theorem text_roundtrip (h : heap) (image : ref) (message password : list Z)
    (bits : Z) (method : string) (mb : list Z) :
  bits ∈ [1; 2; 3] -> method ∈ SUPPORTED_METHODS ->
  let im := cell h image in
  8 <= width im -> 8 <= height im ->
  str_encode_utf8 message = Ok mb ->
  (exists pw, str_encode_utf8 password = Ok pw) ->
  Z.of_nat (length mb) <= capacityBytes (width im) (height im) bits ->
  Z.of_nat (length mb) < 2 ^ 32 ->
  exists out h',
    encode_text_into_image image message password bits method h = (Ok out, h')
    /\ decode_text_from_image out password bits method h' = (Ok message, h').
Proof.
  intros Hb Hm im Hw Hh Hmb Hpw Hcap Hlen.
  destruct (prepare_payload_spec message password mb Hmb Hpw Hlen)
    as (header & masked & Hprep & Hheader & Hlenm & Hmasked & Hback).
  destruct (to_bytes4_big_spec _ _ Hheader) as (_ & Hlen4 & _).
  assert (0 <= bits * 3) as Hbits3
    by (destruct (valid_bits_cases _ Hb) as [-> | [-> | ->]]; lia).
  assert (192 <= carrier_bits (width im) (height im) bits) as Htotal.
  { unfold carrier_bits.
    assert (64 <= width im * height im) by nia.
    destruct (valid_bits_cases _ Hb) as [-> | [-> | ->]]; lia. }
  assert (Z.of_nat (length (header ++ masked)) * 8
          <= carrier_bits (width im) (height im) bits) as Hfits.
  { rewrite length_app, Hlen4, Hlenm. unfold capacityBytes in Hcap.
    fold (carrier_bits (width im) (height im) bits) in Hcap.
    pose proof (Z.mul_div_le (carrier_bits (width im) (height im) bits) 8
                  ltac:(lia)). lia. }
  destruct (encode_payload_into_image_result h image (header ++ masked) bits
              method Hb Hm Hfits) as (order & h' & _ & Henc & _).
  exists (next_ref h), h'. split.
  - unfold encode_text_into_image, bindM, lift. rewrite Hprep. exact Henc.
  - unfold decode_text_from_image, bindM, lift.
    rewrite (decode_from_encoded h h' image (next_ref h) header masked bits
               method Hb Hm); try done; try lia.
    + rewrite (decode_payload_framed header masked password mb) by done.
      destruct (utf8_roundtrip _ _ Hmb) as [_ ->]. reflexivity.
    + fold im. lia.
    + fold im. lia.
    + fold im. rewrite Hlenm. exact Hcap.
    + fold im. lia.
Qed.

Lemma text_roundtrip_witness :
  let im := mkImage (8, 8) (fun x y => (93 + x, 127, 149 + y)) in
  let h := mkHeap 1%nat (fun _ => im) in
  exists out h',
    encode_text_into_image 0%nat [0x68; 0x438] [0x70; 0x77] 2 "interleaved" h
    = (Ok out, h')
    /\ decode_text_from_image out [0x70; 0x77] 2 "interleaved" h'
       = (Ok [0x68; 0x438], h').
Proof.
  intros im h.
  apply (text_roundtrip h 0%nat [0x68; 0x438] [0x70; 0x77] 2 "interleaved"
           [0x68; 0xD0; 0xB8]).
  - in_list.
  - in_list.
  - cbn. lia.
  - cbn. lia.
  - reflexivity.
  - eexists. reflexivity.
  - vm_compute. discriminate.
  - reflexivity.
Defined.

Lemma str_encode_utf8_ascii (n : nat) :
  str_encode_utf8 (replicate n 0x61) = Ok (replicate n 0x61).
Proof.
  induction n as [| n IH]; [done |].
  cbn [replicate str_encode_utf8]. rewrite IH. reflexivity.
Qed.

Lemma prepare_payload_overflow (n : nat) :
  2 ^ 32 <= Z.of_nat n ->
  prepare_payload (replicate n 0x61) [] = Raise OverflowError.
Proof.
  intros Hn. unfold prepare_payload.
  rewrite str_encode_utf8_ascii. cbn [rbind xor_with_password].
  rewrite length_replicate. unfold to_bytes4_big.
  destruct (Z.ltb_spec (Z.of_nat n) 0); [lia |].
  destruct (Z.leb_spec (2 ^ 32) (Z.of_nat n)); [done | lia].
Qed.

(** Two inputs within the capacity on which the round trip of C1 is not
    available.  Where the capacity exceeds what the 4-byte header can
    count: on a 65536x65536 image at 3 bits per channel the capacity is
    4831838204 bytes, and a message of [2^32] letters "a" is within it, but
    its length does not fit [to_bytes(4, "big")], so the embedding raises
    [OverflowError] and returns no image to decode.  And for a password
    that UTF-8 cannot encode: with the lone surrogate U+D800 as password,
    masking the one-letter message "a" on an 8x8 image raises
    [UnicodeEncodeError]. *)
Lemma text_roundtrip_fails_beyond_header_range :
  let big := mkImage (65536, 65536) (fun _ _ => (0, 0, 0)) in
  let small := mkImage (8, 8) (fun _ _ => (0, 0, 0)) in
  let h_big := mkHeap 1%nat (fun _ => big) in
  let h_small := mkHeap 1%nat (fun _ => small) in
  let message := replicate (Z.to_nat (2 ^ 32)) 0x61 in
  (str_encode_utf8 message = Ok message
   /\ Z.of_nat (length message) = 2 ^ 32
   /\ max_message_bytes (size big) 3 = Ok 4831838204
   /\ encode_text_into_image 0%nat message [] 3 "sequential" h_big
      = (Raise OverflowError, h_big)
   /\ fst ((out <~ encode_text_into_image 0%nat message [] 3 "sequential" ;;
            decode_text_from_image out [] 3 "sequential") h_big)
      <> Ok message)
  /\ (str_encode_utf8 [0x61] = Ok [0x61]
      /\ max_message_bytes (size small) 1 = Ok 20
      /\ encode_text_into_image 0%nat [0x61] [0xD800] 1 "sequential" h_small
         = (Raise UnicodeEncodeError, h_small)
      /\ fst ((out <~ encode_text_into_image 0%nat [0x61] [0xD800] 1
                       "sequential" ;;
               decode_text_from_image out [0xD800] 1 "sequential") h_small)
         <> Ok [0x61]).
Proof.
  intros big small h_big h_small message. subst message. split.
  - assert (Z.of_nat (Z.to_nat (2 ^ 32)) = 2 ^ 32) as Hn by lia.
    generalize dependent (Z.to_nat (2 ^ 32)). intros n Hn.
    assert (encode_text_into_image 0%nat (replicate n 0x61) [] 3 "sequential"
              h_big = (Raise OverflowError, h_big)) as Henc.
    { unfold encode_text_into_image, bindM, lift.
      rewrite prepare_payload_overflow by lia. reflexivity. }
    split; [apply str_encode_utf8_ascii |].
    split; [by rewrite length_replicate |].
    split; [reflexivity |]. split; [exact Henc |].
    unfold bindM. rewrite Henc. discriminate.
  - split; [reflexivity |]. split; [reflexivity |].
    split; [reflexivity |]. discriminate.
Qed.

(** ** Extraction: what is read, and where *)

Lemma lookup_bind_const {A B} (f : A -> list B) (cs : list A) (n j s : nat)
    (c : A) :
  (forall a, length (f a) = n) -> cs !! j = Some c -> (s < n)%nat ->
  (cs ≫= f) !! (j * n + s)%nat = f c !! s.
Proof.
  intros Hlen. revert j. induction cs as [| a cs IH]; intros j Hj Hs; [done |].
  rewrite bind_cons. destruct j as [| j].
  - injection Hj as ->. rewrite lookup_app_l by (rewrite Hlen; lia). done.
  - rewrite lookup_app_r by (rewrite Hlen; lia). rewrite Hlen.
    replace (S j * n + s - n)%nat with (j * n + s)%nat by lia.
    by apply IH.
Qed.

Lemma carrier_order_lookup bits method order s :
  bits ∈ [1; 2; 3] -> method ∈ SUPPORTED_METHODS ->
  get_carrier_order bits method = Ok order ->
  0 <= s < 3 * bits ->
  order !! Z.to_nat s = Some (carrier_slot bits method s).
Proof.
  intros Hb Hm Horder Hs.
  destruct (valid_bits_cases _ Hb) as [-> | [-> | ->]];
    destruct (supported_cases _ Hm) as [-> | ->];
    vm_compute in Horder; injection Horder as <-;
    assert (s = 0 \/ s = 1 \/ s = 2 \/ s = 3 \/ s = 4 \/ s = 5 \/ s = 6
            \/ s = 7 \/ s = 8) as Hcases by lia;
    repeat (destruct Hcases as [-> | Hcases]; [first [reflexivity | lia] |]);
    subst; first [reflexivity | lia].
Qed.

Lemma read_pixel_lookup order (p : pixel) (s : nat) c b :
  order !! s = Some (c, b) -> 0 <= b ->
  read_pixel order p !! s = Some (Z.b2z (Z.testbit (channel_of p c) b)).
Proof.
  intros Hs Hb. unfold read_pixel.
  replace s with (s * 1 + 0)%nat by lia.
  rewrite (lookup_bind_const _ order 1 s 0 (c, b)); [| by intros [] | done | lia].
  cbn. by rewrite read_bit_testbit.
Qed.

(** The stream the generator yields, bit by bit. *)
Lemma iter_bits_lookup (im : Image) bits method stream k :
  bits ∈ [1; 2; 3] -> method ∈ SUPPORTED_METHODS ->
  0 <= width im -> 0 <= height im ->
  _iter_bits_from_image im bits method = Ok stream ->
  0 <= k < carrier_bits (width im) (height im) bits ->
  stream !! Z.to_nat k = Some (carrier_bit im bits method k).
Proof.
  intros Hb Hm Hw Hh Hstream Hk.
  destruct (carrier_order_facts bits method Hb Hm)
    as (order & Horder & Hlen & _ & Hslots).
  rewrite (iter_bits_coords im bits method order Horder) in Hstream.
  injection Hstream as <-.
  assert (0 < 3 * bits) as Hn
    by (destruct (valid_bits_cases _ Hb) as [-> | [-> | ->]]; lia).
  unfold carrier_bits in Hk.
  assert (0 < width im /\ 0 < height im) as [Hw' Hh'] by nia.
  set (n := 3 * bits) in *.
  set (p := k `div` n). set (s := k `mod` n).
  assert (k = p * n + s) as Hks
    by (unfold p, s; pose proof (Z.div_mod k n ltac:(lia)); lia).
  assert (0 <= s < n) as Hs by (apply Z.mod_pos_bound; lia).
  assert (0 <= p < width im * height im) as Hp.
  { split; [apply Z.div_pos; lia |].
    apply Z.div_lt_upper_bound; [lia |]. unfold n. lia. }
  set (x := p `mod` width im). set (y := p `div` width im).
  assert (p = y * width im + x) as Hpxy
    by (unfold x, y; pose proof (Z.div_mod p (width im) ltac:(lia)); lia).
  assert (0 <= x < width im) as Hx by (apply Z.mod_pos_bound; lia).
  assert (0 <= y < height im) as Hy.
  { split; [apply Z.div_pos; lia |].
    apply Z.div_lt_upper_bound; [lia |]. lia. }
  pose proof (lookup_coords (width im) (height im) x y Hx Hy) as Hxy.
  rewrite <- Hpxy in Hxy.
  pose proof (carrier_order_lookup bits method order s Hb Hm Horder Hs)
    as Hslot.
  unfold carrier_bit. fold n p s x y.
  destruct (carrier_slot bits method s) as [c b] eqn:Hcb.
  replace (Z.to_nat k) with (Z.to_nat p * length order + Z.to_nat s)%nat
    by (rewrite Hlen; fold n; nia).
  rewrite (lookup_bind_const _ _ (length order) (Z.to_nat p) (Z.to_nat s)
             (x, y)); [| | exact Hxy |].
  - cbn [fst snd]. apply read_pixel_lookup; [exact Hslot |].
    apply list_elem_of_lookup_2 in Hslot.
    rewrite Forall_forall in Hslots. apply Hslots in Hslot. cbn in Hslot. lia.
  - intros a. apply length_read_pixel.
  - rewrite Hlen. fold n. lia.
Qed.

Lemma bits_to_int_acc_big_endian bits acc :
  Forall is_bit bits ->
  fold_left (fun value bit => Z.lor (Z.shiftl value 1) bit) bits acc
  = acc * 2 ^ Z.of_nat (length bits) + big_endian bits.
Proof.
  intros Hbits. revert acc.
  induction Hbits as [| b bits Hb _ IH]; intros acc; [cbn; lia |].
  cbn [fold_left big_endian length]. rewrite IH, bits_to_int_step by done.
  rewrite Nat2Z.inj_succ, Z.pow_succ_r by lia. lia.
Qed.

Lemma bits_to_int_big_endian bits :
  Forall is_bit bits -> _bits_to_int bits = big_endian bits.
Proof.
  intros Hbits. unfold _bits_to_int.
  rewrite bits_to_int_acc_big_endian by done. lia.
Qed.

Lemma bits_to_bytes_lookup (bits : list Z) (j : nat) :
  (8 * j + 8 <= length bits)%nat ->
  _bits_to_bytes bits !! j = Some (_bits_to_int (take 8 (drop (8 * j) bits))).
Proof.
  revert bits. induction j as [| j IH]; intros bits Hlen;
    do 8 (destruct bits as [| ? bits]; [cbn in Hlen; lia |]).
  - reflexivity.
  - cbn [_bits_to_bytes]. rewrite lookup_cons.
    replace (8 * S j)%nat with (8 + 8 * j)%nat by lia.
    cbn [drop Nat.add]. apply IH. cbn in Hlen. lia.
Qed.

Lemma take_drop_take {A} (l : list A) (n m t : nat) :
  (m + n <= t)%nat -> take n (drop m (take t l)) = take n (drop m l).
Proof.
  intros Hle. rewrite !take_drop_commute, take_take. do 2 f_equal. lia.
Qed.

Lemma to_bytes4_big_bytes n header :
  to_bytes4_big n = Ok header ->
  header = [(n `div` 2 ^ 24) `mod` 256; (n `div` 2 ^ 16) `mod` 256;
            (n `div` 2 ^ 8) `mod` 256; n `mod` 256].
Proof.
  unfold to_bytes4_big. destruct (_ || _); [done |]. intros [= <-].
  by rewrite !land_255, !Z.shiftr_div_pow2 by lia.
Qed.

(** C6.  Extraction leaves the heap as it found it.  The bits it reads
    are the carrier bits of the image: bit number [k] is bit [b] of channel
    [c] of pixel number [k / (3 bits)] in row-major order, where [(c, b)]
    is the carrier address number [k mod (3 bits)] of the method.  It fails
    with "no header" exactly when the image has fewer than 32 carrier
    bits; otherwise the first 32 bits, read as a big-endian number, are the
    declared length, and it fails with "bad length" exactly when that
    length exceeds the capacity; otherwise it reads the next
    [8 * length] bits, which the image always still has, and returns the
    four big-endian bytes of the length followed by the bytes those bits
    spell, eight bits to a byte, most significant bit first.  The failure
    for a payload that stops short therefore occurs exactly when the bits
    run out, which after the two checks they never do. *)
Theorem decode_payload_from_image_spec (h : heap) (image : ref) (bits : Z)
    (method : string) :
  bits ∈ [1; 2; 3] -> method ∈ SUPPORTED_METHODS ->
  0 <= width (cell h image) -> 0 <= height (cell h image) ->
  let im := cell h image in
  let total := carrier_bits (width im) (height im) bits in
  let cap := capacityBytes (width im) (height im) bits in
  let run := decode_payload_from_image image bits method h in
  snd run = h
  /\ exists stream,
       _iter_bits_from_image im bits method = Ok stream
       /\ Z.of_nat (length stream) = total
       /\ (forall k, 0 <= k < total ->
             stream !! Z.to_nat k = Some (carrier_bit im bits method k))
       /\ let declared := big_endian (take 32 stream) in
          (fst run = Raise (ValueError no_header_message) <-> total < 32)
          /\ (32 <= total ->
              (fst run = Raise (ValueError bad_length_message)
               <-> cap < declared))
          /\ (32 <= total -> declared <= cap ->
              0 <= declared
              /\ 8 * declared <= total - 32
              /\ exists payload,
                   Z.of_nat (length payload) = declared
                   /\ (forall j, 0 <= j < declared ->
                         payload !! Z.to_nat j
                         = Some (big_endian
                                   (take 8 (drop (Z.to_nat (32 + 8 * j))
                                                 stream))))
                   /\ fst run
                      = Ok ([(declared `div` 2 ^ 24) `mod` 256;
                             (declared `div` 2 ^ 16) `mod` 256;
                             (declared `div` 2 ^ 8) `mod` 256;
                             declared `mod` 256] ++ payload))
          /\ (fst run = Raise (ValueError incomplete_message)
              <-> 32 <= total /\ declared <= cap /\ total - 32 < 8 * declared).
Proof.
  intros Hb Hm Hw Hh im total cap run.
  destruct (iter_bits_length im bits method Hb Hm Hw Hh)
    as (stream & Hstream & Hlen & Hbits).
  destruct (decode_payload_from_image_cases h image bits method stream
              Hb Hm Hstream Hbits Hlen) as (Hshort & Hbad & Hgood).
  fold im in Hshort, Hbad, Hgood. fold cap in Hbad, Hgood.
  fold run in Hshort, Hbad, Hgood. rewrite Hlen in Hshort, Hbad, Hgood.
  fold total in Hshort, Hbad, Hgood.
  rewrite (bits_to_int_big_endian (take 32 stream)) in Hbad, Hgood
    by (by apply Forall_take).
  set (declared := big_endian (take 32 stream)) in *.
  set (body := _bits_to_bytes
                 (take (Z.to_nat (declared * 8)) (drop 32 stream))) in *.
  assert (snd run = h
          /\ (total < 32 -> fst run = Raise (ValueError no_header_message))
          /\ (32 <= total -> cap < declared ->
              fst run = Raise (ValueError bad_length_message))
          /\ (32 <= total -> declared <= cap ->
              0 <= declared
              /\ 8 * declared <= total - 32
              /\ exists header,
                   to_bytes4_big declared = Ok header
                   /\ fst run = Ok (header ++ body)))
    as (Hheap & Hshort' & Hbad' & Hgood').
  { destruct (Z.lt_ge_cases total 32) as [H32 | H32].
    - rewrite (Hshort H32). cbn. repeat split; intros; try lia; done.
    - destruct (Z.lt_ge_cases cap declared) as [Hc | Hc].
      + rewrite (Hbad H32 Hc). cbn. repeat split; intros; try lia; done.
      + destruct (Hgood H32 Hc) as (Hrange & Hroom & header & Hheader & Hrun).
        rewrite Hrun. cbn. repeat split; intros; try lia; eauto. }
  split; [exact Hheap |].
  exists stream. split; [exact Hstream |]. split; [exact Hlen |].
  split.
  { intros k Hk. by apply iter_bits_lookup. }
  cbv zeta. fold declared.
  split; [| split; [| split]].
  - split; [| exact Hshort'].
    intros Hrun. destruct (Z.lt_ge_cases total 32) as [H32 | H32]; [done |].
    destruct (Z.lt_ge_cases cap declared) as [Hc | Hc].
    + rewrite (Hbad' H32 Hc) in Hrun. discriminate.
    + destruct (Hgood' H32 Hc) as (_ & _ & header & _ & Hok).
      rewrite Hok in Hrun. discriminate.
  - intros H32. split; [| exact (Hbad' H32)].
    intros Hrun. destruct (Z.lt_ge_cases cap declared) as [Hc | Hc]; [done |].
    destruct (Hgood' H32 Hc) as (_ & _ & header & _ & Hok).
    rewrite Hok in Hrun. discriminate.
  - intros H32 Hc.
    destruct (Hgood' H32 Hc) as (Hnn & Hroom & header & Hheader & Hok).
    split; [exact Hnn |]. split; [exact Hroom |].
    assert (length (take (Z.to_nat (declared * 8)) (drop 32 stream))
            = (8 * Z.to_nat declared)%nat) as Htaken
      by (rewrite length_take, length_drop; lia).
    exists body. split; [| split].
    + unfold body. rewrite (bits_to_bytes_length _ (Z.to_nat declared)); lia.
    + intros j Hj. unfold body.
      rewrite bits_to_bytes_lookup by (rewrite Htaken; lia).
      rewrite bits_to_int_big_endian
        by (apply Forall_take, Forall_drop, Forall_take, Forall_drop, Hbits).
      rewrite take_drop_take by lia. rewrite drop_drop.
      do 4 f_equal. lia.
    + rewrite Hok. by rewrite (to_bytes4_big_bytes _ _ Hheader).
  - split.
    + intros Hrun. exfalso.
      destruct (Z.lt_ge_cases total 32) as [H32 | H32].
      { rewrite (Hshort' H32) in Hrun. discriminate. }
      destruct (Z.lt_ge_cases cap declared) as [Hc | Hc].
      { rewrite (Hbad' H32 Hc) in Hrun. discriminate. }
      destruct (Hgood' H32 Hc) as (_ & _ & header & _ & Hok).
      rewrite Hok in Hrun. discriminate.
    + intros (H32 & Hc & Hout).
      destruct (Hgood' H32 Hc) as (_ & Hroom & _). lia.
Qed.

Lemma decode_payload_from_image_spec_witness :
  let im := mkImage (8, 8) (fun _ _ => (93, 127, 149)) in
  let h := mkHeap 1%nat (fun _ => im) in
  snd (decode_payload_from_image 0%nat 1 "sequential" h) = h
  /\ fst (decode_payload_from_image 0%nat 1 "sequential" h)
     = Raise (ValueError bad_length_message).
Proof.
  intros im h.
  destruct (decode_payload_from_image_spec h 0%nat 1 "sequential")
    as (Hheap & stream & Hstream & _ & _ & Hcases).
  - in_list.
  - in_list.
  - cbn. lia.
  - cbn. lia.
  - split; [exact Hheap |].
    vm_compute in Hstream. injection Hstream as <-.
    cbv zeta in Hcases. destruct Hcases as (_ & Hbad & _).
    apply Hbad; [vm_compute; discriminate | vm_compute; reflexivity].
Defined.

(** * Further properties of the codec *)

(** ** The password mask and the parameter checks *)

Lemma encodable_is_bytes (s : list Z) :
  (exists bs, str_encode_utf8 s = Ok bs) ->
  exists bs, str_encode_utf8 s = Ok bs /\ is_bytes bs.
Proof.
  intros [bs Hbs]. exists bs. split; [done |].
  by destruct (utf8_roundtrip s bs Hbs).
Qed.

(** X1.  Masking with a password that UTF-8 can encode keeps the length,
    keeps bytes bytes, and undoes itself when applied again; the empty
    password masks nothing.  A password that cannot be encoded makes the
    mask raise the encoder's error. *)
Theorem xor_with_password_involution (data password : list Z) :
  ((exists pw, str_encode_utf8 password = Ok pw) ->
   exists masked,
     xor_with_password data password = Ok masked
     /\ length masked = length data
     /\ xor_with_password masked password = Ok data
     /\ (is_bytes data -> is_bytes masked)
     /\ (password = [] -> masked = data))
  /\ (forall e, str_encode_utf8 password = Raise e ->
        xor_with_password data password = Raise e).
Proof.
  split.
  - intros Hpw. apply encodable_is_bytes in Hpw.
    destruct (xor_with_password_spec data password Hpw)
      as (masked & Hxor & Hlen & Hback & Hbytes).
    exists masked. repeat (split; [assumption |]).
    intros ->. cbn in Hxor. congruence.
  - intros e He. destruct password as [| c password]; [discriminate |].
    unfold xor_with_password. by rewrite He.
Qed.

Lemma xor_with_password_involution_witness :
  xor_with_password [0x68; 0x69] [0x70; 0x77] = Ok [0x18; 0x1E]
  /\ xor_with_password [0x18; 0x1E] [0x70; 0x77] = Ok [0x68; 0x69].
Proof.
  destruct (xor_with_password_involution [0x68; 0x69] [0x70; 0x77])
    as [Hok _].
  destruct Hok as (masked & Hxor & _ & Hback & _); [by eexists |].
  assert (masked = [0x18; 0x1E]) as -> by (vm_compute in Hxor; congruence).
  split; assumption.
Defined.

(** X2.  [get_carrier_order] returns an order exactly for a bit depth of
    1, 2 or 3 and a supported method.  A bad bit depth is reported first,
    whatever the method; otherwise an unknown method is reported by
    name. *)
Theorem get_carrier_order_outcomes (bits : Z) (method : string) :
  (bits ∉ [1; 2; 3] ->
   get_carrier_order bits method = Raise (ValueError bad_bits_message))
  /\ (bits ∈ [1; 2; 3] -> method ∉ SUPPORTED_METHODS ->
      get_carrier_order bits method
      = Raise (ValueError (bad_method_message method)))
  /\ (bits ∈ [1; 2; 3] -> method ∈ SUPPORTED_METHODS ->
      exists order, get_carrier_order bits method = Ok order
                    /\ Z.of_nat (length order) = 3 * bits).
Proof.
  unfold get_carrier_order. split; [| split].
  - intros Hb. by rewrite validate_bad_bits.
  - intros Hb Hm. unfold validate_bits_and_method.
    rewrite bool_decide_eq_true_2 by done.
    by rewrite bool_decide_eq_false_2.
  - intros Hb Hm.
    destruct (carrier_order_facts bits method Hb Hm) as (order & Ho & Hlen & _).
    exists order. split; [exact Ho |]. rewrite Hlen.
    destruct (valid_bits_cases _ Hb) as [-> | [-> | ->]]; reflexivity.
Qed.

Lemma get_carrier_order_outcomes_witness :
  get_carrier_order 4 "zigzag" = Raise (ValueError bad_bits_message)
  /\ get_carrier_order 2 "zigzag"
     = Raise (ValueError (bad_method_message "zigzag")).
Proof.
  split.
  - apply (get_carrier_order_outcomes 4 "zigzag").
    rewrite !elem_of_cons, elem_of_nil. lia.
  - apply (get_carrier_order_outcomes 2 "zigzag"); [in_list |].
    unfold SUPPORTED_METHODS. rewrite !elem_of_cons, elem_of_nil.
    intros [H | [H | []]]; discriminate.
Defined.

(** ** Framing *)

Lemma from_bytes_big_nonneg (data : list Z) :
  is_bytes data -> 0 <= from_bytes_big data.
Proof.
  intros Hdata. unfold from_bytes_big. rewrite from_bytes_big_sum by done.
  assert (forall acc, 0 <= acc ->
            0 <= fold_left (fun value b => value * 256 + b) data acc) as H.
  { induction Hdata as [| b data Hb _ IH]; intros acc Hacc; [done |].
    cbn [fold_left]. apply IH. lia. }
  apply H. lia.
Qed.

(** X3.  For a message and a password that UTF-8 can encode,
    [prepare_payload] raises [OverflowError] when the encoded message has
    [2^32] bytes or more, and otherwise returns four header bytes followed
    by a masked body as long as the encoded message; the header, read
    big-endian, is that length, and all of the payload is bytes. *)
Theorem prepare_payload_frame (message password mb : list Z) :
  str_encode_utf8 message = Ok mb ->
  (exists pw, str_encode_utf8 password = Ok pw) ->
  (2 ^ 32 <= Z.of_nat (length mb) ->
   prepare_payload message password = Raise OverflowError)
  /\ (Z.of_nat (length mb) < 2 ^ 32 ->
      exists header body,
        prepare_payload message password = Ok (header ++ body)
        /\ length header = 4%nat
        /\ length body = length mb
        /\ from_bytes_big header = Z.of_nat (length mb)
        /\ xor_with_password body password = Ok mb
        /\ is_bytes (header ++ body)).
Proof.
  intros Hmb Hpw. split.
  - intros Hbig. apply encodable_is_bytes in Hpw.
    destruct (xor_with_password_spec mb password Hpw)
      as (masked & Hxor & Hlen & _).
    unfold prepare_payload. rewrite Hmb. cbn [rbind]. rewrite Hxor.
    cbn [rbind]. rewrite Hlen. unfold to_bytes4_big.
    destruct (Z.ltb_spec (Z.of_nat (length mb)) 0); [lia |].
    destruct (Z.leb_spec (2 ^ 32) (Z.of_nat (length mb))); [done | lia].
  - intros Hsmall.
    destruct (prepare_payload_spec message password mb Hmb Hpw Hsmall)
      as (header & body & Hprep & Hheader & Hlen & Hbody & Hback).
    destruct (to_bytes4_big_spec _ _ Hheader) as (_ & Hlen4 & Hhb & _ & Hval).
    exists header, body. split; [exact Hprep |]. split; [exact Hlen4 |].
    split; [exact Hlen |]. split; [by rewrite Hval, Hlen |].
    split; [exact Hback |]. by apply Forall_app.
Qed.

Lemma prepare_payload_frame_witness :
  exists header body,
    prepare_payload [0x68; 0x438] [0x70] = Ok (header ++ body)
    /\ length header = 4%nat
    /\ from_bytes_big header = 3.
Proof.
  destruct (prepare_payload_frame [0x68; 0x438] [0x70] [0x68; 0xD0; 0xB8])
    as [_ Hok]; [reflexivity | by eexists |].
  destruct Hok as (header & body & Hprep & Hlen & _ & Hval & _);
    [cbn; lia |].
  exists header, body. auto.
Defined.

Lemma decode_payload_framed_trailing header masked trailing password mb :
  to_bytes4_big (Z.of_nat (length masked)) = Ok header ->
  xor_with_password masked password = Ok mb ->
  decode_payload (header ++ masked ++ trailing) password
  = Ok (bytes_decode_utf8_replace mb).
Proof.
  intros Hheader Hxor.
  destruct (to_bytes4_big_spec _ _ Hheader) as (_ & Hlen4 & _ & _ & Hvalue).
  unfold decode_payload.
  rewrite !length_app, Hlen4.
  destruct (Nat.ltb_spec (4 + (length masked + length trailing)) 4); [lia |].
  rewrite take_app_length', drop_app_length' by done.
  rewrite Hvalue, Nat2Z.id, take_app_length.
  rewrite Z.eqb_refl. cbn [negb]. rewrite Hxor. reflexivity.
Qed.

Lemma prepare_payload_inv message password payload :
  prepare_payload message password = Ok payload ->
  exists mb header masked,
    str_encode_utf8 message = Ok mb
    /\ xor_with_password mb password = Ok masked
    /\ to_bytes4_big (Z.of_nat (length masked)) = Ok header
    /\ payload = header ++ masked.
Proof.
  unfold prepare_payload. intros Hprep.
  destruct (str_encode_utf8 message) as [mb |] eqn:Hmb; [| done].
  cbn [rbind] in Hprep.
  destruct (xor_with_password mb password) as [masked |] eqn:Hxor; [| done].
  cbn [rbind] in Hprep.
  destruct (to_bytes4_big _) as [header |] eqn:Hh; [| done].
  cbn [rbind] in Hprep. injection Hprep as <-.
  exists mb, header, masked. by repeat split.
Qed.

Lemma xor_with_password_Ok_encodable data password masked :
  xor_with_password data password = Ok masked ->
  exists pw, str_encode_utf8 password = Ok pw.
Proof.
  destruct password as [| c password]; [by eexists |].
  unfold xor_with_password.
  destruct (str_encode_utf8 (c :: password)) as [pw |]; [eauto | done].
Qed.

(** X4.  Unframing undoes framing: whatever [prepare_payload] returns for
    a message, [decode_payload] with the same password turns back into the
    message, also when further bytes follow the payload. *)
Theorem decode_payload_prepare_payload
    (message password payload trailing : list Z) :
  prepare_payload message password = Ok payload ->
  decode_payload (payload ++ trailing) password = Ok message.
Proof.
  intros Hprep.
  apply prepare_payload_inv in Hprep
    as (mb & header & masked & Hmb & Hxor & Hheader & ->).
  pose proof (xor_with_password_Ok_encodable _ _ _ Hxor) as Hpw.
  apply encodable_is_bytes in Hpw.
  destruct (xor_with_password_spec mb password Hpw)
    as (masked' & Hxor' & _ & Hback & _).
  rewrite Hxor in Hxor'. injection Hxor' as <-.
  rewrite <- app_assoc.
  rewrite (decode_payload_framed_trailing header masked trailing password mb)
    by done.
  by destruct (utf8_roundtrip _ _ Hmb) as [_ ->].
Qed.

Lemma decode_payload_prepare_payload_witness :
  decode_payload ([0; 0; 0; 3; 0x18; 0xA0; 0xC8] ++ [1; 2; 3]) [0x70]
  = Ok [0x68; 0x438].
Proof.
  apply (decode_payload_prepare_payload [0x68; 0x438] [0x70]).
  reflexivity.
Defined.

(** X5.  On a byte string and with a password that can be encoded,
    [decode_payload] fails with "too little data" exactly when fewer than
    four bytes are given, fails with "incomplete message" exactly when the
    header declares more bytes than follow it, and returns a text in every
    other case. *)
Theorem decode_payload_outcomes (payload password : list Z) :
  is_bytes payload ->
  (exists pw, str_encode_utf8 password = Ok pw) ->
  let declared := from_bytes_big (take 4 payload) in
  ((length payload < 4)%nat ->
   decode_payload payload password = Raise (ValueError short_data_message))
  /\ ((4 <= length payload)%nat ->
      Z.of_nat (length payload) - 4 < declared ->
      decode_payload payload password
      = Raise (ValueError incomplete_message))
  /\ ((4 <= length payload)%nat ->
      declared <= Z.of_nat (length payload) - 4 ->
      exists text, decode_payload payload password = Ok text).
Proof.
  intros Hbytes Hpw declared.
  assert (0 <= declared) as Hnn
    by (apply from_bytes_big_nonneg; by apply Forall_take).
  unfold decode_payload. fold declared. split; [| split].
  - intros Hshort.
    destruct (Nat.ltb_spec (length payload) 4); [done | lia].
  - intros Hlong Hmore.
    destruct (Nat.ltb_spec (length payload) 4); [lia |].
    rewrite length_take, length_drop.
    destruct (Z.eqb_spec
                (Z.of_nat (Z.to_nat declared `min` (length payload - 4)))
                declared); [lia | done].
  - intros Hlong Hfits.
    destruct (Nat.ltb_spec (length payload) 4); [lia |].
    rewrite length_take, length_drop.
    destruct (Z.eqb_spec
                (Z.of_nat (Z.to_nat declared `min` (length payload - 4)))
                declared); [| lia].
    cbn [negb]. apply encodable_is_bytes in Hpw.
    destruct (xor_with_password_spec
                (take (Z.to_nat declared) (drop 4 payload)) password Hpw)
      as (plain & -> & _).
    eexists. reflexivity.
Qed.

Lemma decode_payload_outcomes_witness :
  decode_payload [0; 0; 1] [] = Raise (ValueError short_data_message)
  /\ decode_payload [0; 0; 0; 5; 0x68] []
     = Raise (ValueError incomplete_message).
Proof.
  split.
  - apply (decode_payload_outcomes [0; 0; 1] []).
    + repeat (constructor; [lia |]). constructor.
    + by eexists.
    + cbn. lia.
  - apply (decode_payload_outcomes [0; 0; 0; 5; 0x68] []).
    + repeat (constructor; [lia |]). constructor.
    + by eexists.
    + cbn. lia.
    + vm_compute. reflexivity.
Defined.

(** ** Bits and bytes *)

Lemma bits_to_bytes_short (tail : list Z) :
  (length tail < 8)%nat -> _bits_to_bytes tail = [].
Proof.
  intros Hlen. do 8 (destruct tail as [| ? tail]; [done |]).
  cbn in Hlen. lia.
Qed.

Lemma bits_to_bytes_app_tail (data tail : list Z) :
  is_bytes data -> (length tail < 8)%nat ->
  _bits_to_bytes (_bytes_to_bits data ++ tail) = data.
Proof.
  intros Hdata Htail. induction Hdata as [| b data Hb _ IH].
  - by apply bits_to_bytes_short.
  - rewrite bytes_to_bits_cons. cbn [app _bits_to_bytes]. rewrite IH. f_equal.
    unfold _bits_to_int. rewrite byte_bits_fold by done. lia.
Qed.

(** X6.  The bits of a byte string, most significant bit first, are eight
    per byte and spell its big-endian number; assembling them gives the
    byte string back, and up to seven further bits after them are
    dropped. *)
Theorem bits_to_bytes_bytes_to_bits (data tail : list Z) :
  is_bytes data -> (length tail < 8)%nat ->
  _bits_to_bytes (_bytes_to_bits data ++ tail) = data
  /\ length (_bytes_to_bits data) = (8 * length data)%nat
  /\ Forall is_bit (_bytes_to_bits data)
  /\ _bits_to_int (_bytes_to_bits data) = from_bytes_big data.
Proof.
  intros Hdata Htail. split; [by apply bits_to_bytes_app_tail |].
  split; [apply length_bytes_to_bits |].
  split; [apply bytes_to_bits_are_bits |].
  unfold _bits_to_int, from_bytes_big.
  rewrite bits_to_int_bytes, from_bytes_big_sum by done. reflexivity.
Qed.

Lemma bits_to_bytes_bytes_to_bits_witness :
  _bits_to_bytes (_bytes_to_bits [0xD0; 0xB8] ++ [1; 0; 1]) = [0xD0; 0xB8]
  /\ _bits_to_int (_bytes_to_bits [0xD0; 0xB8]) = 0xD0B8.
Proof.
  destruct (bits_to_bytes_bytes_to_bits [0xD0; 0xB8] [1; 0; 1])
    as (Hback & _ & _ & Hint).
  - repeat (constructor; [lia |]). constructor.
  - cbn. lia.
  - split; [exact Hback | exact Hint].
Defined.

(** X7.  Assembling any list of bits gives one byte for every full group
    of eight, each in the range of a byte; an incomplete last group gives
    nothing. *)
Theorem bits_to_bytes_shape (bits : list Z) :
  Forall is_bit bits ->
  length (_bits_to_bytes bits) = (length bits / 8)%nat
  /\ is_bytes (_bits_to_bytes bits).
Proof.
  remember (length bits) as n eqn:Hn. revert bits Hn.
  induction n as [n IH] using lt_wf_ind. intros bits Hn Hbits.
  destruct (Nat.lt_ge_cases n 8) as [Hshort | Hlong].
  - rewrite bits_to_bytes_short by lia.
    rewrite Nat.div_small by lia. split; [done | constructor].
  - do 8 (destruct bits as [| ? bits]; [cbn in Hn; lia |]).
    cbn [_bits_to_bytes length] in *.
    do 8 (apply Forall_cons in Hbits as [? Hbits]).
    destruct (IH (length bits) ltac:(lia) bits eq_refl Hbits) as [Hlen Hbytes].
    split.
    + rewrite Hlen. subst n.
      replace (S (S (S (S (S (S (S (S (length bits)))))))))
        with (length bits + 1 * 8)%nat by lia.
      rewrite Nat.div_add by lia. lia.
    + constructor; [| exact Hbytes].
      match goal with
      | |- 0 <= _bits_to_int ?chunk < 256 =>
          pose proof (bits_to_int_bound chunk) as Hbound
      end.
      cbn [length] in Hbound. apply Hbound.
      repeat (constructor; [assumption |]). constructor.
Qed.

Lemma bits_to_bytes_shape_witness :
  length (_bits_to_bytes [1; 0; 0; 0; 0; 0; 0; 1; 1; 1; 1]) = 1%nat
  /\ is_bytes (_bits_to_bytes [1; 0; 0; 0; 0; 0; 0; 1; 1; 1; 1]).
Proof.
  apply (bits_to_bytes_shape [1; 0; 0; 0; 0; 0; 0; 1; 1; 1; 1]).
  repeat (constructor; [unfold is_bit; lia |]). constructor.
Defined.

(** ** Embedding and extraction *)

Lemma framed_fits (w h bits len : Z) :
  32 <= carrier_bits w h bits ->
  (len <= capacityBytes w h bits <-> (len + 4) * 8 <= carrier_bits w h bits).
Proof.
  intros H32. unfold capacityBytes. fold (carrier_bits w h bits).
  set (total := carrier_bits w h bits) in *.
  pose proof (Z.mul_div_le total 8 ltac:(lia)).
  pose proof (Z.mul_succ_div_gt total 8 ltac:(lia)).
  lia.
Qed.

Lemma encode_then_extract (h : heap) (image : ref) (header body : list Z)
    bits method :
  bits ∈ [1; 2; 3] -> method ∈ SUPPORTED_METHODS ->
  let im := cell h image in
  0 <= width im -> 0 <= height im ->
  is_bytes body ->
  to_bytes4_big (Z.of_nat (length body)) = Ok header ->
  (Z.of_nat (length body) + 4) * 8 <= carrier_bits (width im) (height im) bits ->
  exists h',
    encode_payload_into_image image (header ++ body) bits method h
    = (Ok (next_ref h), h')
    /\ next_ref h' = S (next_ref h)
    /\ (forall r, r <> next_ref h -> cell h' r = cell h r)
    /\ size (cell h' (next_ref h)) = size im
    /\ decode_payload_from_image (next_ref h) bits method h'
       = (Ok (header ++ body), h').
Proof.
  intros Hb Hm im Hw Hh Hbody Hheader Hfits.
  destruct (to_bytes4_big_spec _ _ Hheader) as (_ & Hlen4 & _).
  assert (Z.of_nat (length (header ++ body)) * 8
          <= carrier_bits (width im) (height im) bits) as Hfits'
    by (rewrite length_app, Hlen4; lia).
  destruct (encode_payload_into_image_result h image (header ++ body) bits
              method Hb Hm Hfits')
    as (order & h' & _ & Henc & Hnext & Hother & Hsize & _).
  exists h'. repeat (split; [assumption |]).
  apply (decode_from_encoded h h' image (next_ref h) header body bits method
           Hb Hm Hw Hh Hheader Hbody); [| fold im; lia | exact Henc].
  apply framed_fits; fold im; lia.
Qed.

(** X8.  A framed payload (a 4-byte big-endian length and as many bytes)
    that fits the carrier bits of an image, of whatever size, is extracted
    unchanged from the image the embedding returns, with the same bit
    depth and method. *)
Theorem payload_roundtrip (h : heap) (image : ref) (header body : list Z)
    (bits : Z) (method : string) :
  bits ∈ [1; 2; 3] -> method ∈ SUPPORTED_METHODS ->
  let im := cell h image in
  0 <= width im -> 0 <= height im ->
  is_bytes body ->
  to_bytes4_big (Z.of_nat (length body)) = Ok header ->
  (Z.of_nat (length body) + 4) * 8 <= carrier_bits (width im) (height im) bits ->
  exists out h',
    encode_payload_into_image image (header ++ body) bits method h
    = (Ok out, h')
    /\ decode_payload_from_image out bits method h' = (Ok (header ++ body), h').
Proof.
  intros Hb Hm im Hw Hh Hbody Hheader Hfits.
  destruct (encode_then_extract h image header body bits method
              Hb Hm Hw Hh Hbody Hheader Hfits)
    as (h' & Henc & _ & _ & _ & Hdec).
  by exists (next_ref h), h'.
Qed.

Lemma payload_roundtrip_witness :
  let im := mkImage (4, 3) (fun x y => (10 * x, 255 - y, 77)) in
  let h := mkHeap 1%nat (fun _ => im) in
  exists out h',
    encode_payload_into_image 0%nat ([0; 0; 0; 5] ++ [1; 2; 3; 4; 255])
                              2 "sequential" h
    = (Ok out, h')
    /\ decode_payload_from_image out 2 "sequential" h'
       = (Ok ([0; 0; 0; 5] ++ [1; 2; 3; 4; 255]), h').
Proof.
  intros im h.
  apply (payload_roundtrip h 0%nat [0; 0; 0; 5] [1; 2; 3; 4; 255]
           2 "sequential").
  - in_list.
  - in_list.
  - cbn. lia.
  - cbn. lia.
  - repeat (constructor; [lia |]). constructor.
  - reflexivity.
  - vm_compute. discriminate.
Defined.

(** X9.  After an embedding that fits, the carrier bits of the returned
    image, in reading order, are the payload's bits followed by the
    original image's carrier bits from that position on. *)
Theorem carrier_stream_after_embedding (h : heap) (image : ref)
    (payload : list Z) (bits : Z) (method : string) :
  bits ∈ [1; 2; 3] -> method ∈ SUPPORTED_METHODS ->
  let im := cell h image in
  0 <= width im -> 0 <= height im ->
  Z.of_nat (length payload) * 8 <= carrier_bits (width im) (height im) bits ->
  exists out h' original,
    encode_payload_into_image image payload bits method h = (Ok out, h')
    /\ _iter_bits_from_image im bits method = Ok original
    /\ Z.of_nat (length original) = carrier_bits (width im) (height im) bits
    /\ _iter_bits_from_image (cell h' out) bits method
       = Ok (_bytes_to_bits payload ++ drop (8 * length payload) original).
Proof.
  intros Hb Hm im Hw Hh Hfits.
  destruct (encode_payload_into_image_result h image payload bits method
              Hb Hm Hfits) as (order & h' & _ & Henc & _).
  destruct (iter_bits_length im bits method Hb Hm Hw Hh)
    as (original & Horig & Hlen & _).
  exists (next_ref h), h', original. repeat (split; [assumption |]).
  rewrite <- length_bytes_to_bits.
  by apply (iter_bits_encoded h h' image).
Qed.

Lemma carrier_stream_after_embedding_witness :
  let im := mkImage (2, 2) (fun x y => (10 * x, 255 - y, 77)) in
  let h := mkHeap 1%nat (fun _ => im) in
  exists out h' original,
    encode_payload_into_image 0%nat [0xA5] 1 "interleaved" h = (Ok out, h')
    /\ _iter_bits_from_image im 1 "interleaved" = Ok original
    /\ Z.of_nat (length original) = carrier_bits 2 2 1
    /\ _iter_bits_from_image (cell h' out) 1 "interleaved"
       = Ok (_bytes_to_bits [0xA5] ++ drop 8 original).
Proof.
  intros im h.
  apply (carrier_stream_after_embedding h 0%nat [0xA5] 1 "interleaved").
  - in_list.
  - in_list.
  - cbn. lia.
  - cbn. lia.
  - vm_compute. discriminate.
Defined.

(** X10.  [encode_payload_into_image] checks the bit depth first, the
    method second and the size of the payload third; each failure leaves
    every image object as it was and creates none.  When all three checks
    pass it returns a new image object. *)
Theorem encode_payload_into_image_outcomes (h : heap) (image : ref)
    (payload : list Z) (bits : Z) (method : string) :
  let im := cell h image in
  let total := fst (size im) * snd (size im) * 3 * bits in
  let payload_bits := Z.of_nat (length payload) * 8 in
  let run := encode_payload_into_image image payload bits method h in
  (bits ∉ [1; 2; 3] -> run = (Raise (ValueError bad_bits_message), h))
  /\ (bits ∈ [1; 2; 3] -> method ∉ SUPPORTED_METHODS ->
      run = (Raise (ValueError (bad_method_message method)), h))
  /\ (bits ∈ [1; 2; 3] -> method ∈ SUPPORTED_METHODS ->
      total < payload_bits ->
      run = (Raise (ValueError (too_large_message payload_bits total)), h))
  /\ (bits ∈ [1; 2; 3] -> method ∈ SUPPORTED_METHODS ->
      payload_bits <= total ->
      exists h', run = (Ok (next_ref h), h')
                 /\ next_ref h' = S (next_ref h)).
Proof.
  intros im total payload_bits run. subst run. split; [| split; [| split]].
  - intros Hb. unfold encode_payload_into_image, bindM, lift.
    by rewrite validate_bad_bits.
  - intros Hb Hm. unfold encode_payload_into_image, bindM, lift.
    unfold validate_bits_and_method.
    rewrite bool_decide_eq_true_2 by done.
    by rewrite bool_decide_eq_false_2.
  - intros Hb Hm Hbig.
    by apply (encode_payload_into_image_check h image payload bits method
                Hb Hm).
  - intros Hb Hm Hfits.
    destruct (encode_payload_into_image_result h image payload bits method
                Hb Hm Hfits) as (order & h' & _ & Henc & Hnext & _).
    by exists h'.
Qed.

Lemma encode_payload_into_image_outcomes_witness :
  let im := mkImage (2, 2) (fun x y => (10 * x, 255 - y, 77)) in
  let h := mkHeap 1%nat (fun _ => im) in
  encode_payload_into_image 0%nat [1; 2] 0 "zigzag" h
  = (Raise (ValueError bad_bits_message), h)
  /\ encode_payload_into_image 0%nat [1; 2] 1 "sequential" h
     = (Raise (ValueError (too_large_message 16 12)), h).
Proof.
  intros im h. split.
  - apply (encode_payload_into_image_outcomes h 0%nat [1; 2] 0 "zigzag").
    rewrite !elem_of_cons, elem_of_nil. lia.
  - apply (encode_payload_into_image_outcomes h 0%nat [1; 2] 1 "sequential").
    + in_list.
    + in_list.
    + cbn. lia.
Defined.

Lemma validate_Ok_inv bits method :
  validate_bits_and_method bits method = Ok tt ->
  bits ∈ [1; 2; 3] /\ method ∈ SUPPORTED_METHODS.
Proof.
  unfold validate_bits_and_method.
  destruct (bool_decide (bits ∈ [1; 2; 3])) eqn:Hb; [| done].
  destruct (bool_decide (method ∈ SUPPORTED_METHODS)) eqn:Hm; [| done].
  intros _. split.
  - exact (bool_decide_eq_true_1 _ Hb).
  - exact (bool_decide_eq_true_1 _ Hm).
Qed.

Lemma size_width_height (im : Image) : size im = (width im, height im).
Proof. unfold width, height. by destruct (size im). Qed.

(** What a returning [encode_text_into_image] has done. *)
Lemma encode_text_into_image_inv h image message password bits method out h' :
  let im := cell h image in
  0 <= width im -> 0 <= height im ->
  encode_text_into_image image message password bits method h = (Ok out, h') ->
  exists mb header masked,
    bits ∈ [1; 2; 3] /\ method ∈ SUPPORTED_METHODS
    /\ str_encode_utf8 message = Ok mb
    /\ xor_with_password mb password = Ok masked
    /\ xor_with_password masked password = Ok mb
    /\ to_bytes4_big (Z.of_nat (length masked)) = Ok header
    /\ is_bytes masked
    /\ length masked = length mb
    /\ (Z.of_nat (length mb) + 4) * 8 <= carrier_bits (width im) (height im) bits
    /\ out = next_ref h
    /\ next_ref h' = S (next_ref h)
    /\ (forall r, r <> next_ref h -> cell h' r = cell h r)
    /\ size (cell h' out) = size im
    /\ decode_payload_from_image out bits method h' = (Ok (header ++ masked), h').
Proof.
  intros im Hw Hh Henc. unfold encode_text_into_image, bindM, lift in Henc.
  destruct (prepare_payload message password) as [payload |] eqn:Hprep;
    [| done].
  apply prepare_payload_inv in Hprep
    as (mb & header & masked & Hmb & Hxor & Hheader & ->).
  assert (bits ∈ [1; 2; 3] /\ method ∈ SUPPORTED_METHODS) as [Hb Hm].
  { apply validate_Ok_inv. unfold encode_payload_into_image, bindM, lift in Henc.
    destruct (validate_bits_and_method bits method) as [[] |]; done. }
  pose proof (xor_with_password_Ok_encodable _ _ _ Hxor) as Hpw.
  apply encodable_is_bytes in Hpw.
  destruct (xor_with_password_spec mb password Hpw)
    as (masked' & Hxor' & Hlen & Hback & Hbytes).
  rewrite Hxor in Hxor'. injection Hxor' as <-.
  destruct (utf8_roundtrip _ _ Hmb) as [Hmbb _].
  destruct (to_bytes4_big_spec _ _ Hheader) as (_ & Hlen4 & _).
  assert ((Z.of_nat (length masked) + 4) * 8
          <= carrier_bits (width im) (height im) bits) as Hfits.
  { destruct (encode_payload_into_image_check h image (header ++ masked) bits
                method Hb Hm) as [Hbig _].
    fold im in Hbig.
    destruct (Z.lt_ge_cases (carrier_bits (width im) (height im) bits)
                (Z.of_nat (length (header ++ masked)) * 8)) as [Hlt | Hge].
    - rewrite (Hbig Hlt) in Henc. discriminate.
    - rewrite length_app, Hlen4 in Hge. lia. }
  destruct (encode_then_extract h image header masked bits method
              Hb Hm Hw Hh (Hbytes Hmbb) Hheader Hfits)
    as (h1 & Henc' & Hnext & Hother & Hsize & Hdec).
  rewrite Henc in Henc'. injection Henc' as -> ->.
  exists mb, header, masked.
  repeat (split; [first [assumption | by apply Hbytes | lia] |]).
  exact Hdec.
Qed.

Lemma length_bytes_decode_utf8_replace (bs : list Z) :
  (length (bytes_decode_utf8_replace bs) <= length bs)%nat.
Proof.
  remember (length bs) as n eqn:Hn. revert bs Hn.
  induction n as [n IH] using lt_wf_ind. intros bs ->.
  assert (forall r, (length r < length bs)%nat ->
            (length (bytes_decode_utf8_replace r) <= length r)%nat) as Hrec
    by (intros r Hr; by apply (IH (length r))).
  clear IH. destruct bs as [| b0 r0]; [done |].
  cbn [bytes_decode_utf8_replace].
  repeat match goal with
         | |- context [if ?c then _ else _] => destruct c
         | |- context [match ?l with [] => _ | _ :: _ => _ end] =>
             destruct l
         end;
    cbn [length] in *;
    repeat match goal with
           | |- context [length (bytes_decode_utf8_replace ?r)] =>
               lazymatch goal with
               | _ : (length (bytes_decode_utf8_replace r) <= _)%nat |- _ => fail
               | _ => pose proof (Hrec r ltac:(cbn [length]; lia))
               end
           end;
    cbn [length] in *; lia.
Qed.

(** X11.  Whenever [encode_text_into_image] returns an image, for whatever
    message, password, bit depth and method, extracting from that image
    with the same password, bit depth and method returns the message. *)
Theorem roundtrip_whenever_embedding_returns (h h' : heap) (image out : ref)
    (message password : list Z) (bits : Z) (method : string) :
  0 <= width (cell h image) -> 0 <= height (cell h image) ->
  encode_text_into_image image message password bits method h = (Ok out, h') ->
  decode_text_from_image out password bits method h' = (Ok message, h').
Proof.
  intros Hw Hh Henc.
  destruct (encode_text_into_image_inv h image message password bits method
              out h' Hw Hh Henc)
    as (mb & header & masked & _ & _ & Hmb & _ & Hback & Hheader & _ & _ & _
        & _ & _ & _ & _ & Hdec).
  unfold decode_text_from_image, bindM, lift. rewrite Hdec.
  rewrite (decode_payload_framed header masked password mb) by done.
  by destruct (utf8_roundtrip _ _ Hmb) as [_ ->].
Qed.

Lemma roundtrip_whenever_embedding_returns_witness :
  let im := mkImage (3, 5) (fun x y => (93 + x, 127, 149 + y)) in
  let h := mkHeap 1%nat (fun _ => im) in
  exists out h',
    encode_text_into_image 0%nat [0x68; 0x438] [0x70; 0x77] 3 "sequential" h
    = (Ok out, h')
    /\ decode_text_from_image out [0x70; 0x77] 3 "sequential" h'
       = (Ok [0x68; 0x438], h').
Proof.
  intros im h.
  destruct (encode_text_into_image 0%nat [0x68; 0x438] [0x70; 0x77] 3
              "sequential" h) as [res h'] eqn:Henc.
  assert (res = Ok 1%nat) as ->.
  { change res with (fst (res, h')). rewrite <- Henc. vm_compute. reflexivity. }
  exists 1%nat, h'. split; [reflexivity |].
  apply (roundtrip_whenever_embedding_returns h h' 0%nat 1%nat).
  - cbn. lia.
  - cbn. lia.
  - exact Henc.
Defined.

(** X12.  The capacity the interface checks a message against agrees with
    the embedding: on an image with at least 32 carrier bits, a message
    whose UTF-8 form is shorter than [2^32] bytes is embedded exactly when
    that form has at most [max_message_bytes] bytes. *)
Theorem capacity_check_agrees_with_embedding (h : heap) (image : ref)
    (message password mb : list Z) (bits : Z) (method : string) :
  bits ∈ [1; 2; 3] -> method ∈ SUPPORTED_METHODS ->
  let im := cell h image in
  str_encode_utf8 message = Ok mb ->
  (exists pw, str_encode_utf8 password = Ok pw) ->
  Z.of_nat (length mb) < 2 ^ 32 ->
  32 <= carrier_bits (width im) (height im) bits ->
  exists capacity,
    max_message_bytes (size im) bits = Ok capacity
    /\ (Z.of_nat (length mb) <= capacity
        <-> exists out h',
              encode_text_into_image image message password bits method h
              = (Ok out, h')).
Proof.
  intros Hb Hm im Hmb Hpw Hsmall H32.
  exists (capacityBytes (width im) (height im) bits).
  split; [rewrite size_width_height; by apply max_message_bytes_ok |].
  destruct (prepare_payload_spec message password mb Hmb Hpw Hsmall)
    as (header & masked & Hprep & Hheader & Hlen & _).
  destruct (to_bytes4_big_spec _ _ Hheader) as (_ & Hlen4 & _).
  rewrite (framed_fits _ _ _ _ H32).
  unfold encode_text_into_image, bindM, lift. rewrite Hprep.
  destruct (encode_payload_into_image_check h image (header ++ masked) bits
              method Hb Hm) as [Hbig Hfit].
  fold im in Hbig, Hfit. rewrite length_app, Hlen4, Hlen in Hbig, Hfit.
  split.
  - intros Hfits. destruct Hfit as (order & _ & Henc); [lia |]. eauto.
  - intros (out & h' & Henc).
    destruct (Z.lt_ge_cases (carrier_bits (width im) (height im) bits)
                (Z.of_nat (4 + length mb) * 8)) as [Hlt | Hge]; [| lia].
    rewrite (Hbig Hlt) in Henc. discriminate.
Qed.

Lemma capacity_check_agrees_with_embedding_witness :
  let im := mkImage (3, 5) (fun x y => (93 + x, 127, 149 + y)) in
  let h := mkHeap 1%nat (fun _ => im) in
  exists capacity,
    max_message_bytes (3, 5) 1 = Ok capacity
    /\ (3 <= capacity
        <-> exists out h',
              encode_text_into_image 0%nat [0x68; 0x438] [0x70] 1
                                     "interleaved" h
              = (Ok out, h')).
Proof.
  intros im h.
  apply (capacity_check_agrees_with_embedding h 0%nat [0x68; 0x438] [0x70]
           [0x68; 0xD0; 0xB8] 1 "interleaved").
  - in_list.
  - in_list.
  - reflexivity.
  - by eexists.
  - cbn. lia.
  - vm_compute. discriminate.
Defined.

(** X13.  Extraction with another password never fails on an image that
    [encode_text_into_image] returned: with any password that UTF-8 can
    encode it returns a text, of at most as many characters as the
    embedded message has bytes. *)
Theorem decode_with_other_password_returns (h h' : heap) (image out : ref)
    (message password other : list Z) (bits : Z) (method : string) :
  0 <= width (cell h image) -> 0 <= height (cell h image) ->
  (exists pw, str_encode_utf8 other = Ok pw) ->
  encode_text_into_image image message password bits method h = (Ok out, h') ->
  exists text mb,
    decode_text_from_image out other bits method h' = (Ok text, h')
    /\ str_encode_utf8 message = Ok mb
    /\ (length text <= length mb)%nat.
Proof.
  intros Hw Hh Hother Henc.
  destruct (encode_text_into_image_inv h image message password bits method
              out h' Hw Hh Henc)
    as (mb & header & masked & _ & _ & Hmb & _ & _ & Hheader & _ & Hlen & _
        & _ & _ & _ & _ & Hdec).
  apply encodable_is_bytes in Hother.
  destruct (xor_with_password_spec masked other Hother)
    as (plain & Hxor & Hplain & _).
  exists (bytes_decode_utf8_replace plain), mb.
  split; [| split; [exact Hmb |]].
  - unfold decode_text_from_image, bindM, lift. rewrite Hdec.
    by rewrite (decode_payload_framed header masked other plain).
  - rewrite <- Hlen, <- Hplain. apply length_bytes_decode_utf8_replace.
Qed.

Lemma decode_with_other_password_returns_witness :
  let im := mkImage (3, 5) (fun x y => (93 + x, 127, 149 + y)) in
  let h := mkHeap 1%nat (fun _ => im) in
  exists h' text,
    snd (encode_text_into_image 0%nat [0x68; 0x438] [0x70; 0x77] 3
                                "sequential" h) = h'
    /\ decode_text_from_image 1%nat [0x71] 3 "sequential" h' = (Ok text, h')
    /\ (length text <= 3)%nat.
Proof.
  intros im h.
  destruct (encode_text_into_image 0%nat [0x68; 0x438] [0x70; 0x77] 3
              "sequential" h) as [res h'] eqn:Henc.
  assert (res = Ok 1%nat) as ->.
  { change res with (fst (res, h')). rewrite <- Henc. vm_compute. reflexivity. }
  destruct (decode_with_other_password_returns h h' 0%nat 1%nat
              [0x68; 0x438] [0x70; 0x77] [0x71] 3 "sequential")
    as (text & mb & Hdec & Hmb & Hlen).
  - cbn. lia.
  - cbn. lia.
  - by eexists.
  - exact Henc.
  - exists h', text. split; [reflexivity |]. split; [exact Hdec |].
    vm_compute in Hmb. injection Hmb as <-. exact Hlen.
Defined.

(** * Further properties of the risk estimate *)

(** ** Order of floats *)

Lemma SFcompare_lt_le_trans (x y z : spec_float) :
  SFltb x y = true -> SFleb y z = true -> SFltb x z = true.
Proof.
  unfold SFltb, SFleb.
  destruct x as [[] | [] | | [] mx ex], y as [[] | [] | | [] my ey],
    z as [[] | [] | | [] mz ez]; cbn; try congruence;
    repeat match goal with
           | |- context [(?a ?= ?b)%Z] =>
               destruct (Z.compare_spec a b); cbn; try congruence
           | |- context [Pos.compare_cont ?c ?a ?b] =>
               change (Pos.compare_cont c a b) with (Pos.compare a b);
               destruct (Pos.compare_spec a b); cbn; try congruence
           end;
    intros; subst; try congruence; lia.
Qed.

Lemma SFcompare_lt_not_ge (x y : spec_float) :
  SFltb x y = true -> SFleb y x = false.
Proof.
  unfold SFltb, SFleb.
  destruct x as [[] | [] | | [] mx ex], y as [[] | [] | | [] my ey];
    cbn; try congruence;
    repeat match goal with
           | |- context [(?a ?= ?b)%Z] =>
               destruct (Z.compare_spec a b); cbn; try congruence
           | |- context [Pos.compare_cont ?c ?a ?b] =>
               change (Pos.compare_cont c a b) with (Pos.compare a b);
               destruct (Pos.compare_spec a b); cbn; try congruence
           end;
    intros; subst; try congruence; lia.
Qed.

Lemma SFcompare_not_lt_ge (x y z : spec_float) :
  SFltb x y = false -> SFltb x z = true -> SFleb y y = true ->
  SFleb y x = true.
Proof.
  unfold SFltb, SFleb.
  destruct x as [[] | [] | | [] mx ex], y as [[] | [] | | [] my ey],
    z as [[] | [] | | [] mz ez];
    cbn; try congruence;
    repeat match goal with
           | |- context [(?a ?= ?b)%Z] =>
               destruct (Z.compare_spec a b); cbn; try congruence
           | |- context [Pos.compare_cont ?c ?a ?b] =>
               change (Pos.compare_cont c a b) with (Pos.compare a b);
               destruct (Pos.compare_spec a b); cbn; try congruence
           end;
    intros; subst; try congruence; lia.
Qed.

Lemma float_lt_le_trans (a b c : float) :
  (a <? b)%float = true -> (b <=? c)%float = true -> (a <? c)%float = true.
Proof. rewrite !ltb_spec, leb_spec. apply SFcompare_lt_le_trans. Qed.

Lemma float_lt_not_ge (a b : float) :
  (a <? b)%float = true -> (b <=? a)%float = false.
Proof. rewrite ltb_spec, leb_spec. apply SFcompare_lt_not_ge. Qed.

Lemma float_not_lt_ge (a b c : float) :
  (a <? b)%float = false -> (a <? c)%float = true ->
  (b <=? b)%float = true -> (b <=? a)%float = true.
Proof. rewrite !ltb_spec, !leb_spec. apply SFcompare_not_lt_ge. Qed.

Lemma digits2_pos_bound (m : positive) :
  2 ^ (Z.pos (digits2_pos m) - 1) <= Z.pos m < 2 ^ Z.pos (digits2_pos m).
Proof.
  induction m as [m IH | m IH |]; cbn [digits2_pos].
  - rewrite Pos2Z.inj_succ.
    replace (Z.succ (Z.pos (digits2_pos m)) - 1) with (Z.succ (Z.pos (digits2_pos m) - 1)) by lia.
    rewrite !Z.pow_succ_r by lia. lia.
  - rewrite Pos2Z.inj_succ.
    replace (Z.succ (Z.pos (digits2_pos m)) - 1) with (Z.succ (Z.pos (digits2_pos m) - 1)) by lia.
    rewrite !Z.pow_succ_r by lia. lia.
  - cbn. lia.
Qed.

Lemma digits2_pos_iter_xO (m k : positive) :
  digits2_pos (Pos.iter xO m k) = (digits2_pos m + k)%positive.
Proof.
  induction k as [| k IH] using Pos.peano_ind.
  - cbn. lia.
  - rewrite Pos.iter_succ. cbn [digits2_pos]. rewrite IH. lia.
Qed.

Lemma binary_round_aux_exact sx (m : positive) e :
  Z.pos (digits2_pos m) = 53 -> -1074 <= e <= 971 ->
  binary_round_aux prec emax sx (Z.pos m) e loc_Exact = S754_finite sx m e.
Proof.
  intros Hd He. unfold binary_round_aux, shr_fexp.
  cbn [Zdigits2 shr_record_of_loc]. rewrite Hd.
  assert (fexp prec emax (53 + e) - e = 0) as ->.
  { unfold fexp, emin, prec, emax. lia. }
  cbn [shr shr_m loc_of_shr_record round_nearest_even Zdigits2]. rewrite Hd.
  assert (fexp prec emax (53 + e) - e = 0) as ->.
  { unfold fexp, emin, prec, emax. lia. }
  cbn [shr shr_m]. unfold emax, prec.
  destruct (Z.leb_spec e (1024 - 53)); [reflexivity | lia].
Qed.

Lemma float_of_int_small (n : Z) :
  0 <= n < 2 ^ 53 -> exists f, float_of_int n = Ok f.
Proof.
  intros Hn. unfold float_of_int.
  destruct n as [| m | m]; [eexists; reflexivity | | lia].
  cbn [binary_normalize]. unfold binary_round.
  pose proof (digits2_pos_bound m) as Hm.
  assert (Z.pos (digits2_pos m) <= 53) as Hd.
  { destruct (Z.le_gt_cases (Z.pos (digits2_pos m)) 53) as [|Hgt]; [done |].
    assert (2 ^ 53 <= 2 ^ (Z.pos (digits2_pos m) - 1))
      by (apply Z.pow_le_mono_r; lia). lia. }
  assert (fexp prec emax (Z.pos (digits2_pos m) + 0)
          = Z.pos (digits2_pos m) - 53) as ->.
  { unfold fexp, emin, prec, emax. lia. }
  unfold shl_align.
  destruct (Z.pos (digits2_pos m) - 53 - 0) as [| d | d] eqn:Hdiff; [| lia |].
  - rewrite binary_round_aux_exact by lia. eexists; reflexivity.
  - rewrite binary_round_aux_exact.
    + eexists; reflexivity.
    + rewrite digits2_pos_iter_xO. lia.
    + lia.
Qed.

(** ** The chi-square statistic *)

Lemma filter_bit_counts (l : list Z) :
  Forall is_bit l ->
  (length (filter (fun b : Z => (b = 0)%Z) l)
   + length (filter (fun b : Z => (b = 1)%Z) l)
   = length l)%nat.
Proof.
  induction 1 as [| b l Hb _ IH]; [done |].
  rewrite !filter_cons.
  destruct Hb as [-> | ->]; repeat case_decide; try lia; cbn [length]; lia.
Qed.

Lemma count_lsb_sum (im : Image) (channel : Z) :
  0 <= width im -> 0 <= height im ->
  0 <= Risk.count_lsb im channel 0
  /\ 0 <= Risk.count_lsb im channel 1
  /\ Risk.count_lsb im channel 0 + Risk.count_lsb im channel 1
     = width im * height im.
Proof.
  intros Hw Hh. unfold Risk.count_lsb.
  set (l := y ← range (height im); x ← range (width im);
            [Z.land (channel_of (pixels im x y) channel) 1]).
  assert (Forall is_bit l) as Hbits.
  { apply Forall_bind_elem. intros y _. apply Forall_bind_elem. intros x _.
    constructor; [apply land_1_is_bit | constructor]. }
  assert (length l = (Z.to_nat (height im) * Z.to_nat (width im))%nat) as Hlen.
  { unfold l. rewrite (length_bind_const _ _ (Z.to_nat (width im))).
    - by rewrite length_range.
    - intros y _. rewrite (length_bind_const _ _ 1%nat) by done.
      rewrite length_range. lia. }
  pose proof (filter_bit_counts l Hbits) as Hsum.
  split; [lia |]. split; [lia |]. nia.
Qed.

(** X14.  On an image of [w] by [h] pixels with [3 w h] below [2^53],
    [chi_square_lsb_test] returns: the two counts are not negative and add
    up to [3 w h], one bit per channel value; the verdict is the test of
    chi-square against 10; and no image object that existed is changed. *)
Theorem chi_square_lsb_test_counts (h : heap) (img : ref) :
  let im := cell h img in
  0 <= width im -> 0 <= height im ->
  3 * (width im * height im) < 2 ^ 53 ->
  exists stats h',
    Risk.chi_square_lsb_test (Some img) h = (Ok stats, h')
    /\ 0 <= Risk.zero_bits stats
    /\ 0 <= Risk.one_bits stats
    /\ Risk.zero_bits stats + Risk.one_bits stats = 3 * (width im * height im)
    /\ Risk.suspicious stats = py_gt (Risk.chi2 stats) 10
    /\ (forall r, (r < next_ref h)%nat -> cell h' r = cell h r).
Proof.
  intros im Hw Hh Hsmall.
  destruct (count_lsb_sum im 0 Hw Hh) as (Hz0 & Ho0 & Hs0).
  destruct (count_lsb_sum im 1 Hw Hh) as (Hz1 & Ho1 & Hs1).
  destruct (count_lsb_sum im 2 Hw Hh) as (Hz2 & Ho2 & Hs2).
  unfold Risk.chi_square_lsb_test, bindM, deref, alloc, lift, retM.
  fold im. change (range 3) with [0; 1; 2].
  cbn [Risk.count_channels fold_left].
  set (count0 := 0 + Risk.count_lsb im 0 0 + Risk.count_lsb im 1 0
                 + Risk.count_lsb im 2 0).
  set (count1 := 0 + Risk.count_lsb im 0 1 + Risk.count_lsb im 1 1
                 + Risk.count_lsb im 2 1).
  destruct (float_of_int_small (count0 + count1)) as [ftotal ->];
    [unfold count0, count1; lia |].
  destruct (float_of_int_small count0) as [f0 ->];
    [unfold count0, count1; lia |].
  destruct (float_of_int_small count1) as [f1 ->];
    [unfold count0, count1; lia |].
  eexists _, _. split; [reflexivity |]. cbn.
  split; [unfold count0; lia |]. split; [unfold count1; lia |].
  split; [unfold count0, count1; lia |]. split; [reflexivity |].
  intros r Hr. destruct (Nat.eqb_spec r (next_ref h)); [lia | done].
Qed.

Lemma chi_square_lsb_test_counts_witness :
  let im := mkImage (2, 2) (fun x y => (10 * x + y, 255 - y, 77)) in
  let h := mkHeap 1%nat (fun _ => im) in
  exists stats h',
    Risk.chi_square_lsb_test (Some 0%nat) h = (Ok stats, h')
    /\ Risk.zero_bits stats + Risk.one_bits stats = 12.
Proof.
  intros im h.
  destruct (chi_square_lsb_test_counts h 0%nat)
    as (stats & h' & Hrun & _ & _ & Hsum & _).
  - cbn. lia.
  - cbn. lia.
  - cbn. lia.
  - exists stats, h'. split; [exact Hrun | exact Hsum].
Defined.

(** ** Usage bands of the risk level *)

(** X15.  Whatever the statistics say, a usage ratio below 0.08 is rated
    LOW and a usage ratio below 0.40 is never rated HIGH; a usage ratio
    that is not below 0.18 -- at least 0.18, or not a number, which the
    clamp turns into 1 -- is never rated LOW. *)
Theorem evaluate_risk_usage_bands (usage_ratio : float)
    (stats_orig stats_enc : gmap string float) :
  let level := fst (Risk.evaluate_risk usage_ratio stats_orig stats_enc) in
  ((usage_ratio <? 0.08)%float = true -> level = "LOW"%string)
  /\ ((usage_ratio <? 0.40)%float = true -> level <> "HIGH"%string)
  /\ ((usage_ratio <? 0.18)%float = false -> level <> "LOW"%string).
Proof.
  intros level. subst level. unfold Risk.evaluate_risk. cbv zeta.
  set (u := py_max 0 (py_min 1 usage_ratio)).
  assert (forall k : float,
            (usage_ratio <? k)%float = true -> (0 <? k)%float = true ->
            (k <=? 1)%float = true -> py_ge u k = false) as Hbelow.
  { intros k Hk H0 H1. unfold py_ge. apply float_lt_not_ge.
    unfold u, py_max, py_min.
    rewrite (float_lt_le_trans usage_ratio k 1 Hk H1).
    by destruct (0 <? usage_ratio)%float. }
  split; [| split].
  - intros Hlow.
    assert (forall k : float, (0.08 <=? k)%float = true ->
              (k <=? 1)%float = true -> py_ge u k = false) as Hk.
    { intros k Hk H1. apply Hbelow; [| | exact H1].
      - by apply (float_lt_le_trans _ 0.08).
      - by apply (float_lt_le_trans _ 0.08). }
    rewrite (Hk 0.40%float), (Hk 0.18%float), (Hk 0.08%float),
      (Hk 0.12%float) by reflexivity.
    reflexivity.
  - intros Hlow. rewrite (Hbelow 0.40%float Hlow) by reflexivity.
    cbn [andb]. by destruct (_ || _ || _).
  - intros Hhigh.
    assert (py_ge u 0.18 = true) as ->.
    { unfold py_ge, u, py_max, py_min.
      destruct (usage_ratio <? 1)%float eqn:H1; [| reflexivity].
      pose proof (float_not_lt_ge usage_ratio 0.18 1 Hhigh H1 eq_refl) as Hge.
      by rewrite (float_lt_le_trans 0 0.18 usage_ratio eq_refl Hge). }
    cbn [orb]. by destruct (_ && _).
Qed.

Lemma evaluate_risk_usage_bands_witness :
  fst (Risk.evaluate_risk 0.05 ∅ ∅) = "LOW"%string
  /\ fst (Risk.evaluate_risk nan ∅ ∅) <> "LOW"%string.
Proof.
  split.
  - by apply (evaluate_risk_usage_bands 0.05 ∅ ∅).
  - by apply (evaluate_risk_usage_bands nan ∅ ∅).
Defined.

(** * Further properties of the mode sweep *)


Lemma extends_trans (h1 h2 h3 : heap) :
  extends h1 h2 -> extends h2 h3 -> extends h1 h3.
Proof.
  intros [Hn12 Hc12] [Hn23 Hc23]. split; [lia |].
  intros r Hr. rewrite Hc23 by lia. by apply Hc12.
Qed.

Lemma decode_payload_from_image_heap image bits method h :
  snd (decode_payload_from_image image bits method h) = h.
Proof.
  unfold decode_payload_from_image, bindM, lift, deref, raiseM, retM.
  destruct (validate_bits_and_method bits method) as [[] |]; [| done].
  destruct (_iter_bits_from_image _ _ _) as [stream |]; [| done].
  destruct (next_n 32 stream) as [header_bits bits_iter].
  destruct (any_none header_bits); [done |].
  destruct (max_message_bytes _ _) as [max_bytes |]; [| done].
  destruct (max_bytes <? _); [done |].
  destruct (next_n _ bits_iter) as [msg_bits bits_iter'].
  destruct (any_none msg_bits); [done |].
  by destruct (to_bytes4_big _).
Qed.

Lemma decode_text_from_image_heap image password bits method h :
  snd (decode_text_from_image image password bits method h) = h.
Proof.
  unfold decode_text_from_image, bindM, lift.
  pose proof (decode_payload_from_image_heap image bits method h) as Hheap.
  by destruct (decode_payload_from_image image bits method h) as [[payload |] h1].
Qed.



Lemma capacityBytes_small (w h bits : Z) :
  bits ∈ [1; 2; 3] -> 0 <= w -> 0 <= h -> w * h < 2 ^ 50 ->
  0 <= capacityBytes w h bits < 2 ^ 53.
Proof.
  intros Hb Hw Hh Hsmall. unfold capacityBytes.
  assert (0 <= w * h) by nia.
  assert (0 <= w * h * 3 * bits <= 9 * 2 ^ 50) as Ht
    by (destruct (valid_bits_cases _ Hb) as [-> | [-> | ->]]; lia).
  pose proof (Z.div_le_mono _ _ 8 ltac:(lia) (proj2 Ht)) as Hdiv.
  change ((9 * 2 ^ 50) `div` 8) with (9 * 2 ^ 47) in Hdiv.
  lia.
Qed.

Section SweepReturns.

Variable metric_psnr metric_mse metric_ssim : Image -> Image -> result float.

Abbreviation run_mode_benchmark :=
  (Analysis.run_mode_benchmark metric_psnr metric_mse metric_ssim).
Abbreviation benchmark_methods :=
  (Analysis.benchmark_methods metric_psnr metric_mse metric_ssim).
Abbreviation benchmark_bits :=
  (Analysis.benchmark_bits metric_psnr metric_mse metric_ssim).
Abbreviation benchmark_cell :=
  (Analysis.benchmark_cell metric_psnr metric_mse metric_ssim).





End SweepReturns.


(** * Further properties of the attack suite *)

Lemma decode_payload_from_image_cell image bits method h :
  decode_payload_from_image image bits method h
  = (fst (decode_payload_from_image 0%nat bits method
            (mkHeap 1%nat (fun _ => cell h image))), h).
Proof.
  unfold decode_payload_from_image, bindM, lift, deref, raiseM, retM.
  cbn [cell].
  destruct (validate_bits_and_method bits method) as [[] |]; [| done].
  destruct (_iter_bits_from_image _ _ _) as [stream |]; [| done].
  destruct (next_n 32 stream) as [header_bits bits_iter].
  destruct (any_none header_bits); [done |].
  destruct (max_message_bytes _ _) as [max_bytes |]; [| done].
  destruct (max_bytes <? _); [done |].
  destruct (next_n _ bits_iter) as [msg_bits bits_iter'].
  destruct (any_none msg_bits); [done |].
  by destruct (to_bytes4_big _).
Qed.

Lemma decode_text_from_image_cell image password bits method h :
  decode_text_from_image image password bits method h
  = (decode_text_of_image (cell h image) password bits method, h).
Proof.
  unfold decode_text_of_image, decode_text_from_image, bindM, lift.
  rewrite (decode_payload_from_image_cell image bits method h).
  rewrite (decode_payload_from_image_cell 0%nat bits method (mkHeap _ _)).
  cbn [cell fst].
  by destruct (fst (decode_payload_from_image _ _ _ _)).
Qed.

Lemma decode_text_of_image_length (im : Image) password bits method text :
  0 <= width im -> 0 <= height im ->
  decode_text_of_image im password bits method = Ok text ->
  bits ∈ [1; 2; 3]
  /\ Z.of_nat (length text) <= capacityBytes (width im) (height im) bits.
Proof.
  intros Hw Hh. unfold decode_text_of_image.
  set (h := mkHeap 1%nat (fun _ => im)).
  unfold decode_text_from_image, bindM, lift.
  destruct (decode_payload_from_image 0%nat bits method h)
    as [[payload | exc] h1] eqn:Hdec; [| done].
  cbn [fst]. intros Htext.
  assert (bits ∈ [1; 2; 3] /\ method ∈ SUPPORTED_METHODS) as [Hb Hm].
  { apply validate_Ok_inv. unfold decode_payload_from_image, bindM, lift in Hdec.
    destruct (validate_bits_and_method bits method) as [[] |]; done. }
  split; [exact Hb |].
  destruct (iter_bits_length im bits method Hb Hm Hw Hh)
    as (stream & Hstream & Hlen & Hbits).
  destruct (decode_payload_from_image_cases h 0%nat bits method stream
              Hb Hm Hstream Hbits Hlen) as (Hnone & Hbad & Hgood).
  change (cell h 0%nat) with im in *.
  set (total := Z.of_nat (length stream)) in *.
  set (cap := capacityBytes (width im) (height im) bits) in *.
  set (declared := _bits_to_int (take 32 stream)) in *.
  destruct (Z.lt_ge_cases total 32) as [Hlt | H32];
    [rewrite (Hnone Hlt) in Hdec; discriminate |].
  destruct (Z.lt_ge_cases cap declared) as [Hover | Hfit];
    [rewrite (Hbad H32 Hover) in Hdec; discriminate |].
  destruct (Hgood H32 Hfit) as (Hdecl & Hroom & header & Hheader & Hrun).
  rewrite Hrun in Hdec. injection Hdec as <- <-.
  destruct (to_bytes4_big_spec _ _ Hheader) as (_ & Hlen4 & Hhb & _ & Hvalue).
  assert (length (_bits_to_bytes
                    (take (Z.to_nat (declared * 8)) (drop 32 stream)))
          = Z.to_nat declared) as Hbody.
  { apply bits_to_bytes_length. rewrite length_take, length_drop.
    unfold total in Hroom. lia. }
  unfold decode_payload in Htext.
  rewrite length_app, Hlen4, Hbody in Htext.
  destruct (Nat.ltb_spec (4 + Z.to_nat declared) 4); [lia |].
  rewrite take_app_length', drop_app_length' in Htext by done.
  rewrite Hvalue in Htext.
  rewrite take_ge in Htext by (rewrite Hbody; lia).
  rewrite Hbody in Htext.
  destruct (Z.eqb_spec (Z.of_nat (Z.to_nat declared)) declared); [| lia].
  cbn [negb] in Htext.
  destruct (xor_with_password _ password) as [plain |] eqn:Hxor; [| done].
  injection Htext as <-.
  pose proof (xor_with_password_Ok_encodable _ _ _ Hxor) as Hpw.
  apply encodable_is_bytes in Hpw.
  destruct (xor_with_password_spec
              (_bits_to_bytes (take (Z.to_nat (declared * 8)) (drop 32 stream)))
              password Hpw) as (plain' & Hxor' & Hplain & _).
  rewrite Hxor in Hxor'. injection Hxor' as <-.
  pose proof (length_bytes_decode_utf8_replace plain). lia.
Qed.

Section AttackFacts.

Variable isprintable isalnum : Z -> bool.
Variable _jpeg_roundtrip : Image -> Z -> result Image.
Variable _resize_restore : Image -> float -> result Image.
Variable _add_noise : Image -> float -> Z -> Z -> result Image.
Variable gaussian_blur : Image -> float -> result Image.

Abbreviation _safe_preview_text :=
  (Analysis._safe_preview_text isprintable isalnum).
Abbreviation attack_row := (Analysis.attack_row isprintable isalnum).
Abbreviation run_attack_suite :=
  (Analysis.run_attack_suite isprintable isalnum _jpeg_roundtrip
     _resize_restore _add_noise gaussian_blur).

Lemma safe_preview_text_returns (text : list Z) (limit : Z) :
  Z.of_nat (length text) < 2 ^ 53 ->
  exists preview, _safe_preview_text text limit = Ok preview.
Proof.
  intros Hlen. unfold Analysis._safe_preview_text.
  destruct text as [| c text]; [by eexists |].
  set (printable := filter _ (c :: text)).
  set (cleaned := filter (fun ch => ch <> 0xFFFD) printable).
  pose proof (length_filter (fun ch => ch <> 0xFFFD) printable) as Hcleaned.
  pose proof (length_filter
                (fun ch => isprintable ch = true /\ (ch ∉ [0x0D; 0x0A; 0x09]))
                (c :: text)) as Hprintable.
  fold printable in Hprintable. fold cleaned in Hcleaned.
  pose proof (length_filter (fun ch => isalnum ch = true) cleaned) as Hletters.
  destruct cleaned as [| c' cleaned'] eqn:Heq; [by eexists |].
  rewrite <- Heq in *.
  destruct (float_of_int_small
              (Z.of_nat (length (filter (fun ch => isalnum ch = true) cleaned))))
    as [l ->]; [lia |].
  destruct (float_of_int_small (Z.max 1 (Z.of_nat (length cleaned))))
    as [n ->]; [lia |].
  cbn [rbind]. destruct (l / n <? 0.35)%float; by eexists.
Qed.

(** X17.  For a text shorter than [2^53] characters the preview is
    computed without an error.  The empty text gives the empty preview;
    any other text gives the fixed placeholder or a preview made of
    characters of the text in their order, all printable, none of them a
    carriage return, a line feed, a tab or U+FFFD, at most [limit] of them
    and at least one when [limit] is positive. *)
Theorem safe_preview_text_shape (text : list Z) (limit : Z) :
  Z.of_nat (length text) < 2 ^ 53 ->
  exists preview,
    _safe_preview_text text limit = Ok preview
    /\ (text = [] -> preview = [])
    /\ (preview = Analysis.UNREADABLE
        \/ (preview `sublist_of` text)
           /\ Forall (fun ch => isprintable ch = true
                                /\ (ch ∉ [0x0D; 0x0A; 0x09])
                                /\ ch <> 0xFFFD) preview
           /\ (0 <= limit -> Z.of_nat (length preview) <= limit)
           /\ (0 < limit -> text <> [] -> preview <> [])).
Proof.
  intros Hlen. unfold Analysis._safe_preview_text.
  destruct text as [| c text]; [exists []; split; [done |]; split; [done |] |].
  { right. split; [done |]. split; [constructor |]. cbn. split; [lia | done]. }
  set (printable := filter _ (c :: text)).
  set (cleaned := filter (fun ch => ch <> 0xFFFD) printable).
  assert (cleaned `sublist_of` c :: text) as Hsub.
  { transitivity printable; apply sublist_filter. }
  assert (Forall (fun ch => isprintable ch = true
                            /\ (ch ∉ [0x0D; 0x0A; 0x09])
                            /\ ch <> 0xFFFD) cleaned) as Hall.
  { apply Forall_forall. intros ch Hch.
    apply list_elem_of_filter in Hch as [Hne Hch].
    apply list_elem_of_filter in Hch as [[Hp Hws] _]. done. }
  pose proof (sublist_length _ _ Hsub) as Hsublen.
  destruct cleaned as [| c' cleaned'] eqn:Hcleaned.
  { exists Analysis.UNREADABLE. split; [done |]. split; [done | by left]. }
  rewrite <- Hcleaned in *.
  pose proof (length_filter (fun ch => isalnum ch = true) cleaned) as Hletters.
  destruct (float_of_int_small
              (Z.of_nat (length (filter (fun ch => isalnum ch = true) cleaned))))
    as [l ->]; [lia |].
  destruct (float_of_int_small (Z.max 1 (Z.of_nat (length cleaned))))
    as [n ->]; [lia |].
  cbn [rbind].
  destruct (l / n <? 0.35)%float.
  { exists Analysis.UNREADABLE. split; [done |]. split; [done | by left]. }
  eexists. split; [reflexivity |]. split; [done |]. right.
  unfold Analysis.slice_to.
  destruct (Z.ltb_spec limit 0) as [Hneg | Hpos].
  - split; [etransitivity; [apply sublist_take | exact Hsub] |].
    split; [by apply Forall_take |]. split; lia.
  - split; [etransitivity; [apply sublist_take | exact Hsub] |].
    split; [by apply Forall_take |]. rewrite length_take. split; [lia |].
    intros Hlimit _. rewrite Hcleaned.
    destruct (Z.to_nat limit) as [| k] eqn:Hk; [lia | done].
Qed.

Lemma attack_row_returns encoded_image expected_text password bits method
    attack_id attack_name (transform : ref -> M ref) (transformed : Image)
    results h :
  let im := cell h encoded_image in
  (encoded_image < next_ref h)%nat ->
  0 <= width transformed -> 0 <= height transformed ->
  width transformed * height transformed < 2 ^ 50 ->
  (forall h1 rgb, cell h1 rgb = im ->
     exists h2, transform rgb h1 = (Ok (next_ref h1), h2)
                /\ extends h1 h2
                /\ (next_ref h1 < next_ref h2)%nat
                /\ cell h2 (next_ref h1) = transformed) ->
  exists row h',
    attack_row encoded_image expected_text password bits method
               (attack_id, attack_name, transform) results h
    = (Ok (results ++ [row]), h')
    /\ extends h h'
    /\ attack_outcome (fun text => _safe_preview_text text 90) expected_text
         password bits method (attack_id, attack_name, transformed) row.
Proof.
  intros im Henc Hw Hh Hsmall Htransform.
  unfold Analysis.attack_row, bindM at 1 2 3, deref, alloc. fold im.
  set (h1 := mkHeap _ _).
  destruct (Htransform h1 (next_ref h)) as (h2 & -> & Hext2 & Hnext2 & Hcell2).
  { cbn. by rewrite Nat.eqb_refl. }
  assert (extends h h2) as Hext.
  { apply (extends_trans h h1); [| exact Hext2].
    split; [cbn; lia |]. intros r Hr. cbn.
    destruct (Nat.eqb_spec r (next_ref h)); [lia | done]. }
  unfold bindM, try_except, retM, lift.
  rewrite decode_text_from_image_cell, Hcell2.
  unfold attack_outcome.
  destruct (decode_text_of_image transformed password bits method)
    as [extracted | exc] eqn:Hdec.
  - destruct (decode_text_of_image_length transformed password bits method
                extracted Hw Hh Hdec) as [Hb Hlen].
    pose proof (capacityBytes_small _ _ _ Hb Hw Hh Hsmall) as Hcap.
    destruct (safe_preview_text_returns extracted 90) as (preview & Hpreview);
      [lia |].
    rewrite Hpreview. eexists _, h2. split; [reflexivity |].
    split; [exact Hext |]. done.
  - cbn. eexists _, h2. split; [reflexivity |]. split; [exact Hext |]. done.
Qed.

Lemma baseline_returns (im : Image) h1 rgb :
  cell h1 rgb = im ->
  exists h2, Analysis.baseline rgb h1 = (Ok (next_ref h1), h2)
             /\ extends h1 h2
             /\ (next_ref h1 < next_ref h2)%nat
             /\ cell h2 (next_ref h1) = im.
Proof.
  intros Hcell. unfold Analysis.baseline, bindM, deref, alloc.
  eexists. split; [reflexivity |]. split; [| split].
  - split; [cbn; lia |]. intros r Hr. cbn.
    destruct (Nat.eqb_spec r (next_ref h1)); [lia | done].
  - cbn. lia.
  - cbn. by rewrite Nat.eqb_refl.
Qed.

Lemma external_returns (f : Image -> result Image) (im transformed : Image)
    h1 rgb :
  f im = Ok transformed -> cell h1 rgb = im ->
  exists h2, Analysis.external f rgb h1 = (Ok (next_ref h1), h2)
             /\ extends h1 h2
             /\ (next_ref h1 < next_ref h2)%nat
             /\ cell h2 (next_ref h1) = transformed.
Proof.
  intros Hf Hcell. unfold Analysis.external, bindM, deref, alloc, lift.
  rewrite Hcell, Hf.
  eexists. split; [reflexivity |]. split; [| split].
  - split; [cbn; lia |]. intros r Hr. cbn.
    destruct (Nat.eqb_spec r (next_ref h1)); [lia | done].
  - cbn. lia.
  - cbn. by rewrite Nat.eqb_refl.
Qed.

(** The suite, attack by attack: each row is the outcome of extracting from
    the image its transform returned. *)
Lemma run_attack_suite_rows (h : heap) (encoded_image : ref)
    (expected_text password : list Z) (bits : Z) (method : string)
    (jpeg resized noisy blurred : Image) :
  let im := cell h encoded_image in
  (encoded_image < next_ref h)%nat ->
  0 <= width im -> 0 <= height im -> width im * height im < 2 ^ 50 ->
  _jpeg_roundtrip im 35 = Ok jpeg -> size jpeg = size im ->
  _resize_restore im 0.7 = Ok resized -> size resized = size im ->
  _add_noise im 0.12 24 123 = Ok noisy -> size noisy = size im ->
  gaussian_blur im 1.0 = Ok blurred -> size blurred = size im ->
  exists rows h',
    run_attack_suite encoded_image expected_text password bits method h
    = (Ok rows, h')
    /\ extends h h'
    /\ Forall2 (attack_outcome (fun text => _safe_preview_text text 90)
                  expected_text password bits method)
         [("baseline", "Без атаки", im);
          ("jpeg_q35", "JPEG q=35 (с потерями)", jpeg);
          ("resize_70", "Изменение размера 70% + восстановление", resized);
          ("noise_12", "Шум 12%", noisy);
          ("blur_1", "Гауссово размытие r=1", blurred)]%string
         rows.
Proof.
  intros im Henc Hw Hh Hsmall Hj Hjs Hr Hrs Hn Hns Hb Hbs.
  assert (forall im' : Image, size im' = size im ->
            0 <= width im' /\ 0 <= height im'
            /\ width im' * height im' < 2 ^ 50) as Hsize.
  { intros im' Hs. unfold width, height in *. by rewrite Hs. }
  unfold Analysis.run_attack_suite, Analysis.suite.
  cbn [Analysis.attack_rows].
  assert (forall h0, extends h h0 ->
            cell h0 encoded_image = im
            /\ (encoded_image < next_ref h0)%nat) as Hkeep.
  { intros h0 [Hnext Hcell]. split; [by apply Hcell | lia]. }
  unfold bindM at 1.
  destruct (attack_row_returns encoded_image expected_text password bits
              method "baseline" "Без атаки" Analysis.baseline im [] h)
    as (row1 & h1 & -> & Hext1 & Hrow1); try done.
  { intros h0 rgb Hcell. by apply baseline_returns. }
  destruct (Hkeep h1 Hext1) as [Him1 Henc1].
  unfold bindM at 1.
  destruct (attack_row_returns encoded_image expected_text password bits
              method "jpeg_q35" "JPEG q=35 (с потерями)"
              (Analysis.external (fun im => _jpeg_roundtrip im 35)) jpeg
              ([] ++ [row1]) h1)
    as (row2 & h2 & -> & Hext2 & Hrow2);
    try (by apply Hsize); try done.
  { intros h0 rgb Hcell. rewrite Him1 in Hcell.
    by apply (external_returns _ im). }
  pose proof (extends_trans _ _ _ Hext1 Hext2) as Hext12.
  destruct (Hkeep h2 Hext12) as [Him2 Henc2].
  unfold bindM at 1.
  destruct (attack_row_returns encoded_image expected_text password bits
              method "resize_70" "Изменение размера 70% + восстановление"
              (Analysis.external (fun im => _resize_restore im 0.7)) resized
              (([] ++ [row1]) ++ [row2]) h2)
    as (row3 & h3 & -> & Hext3 & Hrow3);
    try (by apply Hsize); try done.
  { intros h0 rgb Hcell. rewrite Him2 in Hcell.
    by apply (external_returns _ im). }
  pose proof (extends_trans _ _ _ Hext12 Hext3) as Hext13.
  destruct (Hkeep h3 Hext13) as [Him3 Henc3].
  unfold bindM at 1.
  destruct (attack_row_returns encoded_image expected_text password bits
              method "noise_12" "Шум 12%"
              (Analysis.external (fun im => _add_noise im 0.12 24 123)) noisy
              ((([] ++ [row1]) ++ [row2]) ++ [row3]) h3)
    as (row4 & h4 & -> & Hext4 & Hrow4);
    try (by apply Hsize); try done.
  { intros h0 rgb Hcell. rewrite Him3 in Hcell.
    by apply (external_returns _ im). }
  pose proof (extends_trans _ _ _ Hext13 Hext4) as Hext14.
  destruct (Hkeep h4 Hext14) as [Him4 Henc4].
  unfold bindM at 1.
  destruct (attack_row_returns encoded_image expected_text password bits
              method "blur_1" "Гауссово размытие r=1"
              (Analysis.external (fun im => gaussian_blur im 1.0)) blurred
              (((([] ++ [row1]) ++ [row2]) ++ [row3]) ++ [row4]) h4)
    as (row5 & h5 & -> & Hext5 & Hrow5);
    try (by apply Hsize); try done.
  { intros h0 rgb Hcell. rewrite Him4 in Hcell.
    by apply (external_returns _ im). }
  exists [row1; row2; row3; row4; row5], h5.
  split; [reflexivity |].
  split; [by apply (extends_trans _ _ _ Hext14) |].
  repeat (constructor; [assumption |]). constructor.
Qed.

Lemma attack_outcome_facts preview_of expected_text password bits method
    attack_id attack_name (transformed : Image) row :
  attack_outcome preview_of expected_text password bits method
    (attack_id, attack_name, transformed) row ->
  Analysis.row_id row = attack_id
  /\ (Analysis.success row = true -> Analysis.row_error row = None)
  /\ (Analysis.row_error row <> None ->
      Analysis.success row = false /\ Analysis.preview_text row = [])
  /\ (Analysis.success row = true
      <-> decode_text_of_image transformed password bits method
          = Ok expected_text).
Proof.
  unfold attack_outcome. intros (Hid & _ & Hrow).
  split; [exact Hid |].
  destruct (decode_text_of_image transformed password bits method)
    as [extracted | exc]; destruct Hrow as (Hok & Herr & Hpreview).
  - split; [done |]. split; [done |]. rewrite Hok.
    rewrite bool_decide_eq_true. split; congruence.
  - rewrite Hok. repeat split; done.
Qed.

(** X18.  When the four degrading transforms return images of the size of
    the encoded image, the suite returns five rows, in the order baseline,
    JPEG, resize, noise, blur, and changes no image object that existed.
    Each row records the outcome of extracting from the image its transform
    returned: when extraction returns a text, [success] says whether it is
    the expected text, the error is [None] and the preview is that of the
    extracted text; when extraction raises, the exception does not leave
    the suite but is the row's error, with [success = False] and an empty
    preview.  So a successful row has no error, and the baseline row is
    successful exactly when extraction from the encoded image itself gives
    the expected text. *)
Theorem run_attack_suite_returns (h : heap) (encoded_image : ref)
    (expected_text password : list Z) (bits : Z) (method : string)
    (jpeg resized noisy blurred : Image) :
  let im := cell h encoded_image in
  (encoded_image < next_ref h)%nat ->
  0 <= width im -> 0 <= height im -> width im * height im < 2 ^ 50 ->
  _jpeg_roundtrip im 35 = Ok jpeg -> size jpeg = size im ->
  _resize_restore im 0.7 = Ok resized -> size resized = size im ->
  _add_noise im 0.12 24 123 = Ok noisy -> size noisy = size im ->
  gaussian_blur im 1.0 = Ok blurred -> size blurred = size im ->
  exists rows h',
    run_attack_suite encoded_image expected_text password bits method h
    = (Ok rows, h')
    /\ extends h h'
    /\ Forall2 (attack_outcome (fun text => _safe_preview_text text 90)
                  expected_text password bits method)
         [("baseline", "Без атаки", im);
          ("jpeg_q35", "JPEG q=35 (с потерями)", jpeg);
          ("resize_70", "Изменение размера 70% + восстановление", resized);
          ("noise_12", "Шум 12%", noisy);
          ("blur_1", "Гауссово размытие r=1", blurred)]%string
         rows
    /\ Analysis.row_id <$> rows
       = ["baseline"; "jpeg_q35"; "resize_70"; "noise_12"; "blur_1"]%string
    /\ Forall (fun row =>
                 (Analysis.success row = true -> Analysis.row_error row = None)
                 /\ (Analysis.row_error row <> None ->
                     Analysis.success row = false
                     /\ Analysis.preview_text row = [])) rows
    /\ exists first,
         rows !! 0%nat = Some first
         /\ (Analysis.success first = true
             <-> fst (decode_text_from_image encoded_image password bits
                        method h)
                 = Ok expected_text).
Proof.
  intros im Henc Hw Hh Hsmall Hj Hjs Hr Hrs Hn Hns Hb Hbs.
  destruct (run_attack_suite_rows h encoded_image expected_text password bits
              method jpeg resized noisy blurred Henc Hw Hh Hsmall Hj Hjs Hr
              Hrs Hn Hns Hb Hbs) as (rows & h' & Hrun & Hext & Hrows).
  exists rows, h'. split; [exact Hrun |]. split; [exact Hext |].
  split; [exact Hrows |].
  repeat match type of Hrows with
         | Forall2 _ (_ :: _) _ =>
             let row := fresh "row" in
             let Hrow := fresh "Hrow" in
             apply Forall2_cons_inv_l in Hrows as (row & ? & Hrow & Hrows & ->);
             apply attack_outcome_facts in Hrow as (? & ? & ? & ?)
         end.
  apply Forall2_nil_inv_l in Hrows as ->.
  split; [cbn; congruence |].
  split; [repeat (constructor; [by split |]); constructor |].
  eexists. split; [reflexivity |].
  rewrite decode_text_from_image_cell. done.
Qed.

(** X19.  The suite applied to an image that [encode_text_into_image]
    returned, with the embedded message as the expected text and the same
    password, bit depth and method: the baseline row reports success,
    without an error, and previews the message. *)
Theorem attack_suite_baseline_succeeds (h0 h : heap) (image encoded : ref)
    (message password : list Z) (bits : Z) (method : string)
    (jpeg resized noisy blurred : Image) :
  0 <= width (cell h0 image) -> 0 <= height (cell h0 image) ->
  width (cell h0 image) * height (cell h0 image) < 2 ^ 50 ->
  encode_text_into_image image message password bits method h0
  = (Ok encoded, h) ->
  let im := cell h encoded in
  _jpeg_roundtrip im 35 = Ok jpeg -> size jpeg = size im ->
  _resize_restore im 0.7 = Ok resized -> size resized = size im ->
  _add_noise im 0.12 24 123 = Ok noisy -> size noisy = size im ->
  gaussian_blur im 1.0 = Ok blurred -> size blurred = size im ->
  exists rows h' preview,
    run_attack_suite encoded message password bits method h = (Ok rows, h')
    /\ rows !! 0%nat
       = Some (Analysis.mkAttackRow "baseline" "Без атаки" true None preview)
    /\ _safe_preview_text message 90 = Ok preview.
Proof.
  intros Hw0 Hh0 Hsmall0 Hencode im Hj Hjs Hr Hrs Hn Hns Hb Hbs.
  destruct (encode_text_into_image_inv h0 image message password bits method
              encoded h Hw0 Hh0 Hencode)
    as (mb & header & masked & _ & _ & Hmb & _ & Hback & Hheader & _ & _ & _
        & Hout & Hnext & _ & Hsize & Hdec).
  assert (decode_text_of_image im password bits method = Ok message) as Htext.
  { pose proof (decode_text_from_image_cell encoded password bits method h)
      as Hcell.
    unfold decode_text_from_image, bindM, lift in Hcell. rewrite Hdec in Hcell.
    rewrite (decode_payload_framed header masked password mb) in Hcell by done.
    destruct (utf8_roundtrip _ _ Hmb) as [_ Hrt]. rewrite Hrt in Hcell.
    fold im in Hcell. congruence. }
  assert (0 <= width im /\ 0 <= height im /\ width im * height im < 2 ^ 50)
    as (Hw & Hh & Hsmall).
  { unfold width, height in *. fold im in Hsize. by rewrite Hsize. }
  destruct (run_attack_suite_rows h encoded message password bits method
              jpeg resized noisy blurred ltac:(lia) Hw Hh Hsmall Hj Hjs Hr
              Hrs Hn Hns Hb Hbs) as (rows & h' & Hrun & _ & Hrows).
  apply Forall2_cons_inv_l in Hrows as (first & rest & Hfirst & _ & ->).
  unfold attack_outcome in Hfirst. fold im in Hfirst. rewrite Htext in Hfirst.
  destruct Hfirst as (Hid & Hname & Hok & Herr & Hpreview).
  exists (first :: rest), h', (Analysis.preview_text first).
  split; [exact Hrun |]. split; [| exact Hpreview].
  rewrite bool_decide_eq_true_2 in Hok by done.
  destruct first. cbn in *. by subst.
Qed.

End AttackFacts.

Lemma safe_preview_text_shape_witness :
  exists preview,
    Analysis._safe_preview_text (fun ch => 0x20 <=? ch) (fun ch => 0x30 <=? ch)
      [0x68; 0x0A; 0x69; 0xFFFD; 0x21] 2
    = Ok preview
    /\ preview <> [].
Proof.
  destruct (safe_preview_text_shape (fun ch => 0x20 <=? ch)
              (fun ch => 0x30 <=? ch) [0x68; 0x0A; 0x69; 0xFFFD; 0x21] 2)
    as (preview & Hrun & _ & Hshape).
  - cbn. lia.
  - exists preview. split; [exact Hrun |].
    destruct Hshape as [-> | (_ & _ & _ & Hne)]; [done |].
    apply Hne; [lia | done].
Defined.

Lemma run_attack_suite_returns_witness :
  let keep : Image -> result Image := fun im => Ok im in
  let ones : Image -> result Image :=
    fun im => Ok (mkImage (size im) (fun _ _ => (255, 255, 255))) in
  let im := mkImage (3, 5) (fun x y => (93 + x, 127, 149 + y)) in
  let h := mkHeap 1%nat (fun _ => im) in
  exists rows h',
    Analysis.run_attack_suite (fun ch => 0x20 <=? ch) (fun ch => 0x30 <=? ch)
      (fun im _ => ones im) (fun im _ => keep im) (fun im _ _ _ => ones im)
      (fun im _ => keep im) 0%nat [0x68] [] 1 "sequential" h
    = (Ok rows, h')
    /\ Analysis.row_id <$> rows
       = ["baseline"; "jpeg_q35"; "resize_70"; "noise_12"; "blur_1"]%string
    /\ rows !! 1%nat
       = Some (Analysis.mkAttackRow "jpeg_q35" "JPEG q=35 (с потерями)" false
                 (Some (Analysis.StrOf (ValueError bad_length_message))) []).
Proof.
  intros keep ones im h.
  destruct (run_attack_suite_returns (fun ch => 0x20 <=? ch)
              (fun ch => 0x30 <=? ch)
              (fun im _ => ones im) (fun im _ => keep im)
              (fun im _ _ _ => ones im) (fun im _ => keep im)
              h 0%nat [0x68] [] 1 "sequential"
              (mkImage (3, 5) (fun _ _ => (255, 255, 255))) im
              (mkImage (3, 5) (fun _ _ => (255, 255, 255))) im)
    as (rows & h' & Hrun & _ & Hrows & Hids & _);
    try reflexivity; try (cbn; lia).
  exists rows, h'. split; [exact Hrun |]. split; [exact Hids |].
  apply Forall2_cons_inv_l in Hrows as (row1 & rest & _ & Hrows & ->).
  apply Forall2_cons_inv_l in Hrows as (row2 & rest' & Hrow2 & _ & ->).
  destruct Hrow2 as (Hid & Hname & Hout). vm_compute in Hout.
  destruct Hout as (Hok & Herr & Hpreview).
  destruct row2. cbn in *. by subst.
Defined.

Lemma attack_suite_baseline_succeeds_witness :
  let keep : Image -> result Image := fun im => Ok im in
  let im0 := mkImage (3, 5) (fun x y => (93 + x, 127, 149 + y)) in
  let h0 := mkHeap 1%nat (fun _ => im0) in
  exists h rows h' preview,
    snd (encode_text_into_image 0%nat [0x68; 0x438] [0x70] 2 "interleaved" h0)
    = h
    /\ Analysis.run_attack_suite (fun ch => 0x20 <=? ch)
         (fun ch => 0x30 <=? ch) (fun im _ => keep im) (fun im _ => keep im)
         (fun im _ _ _ => keep im) (fun im _ => keep im) 1%nat [0x68; 0x438]
         [0x70] 2 "interleaved" h
       = (Ok rows, h')
    /\ rows !! 0%nat
       = Some (Analysis.mkAttackRow "baseline" "Без атаки" true None preview).
Proof.
  intros keep im0 h0.
  destruct (encode_text_into_image 0%nat [0x68; 0x438] [0x70] 2 "interleaved"
              h0) as [res h] eqn:Henc.
  assert (res = Ok 1%nat) as ->.
  { change res with (fst (res, h)). rewrite <- Henc. vm_compute. reflexivity. }
  destruct (attack_suite_baseline_succeeds (fun ch => 0x20 <=? ch)
              (fun ch => 0x30 <=? ch) (fun im _ => keep im)
              (fun im _ => keep im) (fun im _ _ _ => keep im)
              (fun im _ => keep im) h0 h 0%nat 1%nat [0x68; 0x438] [0x70] 2
              "interleaved" (cell h 1%nat) (cell h 1%nat) (cell h 1%nat)
              (cell h 1%nat))
    as (rows & h' & preview & Hrun & Hfirst & _);
    try reflexivity; try (cbn; lia); try exact Henc.
  exists h, rows, h', preview. split; [reflexivity |].
  split; [exact Hrun | exact Hfirst].
Defined.

(** * Further properties: the delta map *)

Lemma uint8_range (v : Z) : 0 <= VisualAnalysis.uint8 v <= 255.
Proof.
  unfold VisualAnalysis.uint8.
  pose proof (Z.mod_pos_bound v 256 ltac:(lia)). lia.
Qed.

Lemma uint8_small (v : Z) : 0 <= v <= 255 -> VisualAnalysis.uint8 v = v.
Proof. intros Hv. unfold VisualAnalysis.uint8. apply Z.mod_small. lia. Qed.

Lemma int16_small (v : Z) :
  -32768 <= v < 32768 -> VisualAnalysis.int16 v = v.
Proof.
  intros Hv. unfold VisualAnalysis.int16. rewrite Z.mod_small by lia. lia.
Qed.

(** The difference of two channel values, as the map computes it. *)
Lemma channel_delta (c0 c1 : Z) :
  0 <= c0 <= 255 -> 0 <= c1 <= 255 ->
  VisualAnalysis.int16
    (Z.abs (VisualAnalysis.int16
              (VisualAnalysis.int16 c1 - VisualAnalysis.int16 c0)))
  = Z.abs (c1 - c0).
Proof.
  intros H0 H1. rewrite (int16_small c0), (int16_small c1) by lia.
  rewrite (int16_small (c1 - c0)) by lia. apply int16_small. lia.
Qed.

Lemma max_abs_delta_spec (o m : pixel) :
  (forall c, 0 <= c < 3 -> 0 <= channel_of o c <= 255) ->
  (forall c, 0 <= c < 3 -> 0 <= channel_of m c <= 255) ->
  VisualAnalysis.max_abs_delta o m
  = Z.max (Z.max (Z.abs (channel_of m 0 - channel_of o 0))
                 (Z.abs (channel_of m 1 - channel_of o 1)))
          (Z.abs (channel_of m 2 - channel_of o 2)).
Proof.
  intros Ho Hm.
  pose proof (Ho 0 ltac:(lia)). pose proof (Ho 1 ltac:(lia)).
  pose proof (Ho 2 ltac:(lia)). pose proof (Hm 0 ltac:(lia)).
  pose proof (Hm 1 ltac:(lia)). pose proof (Hm 2 ltac:(lia)).
  destruct o as [[r0 g0] b0], m as [[r1 g1] b1]. cbn in *.
  by rewrite !channel_delta.
Qed.

Lemma uint8_pixel_channels (p : pixel) c :
  0 <= c < 3 ->
  0 <= channel_of (let '(r, g, b) := p in
                   (VisualAnalysis.uint8 r, VisualAnalysis.uint8 g,
                    VisualAnalysis.uint8 b)) c <= 255.
Proof.
  intros Hc. destruct p as [[r g] b]. unfold channel_of.
  repeat case_match; apply uint8_range.
Qed.

Lemma uint8_pixel_small (p : pixel) :
  (forall c, 0 <= c < 3 -> 0 <= channel_of p c <= 255) ->
  (let '(r, g, b) := p in
   (VisualAnalysis.uint8 r, VisualAnalysis.uint8 g, VisualAnalysis.uint8 b))
  = p.
Proof.
  intros Hp.
  pose proof (Hp 0 ltac:(lia)). pose proof (Hp 1 ltac:(lia)).
  pose proof (Hp 2 ltac:(lia)).
  destruct p as [[r g] b]. cbn in *. by rewrite !uint8_small.
Qed.

Lemma max_abs_delta_range (o m : pixel) :
  (forall c, 0 <= c < 3 -> 0 <= channel_of o c <= 255) ->
  (forall c, 0 <= c < 3 -> 0 <= channel_of m c <= 255) ->
  0 <= VisualAnalysis.max_abs_delta o m <= 255.
Proof.
  intros Ho Hm. rewrite max_abs_delta_spec by done.
  pose proof (Ho 0 ltac:(lia)). pose proof (Ho 1 ltac:(lia)).
  pose proof (Ho 2 ltac:(lia)). pose proof (Hm 0 ltac:(lia)).
  pose proof (Hm 1 ltac:(lia)). pose proof (Hm 2 ltac:(lia)). lia.
Qed.

Lemma same_high_bits_close (a b k : Z) :
  0 <= k -> Z.shiftr a k = Z.shiftr b k -> Z.abs (a - b) <= 2 ^ k - 1.
Proof.
  intros Hk. rewrite !Z.shiftr_div_pow2 by lia. intros Heq.
  assert (0 < 2 ^ k) by (apply Z.pow_pos_nonneg; lia).
  pose proof (Z.div_mod a (2 ^ k) ltac:(lia)).
  pose proof (Z.div_mod b (2 ^ k) ltac:(lia)).
  pose proof (Z.mod_pos_bound a (2 ^ k) ltac:(lia)).
  pose proof (Z.mod_pos_bound b (2 ^ k) ltac:(lia)).
  rewrite Heq in *. lia.
Qed.

(** The image an embedding returns: same size, every channel with its
    high bits. *)
Lemma embedded_image_high (h : heap) (image : ref) (payload : list Z) bits
    method :
  bits ∈ [1; 2; 3] -> method ∈ SUPPORTED_METHODS ->
  let im := cell h image in
  Z.of_nat (length payload) * 8 <= carrier_bits (width im) (height im) bits ->
  exists h',
    encode_payload_into_image image payload bits method h
    = (Ok (next_ref h), h')
    /\ next_ref h' = S (next_ref h)
    /\ (forall r, r <> next_ref h -> cell h' r = cell h r)
    /\ size (cell h' (next_ref h)) = size im
    /\ forall x y c k, 0 <= c < 3 -> bits <= k ->
         Z.shiftr (channel_of (pixels (cell h' (next_ref h)) x y) c) k
         = Z.shiftr (channel_of (pixels im x y) c) k.
Proof.
  intros Hb Hm im Hfits.
  destruct (encode_payload_into_image_result h image payload bits method
              Hb Hm Hfits)
    as (order & h' & Ho & Henc & Hnext & Hframe & Hsize & Hother & Hvisited).
  destruct (carrier_order_slots bits method order Hb Ho) as (_ & _ & Hslots).
  fold im in Hother, Hvisited.
  exists h'. repeat (split; [assumption |]).
  intros x y c k Hc Hk.
  destruct (decide ((x, y) ∈ coords (width im) (range (height im))))
    as [Hin | Hout].
  - apply list_elem_of_lookup_1 in Hin as [j Hj].
    rewrite (Hvisited j x y Hj). apply embedded_pixel_high; [| done].
    eapply Forall_impl; [exact Hslots |]. cbn. lia.
  - by rewrite Hother.
Qed.

(** X20.  The delta map of an image and the image an embedding returned
    for it: it is computed without an error, has one entry per pixel, and
    no entry exceeds [2^bits - 1], whatever the threshold -- an embedding
    at bit depth 1 moves no channel by more than 1, at depth 3 by no more
    than 7. *)
Theorem delta_map_of_embedding (h : heap) (image : ref) (payload : list Z)
    (bits : Z) (method : string) (threshold : Z) :
  bits ∈ [1; 2; 3] -> method ∈ SUPPORTED_METHODS ->
  (image < next_ref h)%nat ->
  let im := cell h image in
  (forall x y c, 0 <= c < 3 -> 0 <= channel_of (pixels im x y) c <= 255) ->
  Z.of_nat (length payload) * 8 <= carrier_bits (width im) (height im) bits ->
  exists out h1 delta h2,
    encode_payload_into_image image payload bits method h = (Ok out, h1)
    /\ VisualAnalysis.compute_delta_map image out threshold h1
       = (Ok delta, h2)
    /\ VisualAnalysis.shape delta = (height im, width im)
    /\ forall y x, 0 <= VisualAnalysis.item delta y x <= 2 ^ bits - 1.
Proof.
  intros Hb Hm Himage im Hrange Hfits.
  destruct (embedded_image_high h image payload bits method Hb Hm Hfits)
    as (h1 & Henc & Hnext & Hframe & Hsize & Hhigh).
  fold im in Hsize, Hhigh.
  exists (next_ref h), h1.
  unfold VisualAnalysis.compute_delta_map, VisualAnalysis._rgb_array,
    bindM, deref, alloc, retM.
  cbn [cell next_ref size pixels].
  rewrite (Hframe image) by lia. fold im.
  replace (S (next_ref h1) =? next_ref h1)%nat with false
    by (symmetry; apply Nat.eqb_neq; lia).
  destruct (Nat.eqb_spec (next_ref h) (next_ref h1)) as [Heq | _]; [lia |].
  rewrite Hsize, (size_width_height im).
  unfold VisualAnalysis.broadcast_axis. rewrite !Z.eqb_refl.
  set (out := cell h1 (next_ref h)) in *.
  assert (forall x y c, 0 <= c < 3 ->
            0 <= channel_of (pixels out x y) c <= 255) as Hrange'.
  { intros x y c Hc. apply (shiftr8_range (channel_of (pixels im x y) c)).
    - apply Hhigh; [done |].
      destruct (valid_bits_cases _ Hb) as [-> | [-> | ->]]; lia.
    - by apply Hrange. }
  assert (forall x y,
            0 <= VisualAnalysis.uint8
                   (VisualAnalysis.max_abs_delta
                      (let '(r, g, b) := pixels im x y in
                       (VisualAnalysis.uint8 r, VisualAnalysis.uint8 g,
                        VisualAnalysis.uint8 b))
                      (let '(r, g, b) := pixels out x y in
                       (VisualAnalysis.uint8 r, VisualAnalysis.uint8 g,
                        VisualAnalysis.uint8 b)))
            <= 2 ^ bits - 1) as Hdelta.
  { intros x y.
    rewrite !uint8_pixel_small by (intros c Hc; auto).
    rewrite uint8_small
      by (apply max_abs_delta_range; intros c Hc; auto).
    rewrite max_abs_delta_spec by (intros c Hc; auto).
    assert (0 <= bits) as Hbits
      by (destruct (valid_bits_cases _ Hb) as [-> | [-> | ->]]; lia).
    pose proof (same_high_bits_close _ _ bits Hbits
                  (Hhigh x y 0 bits ltac:(lia) ltac:(lia))).
    pose proof (same_high_bits_close _ _ bits Hbits
                  (Hhigh x y 1 bits ltac:(lia) ltac:(lia))).
    pose proof (same_high_bits_close _ _ bits Hbits
                  (Hhigh x y 2 bits ltac:(lia) ltac:(lia))).
    lia. }
  assert (0 <= 2 ^ bits - 1) as Hpos
    by (destruct (valid_bits_cases _ Hb) as [-> | [-> | ->]]; lia).
  destruct (0 <? Z.max 0 (Z.min threshold 255)).
  - eexists _, _. split; [exact Henc |]. split; [reflexivity |].
    split; [reflexivity |]. intros y x. cbn [VisualAnalysis.item].
    destruct (_ <=? _).
    + specialize (Hdelta (VisualAnalysis.along (width im) x)
                         (VisualAnalysis.along (height im) y)).
      rewrite uint8_small; [exact Hdelta |].
      pose proof (uint8_range
                    (VisualAnalysis.max_abs_delta
                       (let '(r, g, b) :=
                          pixels im (VisualAnalysis.along (width im) x)
                            (VisualAnalysis.along (height im) y) in
                        (VisualAnalysis.uint8 r, VisualAnalysis.uint8 g,
                         VisualAnalysis.uint8 b))
                       (let '(r, g, b) :=
                          pixels out (VisualAnalysis.along (width im) x)
                            (VisualAnalysis.along (height im) y) in
                        (VisualAnalysis.uint8 r, VisualAnalysis.uint8 g,
                         VisualAnalysis.uint8 b)))).
      lia.
    + change (VisualAnalysis.uint8 0) with 0. lia.
  - eexists _, _. split; [exact Henc |]. split; [reflexivity |].
    split; [reflexivity |]. intros y x. cbn [VisualAnalysis.item].
    apply Hdelta.
Qed.

Lemma delta_map_of_embedding_witness :
  let im := mkImage (3, 5) (fun x y => (x `mod` 256, 127, y `mod` 256)) in
  let h := mkHeap 1%nat (fun _ => im) in
  exists out h1 delta h2,
    encode_payload_into_image 0%nat [0; 0; 0; 1; 0xA5] 2 "interleaved" h
    = (Ok out, h1)
    /\ VisualAnalysis.compute_delta_map 0%nat out 0 h1 = (Ok delta, h2)
    /\ VisualAnalysis.shape delta = (5, 3)
    /\ forall y x, 0 <= VisualAnalysis.item delta y x <= 3.
Proof.
  intros im h.
  apply (delta_map_of_embedding h 0%nat [0; 0; 0; 1; 0xA5] 2 "interleaved" 0).
  - in_list.
  - in_list.
  - cbn. lia.
  - intros x y c Hc. cbn [cell h im pixels channel_of].
    pose proof (Z.mod_pos_bound x 256 ltac:(lia)).
    pose proof (Z.mod_pos_bound y 256 ltac:(lia)).
    repeat case_match; lia.
  - vm_compute. discriminate.
Defined.

Lemma max_abs_delta_same (p : pixel) : VisualAnalysis.max_abs_delta p p = 0.
Proof.
  destruct p as [[r g] b]. unfold VisualAnalysis.max_abs_delta.
  rewrite !Z.sub_diag. reflexivity.
Qed.

Lemma along_in_range (n i : Z) : 0 <= i < n -> VisualAnalysis.along n i = i.
Proof.
  intros Hi. unfold VisualAnalysis.along.
  destruct (Z.eqb_spec n 1); lia.
Qed.

(** X21.  [compute_delta_map] on two images of one size returns a map with
    one entry per pixel and changes no image object that existed; every
    entry is between 0 and 255, is 0 where the two pixels are equal, and is
    0 or at least the threshold (capped at 255).  On two images whose
    heights, or widths, differ and are both other than 1 it raises NumPy's
    broadcasting [ValueError], which names the shape of the modified image
    first, the first operand of [mod - orig]. *)
Theorem compute_delta_map_outcomes (h : heap) (original modified : ref)
    (threshold : Z) :
  (original < next_ref h)%nat -> (modified < next_ref h)%nat ->
  let o := cell h original in
  let m := cell h modified in
  let run := VisualAnalysis.compute_delta_map original modified threshold h in
  (size o = size m ->
   exists delta h',
     run = (Ok delta, h')
     /\ extends h h'
     /\ VisualAnalysis.shape delta = (height o, width o)
     /\ (forall y x,
           0 <= VisualAnalysis.item delta y x <= 255
           /\ (VisualAnalysis.item delta y x = 0
               \/ Z.min threshold 255 <= VisualAnalysis.item delta y x))
     /\ (forall y x, 0 <= x < width o -> 0 <= y < height o ->
           pixels o x y = pixels m x y -> VisualAnalysis.item delta y x = 0))
  /\ ((height o <> height m /\ height o <> 1 /\ height m <> 1)
      \/ (width o <> width m /\ width o <> 1 /\ width m <> 1) ->
      fst run
      = Raise (ValueError (VisualAnalysis.broadcast_message
                             (height m) (width m) (height o) (width o)))).
Proof.
  intros Horiginal Hmodified o m run. subst run.
  unfold VisualAnalysis.compute_delta_map, VisualAnalysis._rgb_array,
    bindM, deref, alloc, retM, raiseM.
  cbn [cell next_ref size pixels].
  destruct (Nat.eqb_spec modified (next_ref h)) as [Heq | _]; [lia |].
  fold o m.
  pose proof (size_width_height o) as Hso.
  pose proof (size_width_height m) as Hsm.
  destruct (size o) as [w1 h1], (size m) as [w2 h2].
  injection Hso as -> ->. injection Hsm as -> ->.
  split.
  - intros Hsize.
    injection Hsize as Hw Hh. rewrite <- Hw, <- Hh.
    unfold VisualAnalysis.broadcast_axis. rewrite !Z.eqb_refl.
    set (delta := fun y x : Z =>
           VisualAnalysis.uint8
             (VisualAnalysis.max_abs_delta
                (let '(r, g, b) :=
                   pixels o (VisualAnalysis.along (width o) x)
                     (VisualAnalysis.along (height o) y) in
                 (VisualAnalysis.uint8 r, VisualAnalysis.uint8 g,
                  VisualAnalysis.uint8 b))
                (let '(r, g, b) :=
                   pixels m (VisualAnalysis.along (width o) x)
                     (VisualAnalysis.along (height o) y) in
                 (VisualAnalysis.uint8 r, VisualAnalysis.uint8 g,
                  VisualAnalysis.uint8 b)))).
    assert (forall y x, 0 <= delta y x <= 255) as Hrange
      by (intros y x; apply uint8_range).
    assert (forall y x, 0 <= x < width o -> 0 <= y < height o ->
              pixels o x y = pixels m x y -> delta y x = 0) as Hsame.
    { intros y x Hx Hy Heq. unfold delta.
      rewrite !along_in_range, Heq by done.
      by rewrite max_abs_delta_same. }
    assert (extends h
              (mkHeap (S (S (next_ref h)))
                 (fun r => if (r =? S (next_ref h))%nat then m
                           else if (r =? next_ref h)%nat then o
                                else cell h r))) as Hext.
    { split; [cbn; lia |]. intros r Hr. cbn.
      destruct (Nat.eqb_spec r (S (next_ref h))); [lia |].
      destruct (Nat.eqb_spec r (next_ref h)); [lia | done]. }
    destruct (Z.ltb_spec 0 (Z.max 0 (Z.min threshold 255))) as [Hthr | Hthr].
    + eexists _, _. split; [reflexivity |]. split; [exact Hext |].
      split; [reflexivity |]. cbn [VisualAnalysis.item].
      split.
      * intros y x.
        change (VisualAnalysis.uint8 (VisualAnalysis.max_abs_delta _ _))
          with (delta y x).
        specialize (Hrange y x).
        destruct (Z.leb_spec (Z.max 0 (Z.min threshold 255)) (delta y x)).
        -- rewrite uint8_small by done. lia.
        -- change (VisualAnalysis.uint8 0) with 0. lia.
      * intros y x Hx Hy Heq.
        change (VisualAnalysis.uint8 (VisualAnalysis.max_abs_delta _ _))
          with (delta y x).
        rewrite (Hsame y x Hx Hy Heq).
        by destruct (_ <=? 0).
    + eexists _, _. split; [reflexivity |]. split; [exact Hext |].
      split; [reflexivity |]. cbn [VisualAnalysis.item].
      split; [| exact Hsame].
      intros y x. specialize (Hrange y x). fold (delta y x). lia.
  - unfold VisualAnalysis.broadcast_axis.
    intros [(Hne & Ho1 & Hm1) | (Hne & Ho1 & Hm1)].
    + destruct (Z.eqb_spec (height o) (height m)); [done |].
      destruct (Z.eqb_spec (height o) 1); [done |].
      by destruct (Z.eqb_spec (height m) 1).
    + destruct (Z.eqb_spec (width o) (width m)); [done |].
      destruct (Z.eqb_spec (width o) 1); [done |].
      destruct (Z.eqb_spec (width m) 1); [done |].
      by destruct (if height o =? height m then _ else _).
Qed.

Lemma compute_delta_map_outcomes_witness :
  let a := mkImage (3, 5) (fun x y => (93 + x, 127, 149 + y)) in
  let b := mkImage (4, 5) (fun x y => (93 + x, 127, 149 + y)) in
  let h := mkHeap 2%nat (fun r => if (r =? 0)%nat then a else b) in
  (exists delta h',
     VisualAnalysis.compute_delta_map 0%nat 0%nat 2 h = (Ok delta, h')
     /\ VisualAnalysis.item delta 1 2 = 0)
  /\ fst (VisualAnalysis.compute_delta_map 0%nat 1%nat 0 h)
     = Raise (ValueError
                "operands could not be broadcast together with shapes (5,4,3) (5,3,3) ").
Proof.
  intros a b h. split.
  - destruct (compute_delta_map_outcomes h 0%nat 0%nat 2) as [Hok _];
      [cbn; lia | cbn; lia |].
    destruct (Hok eq_refl) as (delta & h' & Hrun & _ & _ & _ & Hsame).
    exists delta, h'. split; [exact Hrun |].
    apply Hsame; [cbn; lia | cbn; lia | reflexivity].
  - apply (compute_delta_map_outcomes h 0%nat 1%nat 0);
      [cbn; lia | cbn; lia |].
    right. cbn. lia.
Defined.

(** * Further properties: CSV fields of the proof pack *)

Lemma double_quotes_cons (ch : Z) (value : list Z) :
  ProofPack.double_quotes (ch :: value)
  = (if ch =? 0x22 then [0x22; 0x22] else [ch])
    ++ ProofPack.double_quotes value.
Proof. reflexivity. Qed.

Lemma double_quotes_inj (v1 v2 : list Z) :
  ProofPack.double_quotes v1 = ProofPack.double_quotes v2 -> v1 = v2.
Proof.
  revert v2. induction v1 as [| c1 v1 IH]; intros [| c2 v2].
  - done.
  - rewrite double_quotes_cons. by destruct (c2 =? 0x22).
  - rewrite double_quotes_cons. by destruct (c1 =? 0x22).
  - rewrite !double_quotes_cons.
    destruct (Z.eqb_spec c1 0x22) as [-> | H1],
      (Z.eqb_spec c2 0x22) as [-> | H2]; cbn [app]; intros Heq.
    + f_equal. apply IH. congruence.
    + congruence.
    + congruence.
    + injection Heq as -> Heq. f_equal. by apply IH.
Qed.

Lemma length_double_quotes (value : list Z) :
  (length value <= length (ProofPack.double_quotes value))%nat.
Proof.
  induction value as [| ch value IH]; [done |].
  rewrite double_quotes_cons, length_app.
  destruct (ch =? 0x22); cbn [length]; lia.
Qed.

Lemma csv_special_spec (value : list Z) :
  existsb (fun ch => bool_decide (ch ∈ value)) [0x2C; 0x22; 0x0A; 0x0D] = true
  <-> Exists (fun ch => ch ∈ [0x2C; 0x22; 0x0A; 0x0D]) value.
Proof.
  rewrite Exists_exists. cbn [existsb]. rewrite !orb_true_iff.
  rewrite !bool_decide_eq_true. split.
  - intros [H | [H | [H | [H | H]]]]; try discriminate;
      eexists; (split; [exact H |]); in_list.
  - intros (ch & Hin & Hch). rewrite !elem_of_cons, elem_of_nil in Hch.
    destruct Hch as [-> | [-> | [-> | [-> | []]]]]; auto.
Qed.

(** X22.  [_csv_escape] returns a value without comma, double quote, line
    feed and carriage return as it is; any other value comes back between
    two double quotes, at least two characters longer; and two different
    values never get the same field. *)
Theorem csv_escape_facts (value other : list Z) :
  (Forall (fun ch => ch ∉ [0x2C; 0x22; 0x0A; 0x0D]) value ->
   ProofPack._csv_escape value = value)
  /\ (Exists (fun ch => ch ∈ [0x2C; 0x22; 0x0A; 0x0D]) value ->
      exists body,
        ProofPack._csv_escape value = [0x22] ++ body ++ [0x22]
        /\ (length value <= length body)%nat)
  /\ (ProofPack._csv_escape value = ProofPack._csv_escape other ->
      value = other).
Proof.
  unfold ProofPack._csv_escape. split; [| split].
  - intros Hplain.
    destruct (existsb _ _) eqn:Hspecial; [| done].
    apply csv_special_spec, Exists_exists in Hspecial as (ch & Hin & Hch).
    rewrite Forall_forall in Hplain. by destruct (Hplain ch Hin).
  - intros Hspecial. apply csv_special_spec in Hspecial as ->.
    eexists. split; [reflexivity |]. apply length_double_quotes.
  - destruct (existsb _ [_; _; _; _]) eqn:Hv;
      destruct (existsb (fun ch => bool_decide (ch ∈ other)) _) eqn:Ho.
    + intros Heq. injection Heq as Heq. apply app_inv_tail in Heq.
      by apply double_quotes_inj.
    + intros <-. apply not_true_iff_false in Ho. destruct Ho.
      apply csv_special_spec, Exists_exists. exists 0x22.
      split; in_list.
    + intros ->. apply not_true_iff_false in Hv. destruct Hv.
      apply csv_special_spec, Exists_exists. exists 0x22.
      split; in_list.
    + done.
Qed.

Lemma csv_escape_facts_witness :
  ProofPack._csv_escape [0x61; 0x62] = [0x61; 0x62]
  /\ exists body,
       ProofPack._csv_escape [0x61; 0x22; 0x2C] = [0x22] ++ body ++ [0x22]
       /\ (3 <= length body)%nat.
Proof.
  split.
  - apply (csv_escape_facts [0x61; 0x62] []).
    repeat (constructor;
            [rewrite !elem_of_cons, elem_of_nil; lia |]). constructor.
  - apply (csv_escape_facts [0x61; 0x22; 0x2C] []).
    apply Exists_cons_tl, Exists_cons_hd. in_list.
Defined.
